(** * Canvas thumbnails for bases cards: a model of the plugin and its properties

    The development follows the two source files of the plugin:
    - [main.ts]: the plugin object with its thumbnail map, the canvas scan,
      the three timer-arming methods and the teardown on unload;
    - [utils.ts]: the reconciliation of the thumbnail map with the live DOM
      ([addCardThumbnails] and its helpers) and [clearAllThumbnails].

    Collaborators that are not part of the plugin (the vault, the JSON
    parser, the DOM, the timer table of the event loop) are modelled by the
    interface the plugin uses, and nothing more. *)

From Stdlib Require Import String Ascii NArith ZArith QArith Lia.
From stdpp Require Import base decidable option list.

Local Open Scope list_scope.

(** ** JavaScript values used by the plugin *)

Module JS.

Local Open Scope N_scope.

(** A JavaScript string is a sequence of UTF-16 code units. *)
Abbreviation jsstring := (list N).

(** A literal of the source: its characters are all ASCII. *)
Definition str (s : string) : jsstring :=
  N_of_ascii <$> list_ascii_of_string s.

Definition streq (s t : jsstring) : bool := bool_decide (s = t).

(** [s.startsWith(p)] *)
Fixpoint startsWith (p s : jsstring) : bool :=
  match p, s with
  | [], _ => true
  | a :: p', b :: s' => (a =? b) && startsWith p' s'
  | _ :: _, [] => false
  end.

(** [s.includes(t)]: [t] occurs in [s] as a contiguous run of code units. *)
Fixpoint includes (s t : jsstring) : bool :=
  startsWith t s ||
  match s with
  | [] => false
  | _ :: r => includes r t
  end.

(** [s.split(sep)] for a separator of one code unit. The result is never
    empty: the empty string splits into one empty segment. *)
Fixpoint split (sep : N) (s : jsstring) : list jsstring :=
  match s with
  | [] => [[]]
  | c :: r =>
      if c =? sep then [] :: split sep r
      else match split sep r with
           | seg :: segs => (c :: seg) :: segs
           | [] => [[c]]
           end
  end.

(** [a.pop()] as used in an expression: the last element, [undefined]
    (here [None]) on the empty array. *)
Definition pop {A} (a : list A) : option A := last a.

(** [s.replace(pat, rep)] with a string pattern: only the FIRST occurrence
    of [pat] is replaced. ([rep] holds no dollar sign in the source.) *)
Fixpoint replace (pat rep s : jsstring) : jsstring :=
  if startsWith pat s then rep ++ drop (length pat) s
  else match s with
       | [] => []
       | c :: r => c :: replace pat rep r
       end.

(** White space and line terminators, the code units [trim] removes. *)
Definition isWhiteSpace (c : N) : bool :=
  bool_decide (c ∈ [9; 10; 11; 12; 13; 32; 160; 5760; 8232; 8233; 8239; 8287;
                    12288; 65279])
  || ((8192 <=? c) && (c <=? 8202)).

Fixpoint dropWhile {A} (f : A → bool) (l : list A) : list A :=
  match l with
  | [] => []
  | x :: r => if f x then dropWhile f r else l
  end.

(** [s.trim()] *)
Definition trim (s : jsstring) : jsstring :=
  reverse (dropWhile isWhiteSpace (reverse (dropWhile isWhiteSpace s))).

(** [s.toLowerCase()] on the letters A to Z. The only use in the plugin
    tests the result for being one of eight lower-case ASCII words without
    the letter k. Outside A to Z the only code unit whose lower case is
    made of ASCII letters alone is the Kelvin sign, which lower-cases to k,
    so the test is decided by this part of the mapping. *)
Definition toLowerCase (s : jsstring) : jsstring :=
  (λ c, if (65 <=? c) && (c <=? 90) then c + 32 else c) <$> s.

(** [o || d] for an optional string: [undefined] and the empty string are
    falsy. *)
Definition orElse (o : option jsstring) (d : jsstring) : jsstring :=
  match o with
  | Some (c :: r) => c :: r
  | _ => d
  end.

End JS.

Import JS.

(** ** The live DOM

    The document is kept as the sequence of its nodes in document order
    (pre-order), each with its nesting depth: the descendants of a node are
    the nodes that follow it for as long as they lie deeper. An element
    handle of the source is the position of the node in this sequence, so
    a handle stays valid, and aliases the same element, across updates. *)

Module Dom.

(** The inline style declarations of an element, by the four properties
    the plugin assigns. The empty string is a property that is not
    declared. *)
Record Style := {
  backgroundImage : jsstring;
  backgroundSize : jsstring;
  backgroundRepeat : jsstring;
  backgroundPosition : jsstring;
}.

Record Node := {
  depth : nat;
  isElement : bool;                        (* an element, or a text node *)
  classList : list jsstring;
  attributes : list (jsstring * jsstring); (* name, value; names distinct *)
  style : Style;
  data : jsstring;                         (* the text of a text node *)
}.

Abbreviation Document := (list Node).
Abbreviation Handle := nat.

Definition withAttributes (n : Node) (a : list (jsstring * jsstring)) : Node :=
  {| depth := depth n; isElement := isElement n; classList := classList n;
     attributes := a; style := style n; data := data n |}.

Definition withStyle (n : Node) (s : Style) : Node :=
  {| depth := depth n; isElement := isElement n; classList := classList n;
     attributes := attributes n; style := s; data := data n |}.

(** *** Attributes *)

Fixpoint attrGet (a : list (jsstring * jsstring)) (name : jsstring) : option jsstring :=
  match a with
  | [] => None
  | (k, v) :: r => if streq k name then Some v else attrGet r name
  end.

Fixpoint attrSet (a : list (jsstring * jsstring)) (name value : jsstring)
  : list (jsstring * jsstring) :=
  match a with
  | [] => [(name, value)]
  | (k, v) :: r => if streq k name then (k, value) :: r else (k, v) :: attrSet r name value
  end.

Definition attrRemove (a : list (jsstring * jsstring)) (name : jsstring)
  : list (jsstring * jsstring) :=
  filter (λ kv, kv.1 ≠ name) a.

(** [el.getAttribute(name)]: [null] (here [None]) when the attribute is absent. *)
Definition getAttribute (d : Document) (el : Handle) (name : jsstring) : option jsstring :=
  n ← d !! el; attrGet (attributes n) name.

(** [el.setAttribute(name, value)] *)
Definition setAttribute (el : Handle) (name value : jsstring) (d : Document) : Document :=
  alter (λ n, withAttributes n (attrSet (attributes n) name value)) el d.

(** [el.removeAttribute(name)] *)
Definition removeAttribute (el : Handle) (name : jsstring) (d : Document) : Document :=
  alter (λ n, withAttributes n (attrRemove (attributes n) name)) el d.

(** *** The style declaration

    What an assignment [el.style.<property> = v] leaves in the property
    that held [old] (CSSOM, [setProperty] without a priority). The empty
    string removes the declaration. A text that does not parse as a value
    of the property is ignored, and a text in which a priority,
    [!important], occurs does not parse: a priority is no part of a value.
    Every text the plugin assigns is the empty string or ends in
    [!important]; any other text is kept as it is written. (A style engine
    does not take the characters of [!important] for a priority when they
    lie inside a quoted string or a comment of the value; the texts of the
    plugin are of that kind only when the resource URL holds a quote, a
    backslash or a line break, see [PlainUrl].) *)
Definition assigned (v old : jsstring) : jsstring :=
  match v with
  | [] => []
  | _ :: _ => if includes v (str "!important") then old else v
  end.

(** [el.style.backgroundImage = v] and its three siblings *)
Definition setBackgroundImage (el : Handle) (v : jsstring) (d : Document) : Document :=
  alter (λ n, withStyle n
     {| backgroundImage := assigned v (backgroundImage (style n));
        backgroundSize := backgroundSize (style n);
        backgroundRepeat := backgroundRepeat (style n);
        backgroundPosition := backgroundPosition (style n) |}) el d.

Definition setBackgroundSize (el : Handle) (v : jsstring) (d : Document) : Document :=
  alter (λ n, withStyle n
     {| backgroundImage := backgroundImage (style n);
        backgroundSize := assigned v (backgroundSize (style n));
        backgroundRepeat := backgroundRepeat (style n);
        backgroundPosition := backgroundPosition (style n) |}) el d.

Definition setBackgroundRepeat (el : Handle) (v : jsstring) (d : Document) : Document :=
  alter (λ n, withStyle n
     {| backgroundImage := backgroundImage (style n);
        backgroundSize := backgroundSize (style n);
        backgroundRepeat := assigned v (backgroundRepeat (style n));
        backgroundPosition := backgroundPosition (style n) |}) el d.

Definition setBackgroundPosition (el : Handle) (v : jsstring) (d : Document) : Document :=
  alter (λ n, withStyle n
     {| backgroundImage := backgroundImage (style n);
        backgroundSize := backgroundSize (style n);
        backgroundRepeat := backgroundRepeat (style n);
        backgroundPosition := assigned v (backgroundPosition (style n)) |}) el d.

(** *** Selectors: the three forms the plugin uses *)

Inductive Selector :=
  | ByClass (c : jsstring)           (* .c *)
  | HasAttribute (a : jsstring)      (* [a] *)
  | AttributeIs (a v : jsstring).    (* [a=v], with v quoted in the source *)

Definition matchesNode (sel : Selector) (n : Node) : bool :=
  isElement n &&
  match sel with
  | ByClass c => bool_decide (c ∈ classList n)
  | HasAttribute a => bool_decide (is_Some (attrGet (attributes n) a))
  | AttributeIs a v =>
      match attrGet (attributes n) a with
      | Some w => streq w v
      | None => false
      end
  end.

Definition matchesAt (d : Document) (sel : Selector) (i : Handle) : bool :=
  match d !! i with
  | Some n => matchesNode sel n
  | None => false
  end.

(** The number of leading nodes of [l] that lie deeper than [dep]. *)
Fixpoint deeperRun (dep : nat) (l : list Node) : nat :=
  match l with
  | [] => 0
  | n :: r => if (dep <? depth n)%nat then S (deeperRun dep r) else 0
  end.

(** The descendants of a node, in document order. *)
Definition descendants (d : Document) (el : Handle) : list Handle :=
  match d !! el with
  | Some n => seq (S el) (deeperRun (depth n) (drop (S el) d))
  | None => []
  end.

(** [el.querySelectorAll(sel)]: the matching descendants, in document order. *)
Definition querySelectorAll (d : Document) (el : Handle) (sel : Selector) : list Handle :=
  filter (λ i, matchesAt d sel i = true) (descendants d el).

(** [el.querySelector(sel)]: the first of them, or [null]. *)
Definition querySelector (d : Document) (el : Handle) (sel : Selector) : option Handle :=
  head (querySelectorAll d el sel).

(** [document.querySelectorAll(sel)] and [document.querySelector(sel)] *)
Definition documentQuerySelectorAll (d : Document) (sel : Selector) : list Handle :=
  filter (λ i, matchesAt d sel i = true) (seq 0 (length d)).

Definition documentQuerySelector (d : Document) (sel : Selector) : option Handle :=
  head (documentQuerySelectorAll d sel).

(** [el.textContent] of an element: the text of its descendant text nodes,
    concatenated in document order. *)
Definition textContent (d : Document) (el : Handle) : jsstring :=
  concat ((λ i, match d !! i with
                | Some n => if isElement n then [] else data n
                | None => []
                end) <$> descendants d el).

End Dom.

Import Dom.

(** ** The console

    One constructor for each message of the source; [isError] tells the
    [console.error] calls from the [console.log] calls. *)

Module Console.

Inductive Event :=
  (* main.ts *)
  | LogInit
  | LogScanStart
  | LogFound (canvasPath nodePath : jsstring)
  | ErrCanvas (canvasPath : jsstring)
  | LogScanDone (size : nat)
  | LogObserverSet
  | LogUnload
  (* utils.ts *)
  | LogStart (size : nat)
  | LogNoContainer
  | LogCardSet (canvasFileName imagePath : jsstring)
  | LogNoCard (canvasFileName : jsstring)
  | LogDone (updatedCount : nat)
  | LogThumbnailSet (imageUrl : jsstring)
  | ErrNoAdapter
  | LogCleared (n : nat).

Definition isError (e : Event) : bool :=
  match e with
  | ErrCanvas _ | ErrNoAdapter => true
  | _ => false
  end.

End Console.

Import Console.

(** ** A JavaScript [Map] from strings to strings

    Entries are kept in insertion order, which is the order of [forEach];
    [set] on a key that is present keeps the key's position. *)

Module JSMap.

Abbreviation t := (list (jsstring * jsstring)).

Fixpoint get (m : t) (k : jsstring) : option jsstring :=
  match m with
  | [] => None
  | (k', v) :: r => if streq k' k then Some v else get r k
  end.

Fixpoint set (m : t) (k v : jsstring) : t :=
  match m with
  | [] => [(k, v)]
  | (k', v') :: r => if streq k' k then (k', v) :: r else (k', v') :: set r k v
  end.

Definition clear (m : t) : t := [].

Definition size (m : t) : nat := length m.

End JSMap.

(** ** utils.ts *)

Module Utils.

(** [plugin.app.vault.adapter]: the desktop adapter resolves a vault path
    to a resource URL; any other adapter does not. *)
Inductive DataAdapter :=
  | FileSystemAdapter (getResourcePath : jsstring → jsstring)
  | OtherAdapter.

Definition slash : N := 47%N.

(** [getFileNameFromPath]:
    [filePath.split('/').pop()?.replace('.canvas', '') || ''] *)
Definition getFileNameFromPath (filePath : jsstring) : jsstring :=
  orElse ((λ seg, replace (str ".canvas") [] seg) <$> pop (split slash filePath)) [].

(** The file name a card displays:
    [card.querySelector('[data-property=file.name]')?.textContent?.trim()],
    [undefined] (here [None]) when the card has no such element. *)
Definition cardFileName (d : Document) (card : Handle) : option jsstring :=
  nameElement ← querySelector d card (AttributeIs (str "data-property") (str "file.name"));
  Some (trim (textContent d nameElement)).

(** [cardFileName === fileName || cardFileName?.includes(fileName)] *)
Definition cardMatches (d : Document) (fileName : jsstring) (card : Handle) : bool :=
  match cardFileName d card with
  | Some name => streq name fileName || includes name fileName
  | None => false
  end.

(** The [for ... of] loop of [findCardByFileName]. *)
Fixpoint findCardLoop (d : Document) (fileName : jsstring) (cards : list Handle)
  : option Handle :=
  match cards with
  | [] => None
  | card :: rest =>
      if cardMatches d fileName card then Some card
      else findCardLoop d fileName rest
  end.

Definition findCardByFileName (d : Document) (container : Handle) (fileName : jsstring)
  : option Handle :=
  findCardLoop d fileName (querySelectorAll d container (ByClass (str "bases-cards-item"))).

Definition markerAttribute : jsstring := str "data-canvas-thumbnail".
Definition imagePathAttribute : jsstring := str "data-image-path".

(** [setCardThumbnail]: the new document and the console output. *)
Definition setCardThumbnail (adapter : DataAdapter) (imagePath : jsstring)
    (coverElement : Handle) (canvasPath : jsstring) (d : Document)
  : Document * list Event :=
  match adapter with
  | FileSystemAdapter getResourcePath =>
      let imageUrl := getResourcePath imagePath in
      let d := setBackgroundImage coverElement
                 (str "url('" ++ imageUrl ++ str "') !important") d in
      let d := setBackgroundSize coverElement (str "contain !important") d in
      let d := setBackgroundRepeat coverElement (str "no-repeat !important") d in
      let d := setBackgroundPosition coverElement (str "center !important") d in
      let d := setAttribute coverElement markerAttribute canvasPath d in
      let d := setAttribute coverElement imagePathAttribute imagePath d in
      (d, [LogThumbnailSet imageUrl])
  | OtherAdapter => (d, [ErrNoAdapter])
  end.

(** A value of [getAttribute] under [!]: [null] and the empty string are
    falsy. *)
Definition truthy (v : option jsstring) : bool :=
  match v with
  | Some (_ :: _) => true
  | _ => false
  end.

(** The state of the [forEach] in [addCardThumbnails]: the document, the
    local [updatedCount] and the console output so far. *)
Record Pass := {
  document : Document;
  updatedCount : nat;
  output : list Event;
}.

(** The callback of [data.forEach], for one entry of the map. *)
Definition forEachEntry (adapter : DataAdapter) (cardsContainer : Handle)
    (st : Pass) (entry : jsstring * jsstring) : Pass :=
  let '(canvasPath, imagePath) := entry in
  let canvasFileName := getFileNameFromPath canvasPath in
  match findCardByFileName (document st) cardsContainer canvasFileName with
  | Some cardElement =>
      match querySelector (document st) cardElement (ByClass (str "bases-cards-cover")) with
      | Some coverElement =>
          if negb (truthy (getAttribute (document st) coverElement markerAttribute)) then
            let '(d, out) :=
              setCardThumbnail adapter imagePath coverElement canvasPath (document st) in
            {| document := d;
               updatedCount := S (updatedCount st);
               output := output st ++ out ++ [LogCardSet canvasFileName imagePath] |}
          else st
      | None => st
      end
  | None =>
      {| document := document st;
         updatedCount := updatedCount st;
         output := output st ++ [LogNoCard canvasFileName] |}
  end.

(** [addCardThumbnails(plugin, data)]: the document after the call and what
    the call wrote to the console. *)
Definition addCardThumbnails (adapter : DataAdapter) (data : JSMap.t) (d : Document)
  : Document * list Event :=
  match documentQuerySelector d (ByClass (str "bases-cards-container")) with
  | None => (d, [LogStart (JSMap.size data); LogNoContainer])
  | Some cardsContainer =>
      let st := foldl (forEachEntry adapter cardsContainer)
                  {| document := d; updatedCount := 0;
                     output := [LogStart (JSMap.size data)] |} data in
      (document st, output st ++ [LogDone (updatedCount st)])
  end.

(** The body of the [forEach] in [clearAllThumbnails]. *)
Definition clearElement (d : Document) (element : Handle) : Document :=
  removeAttribute element imagePathAttribute
    (removeAttribute element markerAttribute
       (setBackgroundImage element [] d)).

(** [clearAllThumbnails()] *)
Definition clearAllThumbnails (d : Document) : Document * list Event :=
  let thumbnailElements := documentQuerySelectorAll d (HasAttribute markerAttribute) in
  (foldl clearElement d thumbnailElements, [LogCleared (length thumbnailElements)]).

End Utils.

Import Utils.

(** ** main.ts: the canvas scan *)

Module Scan.

Local Unset Elimination Schemes.

(** The values [JSON.parse] returns. A number is kept by its value; the
    scan only tests a number for being zero. *)
Inductive json :=
  | JNull
  | JBool (b : bool)
  | JNumber (q : Q)
  | JString (s : jsstring)
  | JArray (items : list json)
  | JObject (fields : list (jsstring * json)).

Local Set Elimination Schemes.

(** The outcome of a step that may throw. *)
Inductive Completion (A : Type) :=
  | Normal (a : A)
  | Throw.
Arguments Normal {A} a.
Arguments Throw {A}.

Fixpoint fieldGet (fields : list (jsstring * json)) (name : jsstring) : option json :=
  match fields with
  | [] => None
  | (k, v) :: r => if streq k name then Some v else fieldGet r name
  end.

(** [v.name] for one of the names [nodes], [type], [file]: a [TypeError] on
    [null], the field on an object, and [undefined] (here [None]) on
    every other value, none of which has a property of these names. *)
Definition getProp (v : json) (name : jsstring) : Completion (option json) :=
  match v with
  | JNull => Throw
  | JObject fields => Normal (fieldGet fields name)
  | _ => Normal None
  end.

(** Truthiness of a property value. *)
Definition truthy (v : option json) : bool :=
  match v with
  | None | Some JNull => false
  | Some (JBool b) => b
  | Some (JNumber q) => negb (Qeq_bool q 0)
  | Some (JString s) => negb (streq s [])
  | Some (JArray _) | Some (JObject _) => true
  end.

(** [v === 'file'] and the like *)
Definition isString (v : option json) (s : jsstring) : bool :=
  match v with
  | Some (JString t) => streq t s
  | _ => false
  end.

(** *** The vault *)

Record TFile := {
  path : jsstring;
  extension : jsstring;
}.

#[global] Instance TFile_eq_dec : EqDecision TFile.
Proof. solve_decision. Defined.

(** What [getAbstractFileByPath] resolves a path to: a file, or a folder,
    which has a path and no [extension]. *)
Inductive TAbstractFile :=
  | File (f : TFile)
  | Folder (folderPath : jsstring).

(** [this.app.vault], by the three methods the scan calls. [read] is
    [None] when the promise rejects. [getAbstractFileByPath] receives the
    value of [node.file] as the document holds it. *)
Record Vault := {
  getFiles : list TFile;
  read : TFile → option jsstring;
  getAbstractFileByPath : json → option TAbstractFile;
}.

Definition pictureExtensions : list jsstring :=
  str <$> ["jpg"; "jpeg"; "png"; "webp"; "bmp"; "svg"; "gif"; "ico"]%string.

(** [pictureExtensions.includes(s)] *)
Definition arrayIncludes (a : list jsstring) (s : jsstring) : bool :=
  bool_decide (s ∈ a).

(** The state the scan works on: the plugin's map and the console output. *)
Record ScanState := {
  canvasWithThumbnail : JSMap.t;
  scanOutput : list Event;
}.

Section scan.

Variable JSON_parse : jsstring → option json.   (* [None]: a [SyntaxError] *)
Variable vault : Vault.

(** The inner loop [for (const node of canvasData.nodes)]. *)
Fixpoint nodesLoop (canvasFile : TFile) (nodes : list json) (st : ScanState)
  : Completion ScanState :=
  match nodes with
  | [] => Normal st
  | node :: rest =>
      match getProp node (str "type") with
      | Throw => Throw
      | Normal type =>
          if isString type (str "file") then
            match getProp node (str "file") with
            | Throw => Throw
            | Normal file =>
                if truthy file then
                  match file ≫= getAbstractFileByPath vault with
                  | Some (File nodeFile) =>
                      if arrayIncludes pictureExtensions (toLowerCase (extension nodeFile))
                      then Normal
                             {| canvasWithThumbnail :=
                                  JSMap.set (canvasWithThumbnail st) (path canvasFile)
                                            (path nodeFile);
                                scanOutput :=
                                  scanOutput st ++ [LogFound (path canvasFile) (path nodeFile)] |}
                      else nodesLoop canvasFile rest st
                  | Some (Folder _) => Throw   (* [undefined.toLowerCase()] *)
                  | None => nodesLoop canvasFile rest st
                  end
                else nodesLoop canvasFile rest st
            end
          else nodesLoop canvasFile rest st
      end
  end.

(** The [try] block for one canvas file. *)
Definition tryCanvasFile (canvasFile : TFile) (st : ScanState) : Completion ScanState :=
  match read vault canvasFile with
  | None => Throw
  | Some canvasContent =>
      match JSON_parse canvasContent with
      | None => Throw
      | Some canvasData =>
          match getProp canvasData (str "nodes") with
          | Throw => Throw
          | Normal (Some (JArray nodes)) => nodesLoop canvasFile nodes st
          | Normal _ => Normal st
          end
      end
  end.

(** One turn of the outer loop: the [try] block and its [catch]. Nothing
    in the block changes the state before a point that can throw, so the
    handler starts from the state the turn started with. *)
Definition scanCanvasFile (st : ScanState) (canvasFile : TFile) : ScanState :=
  match tryCanvasFile canvasFile st with
  | Normal st' => st'
  | Throw =>
      {| canvasWithThumbnail := canvasWithThumbnail st;
         scanOutput := scanOutput st ++ [ErrCanvas (path canvasFile)] |}
  end.

Definition canvasFiles : list TFile :=
  filter (λ file, extension file = str "canvas") (getFiles vault).

(** The outer loop [for (const canvasFile of canvasFiles)]. *)
Definition scanLoop (files : list TFile) (st : ScanState) : ScanState :=
  foldl scanCanvasFile st files.

(** [scanCanvasFiles()], from the map the plugin holds to the map it holds
    afterwards, with the console output of the call. *)
Definition scanCanvasFiles (m : JSMap.t) : JSMap.t * list Event :=
  let st := scanLoop canvasFiles
              {| canvasWithThumbnail := JSMap.clear m; scanOutput := [LogScanStart] |} in
  (canvasWithThumbnail st,
   scanOutput st ++ [LogScanDone (JSMap.size (canvasWithThumbnail st))]).

End scan.

End Scan.

Import Scan.

(** ** main.ts: the plugin, its timers and its teardown *)

Module Plugin.

(** The function a timer runs when it fires. *)
Inductive Callback :=
  | RunUpdateCardThumbnails   (* armed by [scheduleUpdate] *)
  | RunAddCardThumbnails      (* armed by [updateCardThumbnails] *)
  | RunScanThenUpdate.        (* armed by [scheduleCanvasUpdate] *)

(** An entry of the event loop's timer table. Identifiers are positive,
    as the ones [setTimeout] returns in a window. *)
Record Timer := {
  timerId : nat;
  due : nat;               (* milliseconds *)
  callback : Callback;
}.

(** The plugin object together with the parts of its host that its methods
    read and write. The console keeps the time of each message. *)
Record World := {
  canvasWithThumbnail : JSMap.t;
  updateTimeout : option nat;
  cardObserver : option bool;       (* [Some b]: an observer, connected or not *)
  dom : Document;
  now : nat;                        (* milliseconds *)
  timers : list Timer;
  nextTimerId : nat;
  scansInFlight : nat;              (* scans started and not yet completed *)
  console : list (nat * Event);
}.

Definition setUpdateTimeout (id : option nat) (w : World) : World :=
  {| canvasWithThumbnail := canvasWithThumbnail w; updateTimeout := id;
     cardObserver := cardObserver w; dom := dom w; now := now w;
     timers := timers w; nextTimerId := nextTimerId w;
     scansInFlight := scansInFlight w; console := console w |}.

Definition setTimers (ts : list Timer) (next : nat) (w : World) : World :=
  {| canvasWithThumbnail := canvasWithThumbnail w; updateTimeout := updateTimeout w;
     cardObserver := cardObserver w; dom := dom w; now := now w;
     timers := ts; nextTimerId := next;
     scansInFlight := scansInFlight w; console := console w |}.

Definition setDom (d : Document) (w : World) : World :=
  {| canvasWithThumbnail := canvasWithThumbnail w; updateTimeout := updateTimeout w;
     cardObserver := cardObserver w; dom := d; now := now w;
     timers := timers w; nextTimerId := nextTimerId w;
     scansInFlight := scansInFlight w; console := console w |}.

Definition setMap (m : JSMap.t) (w : World) : World :=
  {| canvasWithThumbnail := m; updateTimeout := updateTimeout w;
     cardObserver := cardObserver w; dom := dom w; now := now w;
     timers := timers w; nextTimerId := nextTimerId w;
     scansInFlight := scansInFlight w; console := console w |}.

Definition setObserver (o : option bool) (w : World) : World :=
  {| canvasWithThumbnail := canvasWithThumbnail w; updateTimeout := updateTimeout w;
     cardObserver := o; dom := dom w; now := now w;
     timers := timers w; nextTimerId := nextTimerId w;
     scansInFlight := scansInFlight w; console := console w |}.

Definition setNow (t : nat) (w : World) : World :=
  {| canvasWithThumbnail := canvasWithThumbnail w; updateTimeout := updateTimeout w;
     cardObserver := cardObserver w; dom := dom w; now := t;
     timers := timers w; nextTimerId := nextTimerId w;
     scansInFlight := scansInFlight w; console := console w |}.

Definition setScansInFlight (n : nat) (w : World) : World :=
  {| canvasWithThumbnail := canvasWithThumbnail w; updateTimeout := updateTimeout w;
     cardObserver := cardObserver w; dom := dom w; now := now w;
     timers := timers w; nextTimerId := nextTimerId w;
     scansInFlight := n; console := console w |}.

(** [console.log] and [console.error], stamped with the time. *)
Definition write (out : list Event) (w : World) : World :=
  {| canvasWithThumbnail := canvasWithThumbnail w; updateTimeout := updateTimeout w;
     cardObserver := cardObserver w; dom := dom w; now := now w;
     timers := timers w; nextTimerId := nextTimerId w;
     scansInFlight := scansInFlight w;
     console := console w ++ ((λ e, (now w, e)) <$> out) |}.

(** [clearTimeout(id)]: the timer of that identifier, if any is pending,
    is dropped; [undefined] and identifiers of no pending timer do nothing. *)
Definition clearTimeout (id : option nat) (w : World) : World :=
  match id with
  | Some i => setTimers (filter (λ t, timerId t ≠ i) (timers w)) (nextTimerId w) w
  | None => w
  end.

(** [setTimeout(cb, delay)]: the identifier of the new timer and the world
    that holds it. *)
Definition setTimeout (cb : Callback) (delay : nat) (w : World) : nat * World :=
  let id := nextTimerId w in
  (id, setTimers (timers w ++ [{| timerId := id; due := now w + delay; callback := cb |}])
         (S id) w).

(** [this.updateTimeout = setTimeout(cb, delay)] after
    [clearTimeout(this.updateTimeout)]: the two statements the three
    arming methods share. *)
Definition rearm (cb : Callback) (delay : nat) (w : World) : World :=
  let w := clearTimeout (updateTimeout w) w in
  let '(id, w) := setTimeout cb delay w in
  setUpdateTimeout (Some id) w.

Definition updateCardThumbnails (w : World) : World := rearm RunAddCardThumbnails 200 w.

Definition scheduleUpdate (w : World) : World := rearm RunUpdateCardThumbnails 500 w.

Definition scheduleCanvasUpdate (w : World) : World := rearm RunScanThenUpdate 1000 w.

Section host.

Variable JSON_parse : jsstring → option json.
Variable vault : Vault.
Variable adapter : DataAdapter.

(** A scan runs over several turns of the event loop, one per file read.
    The model starts it in one step, which is what the scan does before
    its first [await]: it writes its opening message and clears the map.
    The rest is applied in one step when the scan completes: the map holds
    the entries of the scan, the messages the scan wrote after the opening
    one are in the console, and the statement after
    [await this.scanCanvasFiles()] in [initializeCards], in the timer of
    [scheduleCanvasUpdate] and in the refresh button runs. While a scan is
    in flight the map of the model is empty; the entries the scan has set
    so far are not in it. *)
Definition startScan (w : World) : World :=
  setScansInFlight (S (scansInFlight w))
    (setMap (JSMap.clear (canvasWithThumbnail w)) (write [LogScanStart] w)).

Definition completeScan (w : World) : World :=
  match scansInFlight w with
  | 0 => w
  | S n =>
      let '(m, out) := scanCanvasFiles JSON_parse vault (canvasWithThumbnail w) in
      updateCardThumbnails (write (tail out) (setMap m (setScansInFlight n w)))
  end.

(** What a timer does when it fires. *)
Definition runCallback (cb : Callback) (w : World) : World :=
  match cb with
  | RunUpdateCardThumbnails => updateCardThumbnails w
  | RunAddCardThumbnails =>
      let '(d, out) := addCardThumbnails adapter (canvasWithThumbnail w) (dom w) in
      write out (setDom d w)
  | RunScanThenUpdate => startScan w
  end.

(** Fire one timer of the table's snapshot, unless a callback that ran
    before it in the same turn cleared it. *)
Definition fire (w : World) (t : Timer) : World :=
  if bool_decide (timerId t ∈ timerId <$> timers w) then
    runCallback (callback t)
      (setTimers (filter (λ t', timerId t' ≠ timerId t) (timers w)) (nextTimerId w) w)
  else w.

(** One millisecond passes, then the timers that are due fire in the order
    they were armed. Every delay in the plugin is positive, so a callback
    arms no timer that is due within the same millisecond. *)
Definition tick (w : World) : World :=
  let w := setNow (S (now w)) w in
  foldl fire w (filter (λ t, due t ≤ now w) (timers w)).

Fixpoint elapse (ms : nat) (w : World) : World :=
  match ms with
  | 0 => w
  | S k => elapse k (tick w)
  end.

(** The loop body of the teardown in [onunload]; it leaves the
    [data-image-path] attribute in place. *)
Definition unloadElement (d : Document) (el : Handle) : Document :=
  removeAttribute el markerAttribute (setBackgroundImage el [] d).

(** [onunload()] *)
Definition onunload (w : World) : World :=
  let w := write [LogUnload] w in
  let w := match cardObserver w with
           | Some _ => setObserver (Some false) w
           | None => w
           end in
  let w := match updateTimeout w with
           | Some (S i) => clearTimeout (Some (S i)) w
           | _ => w      (* [undefined], or a falsy identifier *)
           end in
  setDom (foldl unloadElement (dom w)
            (documentQuerySelectorAll (dom w) (HasAttribute markerAttribute))) w.

(** What can happen to the plugin between load and unload. *)
Inductive Input :=
  | LayoutChange          (* [scheduleUpdate()], also from the observer *)
  | CanvasModified        (* [scheduleCanvasUpdate()] *)
  | InitializeOrRefresh   (* a scan is started outside a timer *)
  | ScanCompletes
  | Elapse (ms : nat)
  | Unload.               (* [onunload()] *)

Definition react (w : World) (i : Input) : World :=
  match i with
  | LayoutChange => scheduleUpdate w
  | CanvasModified => scheduleCanvasUpdate w
  | InitializeOrRefresh => startScan w
  | ScanCompletes => completeScan w
  | Elapse ms => elapse ms w
  | Unload => onunload w
  end.

(** The world of a plugin that was just constructed. *)
Definition initial (d : Document) : World :=
  {| canvasWithThumbnail := []; updateTimeout := None; cardObserver := None;
     dom := d; now := 0; timers := []; nextTimerId := 1; scansInFlight := 0;
     console := [] |}.

(** The plugin after a sequence of inputs. *)
Definition run (w : World) (inputs : list Input) : World := foldl react w inputs.

(** The times at which [addCardThumbnails] ran: it opens with [LogStart]. *)
Definition decoratePasses (w : World) : list nat :=
  omap (λ te, match te.2 with LogStart _ => Some te.1 | _ => None end) (console w).

End host.

End Plugin.

Import Plugin.

(** ** The notions the properties are stated with

    The definitions above follow the source. The ones below name what the
    properties speak about; [comparisonKey], [CardDisplays], [ImageNode]
    and [FirstImageNode] follow the wording of the specification, for
    comparison with what the source computes. *)

Module Spec.

(** The final segment of a path: what follows its last slash. *)
Definition finalSegment (filePath : jsstring) : jsstring :=
  default [] (last (split slash filePath)).

(** [s] without the suffix [suffix], when it ends with it. *)
Definition stripSuffix (suffix s : jsstring) : jsstring :=
  if startsWith (reverse suffix) (reverse s)
  then take (length s - length suffix) s
  else s.

(** The comparison key as the specification words it: the final path
    segment with the canvas-type suffix stripped. *)
Definition comparisonKey (canvasPath : jsstring) : jsstring :=
  stripSuffix (str ".canvas") (finalSegment canvasPath).

(** [key] occurs in [text]. *)
Definition Occurs (key text : jsstring) : Prop :=
  ∃ pre post, text = pre ++ key ++ post.

(** White space and line terminators, by their code units: tab, line
    feed, vertical tab, form feed, carriage return, space, no-break space,
    the space separators and the byte order mark. *)
Definition WhiteSpace (c : N) : Prop :=
  c ∈ [9; 10; 11; 12; 13; 32; 160; 5760; 8232; 8233; 8239; 8287; 12288; 65279]%N
  ∨ (8192 ≤ c ∧ c ≤ 8202)%N.

(** The string has no white space at either end. *)
Definition NoSpaceAtEnds (s : jsstring) : Prop :=
  (∀ c, head s = Some c → ¬ WhiteSpace c) ∧ (∀ c, last s = Some c → ¬ WhiteSpace c).

(** [text] is [raw] without the white space at its two ends. *)
Definition Trimmed (raw text : jsstring) : Prop :=
  ∃ pre post, raw = pre ++ text ++ post ∧
              Forall WhiteSpace pre ∧ Forall WhiteSpace post ∧ NoSpaceAtEnds text.

(** The element has the attribute [data-property] with the value
    [file.name]. *)
Definition IsNameElement (d : Document) (el : Handle) : Prop :=
  ∃ n, d !! el = Some n ∧ isElement n = true ∧
       attrGet (attributes n) (str "data-property") = Some (str "file.name").

(** The file-name element of a card: the first such element under it, in
    document order. *)
Definition NameElement (d : Document) (card el : Handle) : Prop :=
  ∃ pos, descendants d card !! pos = Some el ∧ IsNameElement d el ∧
         ∀ q e, q < pos → descendants d card !! q = Some e → ¬ IsNameElement d e.

(** The text nodes under an element, in document order. *)
Definition textNodesUnder (d : Document) (el : Handle) : list Node :=
  omap (λ i, n ← d !! i; if isElement n then None else Some n) (descendants d el).

(** The file-name display text of a card, as the document holds it: the
    text under its file-name element. *)
Definition DisplayText (d : Document) (card : Handle) (raw : jsstring) : Prop :=
  ∃ el, NameElement d card el ∧ raw = concat (data <$> textNodesUnder d el).

(** The specification's words: the file-name display text of the card
    equals or contains the key. *)
Definition CardDisplays (d : Document) (key : jsstring) (card : Handle) : Prop :=
  ∃ raw, DisplayText d card raw ∧ (raw = key ∨ Occurs key raw).

(** The same of the display text without the white space at its ends, the
    key being taken as it is. *)
Definition CardShows (d : Document) (key : jsstring) (card : Handle) : Prop :=
  ∃ raw text, DisplayText d card raw ∧ Trimmed raw text ∧
              (text = key ∨ Occurs key text).

(** The card elements of the container, in document order. *)
Definition cardsOf (d : Document) (container : Handle) : list Handle :=
  querySelectorAll d container (ByClass (str "bases-cards-item")).

(** The card has a file-name display element at all. *)
Definition hasNameElement (d : Document) (card : Handle) : Prop :=
  is_Some (querySelector d card (AttributeIs (str "data-property") (str "file.name"))).

(** The cover element [addCardThumbnails] looks at for a canvas path: the
    cover of the card found for the path's key. *)
Definition coverFor (d : Document) (container : Handle) (canvasPath : jsstring)
  : option Handle :=
  card ← findCardByFileName d container (getFileNameFromPath canvasPath);
  querySelector d card (ByClass (str "bases-cards-cover")).

(** The element carries the marker attribute. *)
Definition carriesMarker (d : Document) (el : Handle) : Prop :=
  is_Some (getAttribute d el markerAttribute).

(** [el.style.backgroundImage] *)
Definition backgroundImageOf (d : Document) (el : Handle) : option jsstring :=
  (λ n, backgroundImage (style n)) <$> d !! el.

(** What [clearAllThumbnails] does to one element, and what [onunload] does. *)
Definition clearNode (n : Node) : Node :=
  withAttributes
    (withStyle n
       {| backgroundImage := []; backgroundSize := backgroundSize (style n);
          backgroundRepeat := backgroundRepeat (style n);
          backgroundPosition := backgroundPosition (style n) |})
    (attrRemove (attrRemove (attributes n) markerAttribute) imagePathAttribute).

Definition unloadNode (n : Node) : Node :=
  withAttributes
    (withStyle n
       {| backgroundImage := []; backgroundSize := backgroundSize (style n);
          backgroundRepeat := backgroundRepeat (style n);
          backgroundPosition := backgroundPosition (style n) |})
    (attrRemove (attributes n) markerAttribute).

(** The console message of a decoration: [setCardThumbnail] writes it
    after its style assignments and after it has set the two attributes,
    and only then. *)
Definition isDecoration (e : Event) : bool :=
  match e with
  | LogThumbnailSet _ => true
  | _ => false
  end.

(** The number of decorations a call performed, by its console output. *)
Definition decorations (out : list Event) : nat :=
  length (filter (λ e, isDecoration e = true) out).

(** The count a call of [addCardThumbnails] reported. *)
Definition reportedCount (out : list Event) : option nat :=
  last (omap (λ e, match e with LogDone n => Some n | _ => None end) out).

(** The guard of [addCardThumbnails]: the marker is present and not empty. *)
Definition marked (d : Document) (el : Handle) : bool :=
  Utils.truthy (getAttribute d el markerAttribute).

(** Two nodes that differ at most in their style and in attributes other
    than [data-property]: card lookup cannot tell them apart. *)
Definition sameNode (n n' : Node) : Prop :=
  depth n = depth n' ∧ isElement n = isElement n' ∧ classList n = classList n' ∧
  data n = data n' ∧
  attrGet (attributes n) (str "data-property") = attrGet (attributes n') (str "data-property").

Definition sameCards (d d' : Document) : Prop := Forall2 sameNode d d'.

Section scanWords.

Variable JSON_parse : jsstring → option json.
Variable vault : Vault.

(** A node of type [file] whose referenced file exists in the vault and
    has a picture extension, compared without regard to case. A reference
    is a value of the node's [file] field that is not falsy. *)
Definition ImageNode (node : json) (f : TFile) : Prop :=
  ∃ fields file,
    node = JObject fields ∧
    fieldGet fields (str "type") = Some (JString (str "file")) ∧
    fieldGet fields (str "file") = Some file ∧
    Scan.truthy (Some file) = true ∧
    getAbstractFileByPath vault file = Some (File f) ∧
    toLowerCase (extension f) ∈ pictureExtensions.

(** An element of the node array at which the scan of its document throws:
    [null], or a node of type [file] whose reference resolves to a folder. *)
Definition ThrowingNode (node : json) : Prop :=
  node = JNull ∨
  ∃ fields file folderPath,
    node = JObject fields ∧
    fieldGet fields (str "type") = Some (JString (str "file")) ∧
    fieldGet fields (str "file") = Some file ∧
    Scan.truthy (Some file) = true ∧
    getAbstractFileByPath vault file = Some (Folder folderPath).

(** The document reads and parses as JSON, to an object whose [nodes] is
    the array [nodes]. *)
Definition HasNodes (canvasFile : TFile) (nodes : list json) : Prop :=
  ∃ content fields,
    read vault canvasFile = Some content ∧
    JSON_parse content = Some (JObject fields) ∧
    fieldGet fields (str "nodes") = Some (JArray nodes).

(** [f] is the file of the first image node of [nodes], in list order. *)
Definition FirstImageNode (nodes : list json) (f : TFile) : Prop :=
  ∃ i node,
    nodes !! i = Some node ∧ ImageNode node f ∧
    ∀ j earlier, j < i → nodes !! j = Some earlier → ∀ g, ¬ ImageNode earlier g.

(** No element of [nodes] before position [i] makes the scan throw. *)
Definition NoThrowBefore (nodes : list json) (i : nat) : Prop :=
  ∀ j earlier, j < i → nodes !! j = Some earlier → ¬ ThrowingNode earlier.

(** The first image node of [nodes] is reached: it exists, and no element
    before it makes the scan throw. *)
Definition ReachedImage (nodes : list json) (f : TFile) : Prop :=
  ∃ i node,
    nodes !! i = Some node ∧ ImageNode node f ∧
    (∀ j earlier, j < i → nodes !! j = Some earlier → ∀ g, ¬ ImageNode earlier g) ∧
    NoThrowBefore nodes i.

(** The document has the thumbnail [f]: it has a node array whose first
    image node is reached and refers to [f]. *)
Definition Thumbnail (canvasFile f : TFile) : Prop :=
  ∃ nodes, HasNodes canvasFile nodes ∧ ReachedImage nodes f.

(** Reading the document fails, or its content does not parse as JSON. *)
Definition ReadOrParseFails (canvasFile : TFile) : Prop :=
  read vault canvasFile = None ∨
  ∃ content, read vault canvasFile = Some content ∧ JSON_parse content = None.

End scanWords.

(** The state after the scan has found the thumbnail [f] of [c]. *)
Definition found (c f : TFile) (st : ScanState) : ScanState :=
  {| Scan.canvasWithThumbnail :=
       JSMap.set (Scan.canvasWithThumbnail st) (path c) (path f);
     scanOutput := scanOutput st ++ [LogFound (path c) (path f)] |}.

(** The state after the handler of the [try] block has run for [c]. *)
Definition failed (c : TFile) (st : ScanState) : ScanState :=
  {| Scan.canvasWithThumbnail := Scan.canvasWithThumbnail st;
     scanOutput := scanOutput st ++ [ErrCanvas (path c)] |}.

(** At most one timer is pending, and [this.updateTimeout] holds its
    identifier. *)
Definition PendingOk (w : World) : Prop :=
  match timers w with
  | [] => True
  | [t] => updateTimeout w = Some (timerId t)
  | _ => False
  end.

(** Calls of [scheduleUpdate()], each [gap] milliseconds after the one
    before, with nothing else happening in between. *)
Fixpoint burst (gaps : list nat) : list Input :=
  match gaps with
  | [] => [LayoutChange]
  | gap :: gaps => LayoutChange :: Elapse gap :: burst gaps
  end.

End Spec.

Import Spec.

(** ** A cards view and a vault to try the definitions on *)

Module Demo.

Definition noStyle : Style :=
  {| backgroundImage := []; backgroundSize := []; backgroundRepeat := [];
     backgroundPosition := [] |}.

Definition element (depth : nat) (classes : list string) (attrs : list (string * string))
  : Node :=
  {| depth := depth; isElement := true; classList := str <$> classes;
     attributes := (λ kv, (str kv.1, str kv.2)) <$> attrs;
     style := noStyle; data := [] |}.

Definition text (depth : nat) (s : string) : Node :=
  {| depth := depth; isElement := false; classList := []; attributes := [];
     style := noStyle; data := str s |}.

(** A container (handle 0) with a card named Alpha (handle 1, cover 2) and
    a card named Beta (handle 5, cover 6). *)
Definition cardsView : Document :=
  [ element 0 ["bases-cards-container"] [];
    element 1 ["bases-cards-item"] [];
    element 2 ["bases-cards-cover"] [];
    element 2 [] [("data-property", "file.name")];
    text 3 " Alpha ";
    element 1 ["bases-cards-item"] [];
    element 2 ["bases-cards-cover"] [];
    element 2 [] [("data-property", "file.name")];
    text 3 "Beta" ]%string.

Definition resourcePath (p : jsstring) : jsstring := str "app://local/" ++ p.

Definition desktop : DataAdapter := FileSystemAdapter resourcePath.

Definition thumbnails : JSMap.t :=
  [(str "Projects/Alpha.canvas", str "Projects/cover.png")].

(** The cards view after the thumbnails were applied on the desktop. *)
Definition decorated : Document := (addCardThumbnails desktop thumbnails cardsView).1.

(** A canvas path whose final segment is the suffix alone. *)
Definition suffixOnly : jsstring := str "Projects/.canvas".

Definition file (p ext : string) : TFile := {| path := str p; extension := str ext |}.

Definition alphaCanvas : TFile := file "Projects/Alpha.canvas" "canvas".
Definition brokenCanvas : TFile := file "Projects/Broken.canvas" "canvas".
Definition nullCanvas : TFile := file "Projects/Null.canvas" "canvas".
Definition folderCanvas : TFile := file "Projects/Folder.canvas" "canvas".
Definition pdfCanvas : TFile := file "Projects/Pdf.canvas" "canvas".
Definition coverPng : TFile := file "Projects/cover.png" "png".
Definition photoJpg : TFile := file "Projects/Photo.JPG" "JPG".
Definition otherPdf : TFile := file "Projects/other.pdf" "pdf".

Definition files : list TFile :=
  [alphaCanvas; coverPng; brokenCanvas; otherPdf; nullCanvas; folderCanvas;
   photoJpg; pdfCanvas].

Definition fileNode (p : string) : json :=
  JObject [(str "type", JString (str "file")); (str "file", JString (str p))].

Definition textNode : json := JObject [(str "type", JString (str "text"))].

Definition canvasOf (nodes : list json) : json := JObject [(str "nodes", JArray nodes)].

(** The content of each canvas file, by a short name, and what [JSON.parse]
    returns for it; the content of the broken file does not parse. *)
Definition contentOf (f : TFile) : option jsstring :=
  if streq (path f) (path alphaCanvas) then Some (str "alpha")
  else if streq (path f) (path brokenCanvas) then Some (str "broken")
  else if streq (path f) (path nullCanvas) then Some (str "null first")
  else if streq (path f) (path folderCanvas) then Some (str "folder first")
  else if streq (path f) (path pdfCanvas) then Some (str "pdf only")
  else None.

Definition parse (content : jsstring) : option json :=
  if streq content (str "alpha")
  then Some (canvasOf [fileNode "Projects/cover.png"; fileNode "Projects/other.pdf"])
  else if streq content (str "null first")
  then Some (canvasOf [JNull; fileNode "Projects/cover.png"])
  else if streq content (str "folder first")
  then Some (canvasOf [fileNode "Projects"; fileNode "Projects/Photo.JPG"])
  else if streq content (str "pdf only")
  then Some (canvasOf [textNode; fileNode "Projects/other.pdf"])
  else None.

Definition resolve (v : json) : option TAbstractFile :=
  match v with
  | JString p =>
      if streq p (str "Projects") then Some (Folder p)
      else File <$> head (filter (λ f, path f = p) files)
  | _ => None
  end.

Definition vault : Vault :=
  {| getFiles := files; read := contentOf; getAbstractFileByPath := resolve |}.

End Demo.

(** ** utils.ts: the statistics *)

Module Stats.

Record ThumbnailStats := {
  total : nat;
  paths : list jsstring;
}.

(** [getThumbnailStats()]: the number of elements that carry the marker
    attribute, and the values of the marker that are not empty, in document
    order. *)
Definition getThumbnailStats (d : Document) : ThumbnailStats :=
  let thumbnailElements := documentQuerySelectorAll d (HasAttribute markerAttribute) in
  {| total := length thumbnailElements;
     paths := omap (λ element,
                match getAttribute d element markerAttribute with
                | Some (c :: canvasPath) => Some (c :: canvasPath)
                | _ => None
                end) thumbnailElements |}.

End Stats.

Import Stats.

(** ** More notions the properties are stated with *)

Module Notions.

(** What [setCardThumbnail] makes of a cover element when the file-system
    adapter is there: the two attributes are set, and the style is what it
    was, each of the four assignments being one of a text with a
    priority. *)
Definition decoratedNode (imagePath canvasPath : jsstring) (n : Node) : Node :=
  withAttributes n
    (attrSet (attrSet (attributes n) markerAttribute canvasPath)
       imagePathAttribute imagePath).

(** A resource URL without a quote, a backslash or a line break: between
    the quotes of [url('...')] it is one string, and the [!important] that
    follows the closing parenthesis is a priority. *)
Definition PlainUrl (imageUrl : jsstring) : Prop :=
  Forall (λ c, c ∉ [39%N; 92%N; 10%N; 12%N; 13%N]) imageUrl.

(** The inline style of an element. *)
Definition styleOf (d : Document) (el : Handle) : option Style := style <$> d !! el.

(** The element is a cover that [addCardThumbnails] would decorate if an
    entry of the map led to it: it has the cover class and carries no
    marker, or an empty one. *)
Definition unmarkedCover (d : Document) (el : Handle) : bool :=
  matchesAt d (ByClass (str "bases-cards-cover")) el && negb (marked d el).

(** The canvas paths of a map, in the order of [forEach]. *)
Definition keys (data : JSMap.t) : list jsstring := data.*1.

(** The element carries the marker attribute with the value [p]. *)
Definition carries (d : Document) (el : Handle) (p : jsstring) : Prop :=
  matchesAt d (HasAttribute markerAttribute) el = true ∧
  getAttribute d el markerAttribute = Some p.

(** No element carries an empty marker. *)
Definition WellMarked (d : Document) : Prop :=
  ∀ el, matchesAt d (HasAttribute markerAttribute) el = true → marked d el = true.

(** A node of type [file] whose reference resolves to a folder of the
    vault. *)
Definition FolderNode (vault : Vault) (node : json) : Prop :=
  ∃ fields file folderPath,
    node = JObject fields ∧
    fieldGet fields (str "type") = Some (JString (str "file")) ∧
    fieldGet fields (str "file") = Some file ∧
    Scan.truthy (Some file) = true ∧
    getAbstractFileByPath vault file = Some (Folder folderPath).

(** The call that took the document from [d] to [d'] changed the marker
    attribute of the element. *)
Definition markerChanged (d d' : Document) (el : Handle) : Prop :=
  getAttribute d' el markerAttribute ≠ getAttribute d el markerAttribute.

#[global] Instance markerChanged_dec d d' el : Decision (markerChanged d d' el).
Proof. unfold markerChanged. apply _. Defined.

(** The elements whose marker attribute the call changed, in document
    order. *)
Definition newlyMarked (d d' : Document) : list Handle :=
  filter (markerChanged d d') (seq 0 (length d)).

(** What a pass that started on [d0] with the count [count0] keeps true
    of its state: the count has grown by the number of elements whose
    marker differs from the one in [d0], and each of them carries a
    non-empty marker. *)
Definition Counted (d0 : Document) (count0 : nat) (st : Pass) : Prop :=
  length (document st) = length d0 ∧
  updatedCount st = count0 + length (newlyMarked d0 (document st)) ∧
  ∀ el, markerChanged d0 (document st) el → marked (document st) el = true.

End Notions.

Import Notions.

(** ** main.ts: the handlers of host events *)

Module Handlers.

(** The handler of the vault's [modify] event:
    [if (file instanceof TFile && file.extension === 'canvas')
       this.scheduleCanvasUpdate()]. *)
Definition onModify (w : World) (file : TAbstractFile) : World :=
  match file with
  | File f =>
      if bool_decide (extension f = str "canvas") then scheduleCanvasUpdate w else w
  | Folder _ => w
  end.

Inductive MutationType := ChildList | AttributesChanged | CharacterData.

(** A mutation record, by what the callback reads of it. An added node is
    given by the subtree under it, in document order, the node itself
    first. *)
Record MutationRecord := {
  mutationType : MutationType;
  addedNodes : list Document;
}.

(** The body of the inner [forEach]: the flag after one added node. *)
Definition visitAddedNode (needsUpdate : bool) (node : Document) : bool :=
  match node !! 0 with
  | Some element =>
      if isElement element
         && (bool_decide (str "bases-cards-item" ∈ classList element)
             || bool_decide (is_Some (querySelector node 0
                                        (ByClass (str "bases-cards-item")))))
      then true
      else needsUpdate
  | None => needsUpdate
  end.

(** The body of the outer [forEach]: the flag after one mutation record. *)
Definition visitMutation (needsUpdate : bool) (mutation : MutationRecord) : bool :=
  match mutationType mutation with
  | ChildList => foldl visitAddedNode needsUpdate (addedNodes mutation)
  | _ => needsUpdate
  end.

(** The callback of the [MutationObserver] of [setupCardObserver]. *)
Definition observerCallback (w : World) (mutations : list MutationRecord) : World :=
  if foldl visitMutation false mutations then scheduleUpdate w else w.

End Handlers.

Import Handlers.

(** ** Bursts of arming events *)

Module Arming.

(** The two host events that arm a timer. *)
Inductive Arm := ArmUpdate | ArmCanvas.

Definition inputOf (a : Arm) : Input :=
  match a with
  | ArmUpdate => LayoutChange
  | ArmCanvas => CanvasModified
  end.

(** The delay and the callback of the timer each of them arms. *)
Definition delayOf (a : Arm) : nat :=
  match a with
  | ArmUpdate => 500
  | ArmCanvas => 1000
  end.

Definition callbackOf (a : Arm) : Callback :=
  match a with
  | ArmUpdate => RunUpdateCardThumbnails
  | ArmCanvas => RunScanThenUpdate
  end.

(** Arming events, each followed by a gap of so many milliseconds, and a
    last one. *)
Fixpoint mixedBurst (earlier : list (Arm * nat)) (last : Arm) : list Input :=
  match earlier with
  | [] => [inputOf last]
  | (a, gap) :: earlier => inputOf a :: Elapse gap :: mixedBurst earlier last
  end.

(** The node, given by its subtree, is a card element or holds one. *)
Definition AddsCard (node : Document) : Prop :=
  ∃ element, node !! 0 = Some element ∧ isElement element = true ∧
    (str "bases-cards-item" ∈ classList element ∨
     ∃ i, i ∈ descendants node 0 ∧
          matchesAt node (ByClass (str "bases-cards-item")) i = true).

(** Some record of the batch is a child-list mutation that added a card. *)
Definition BatchAddsCard (mutations : list MutationRecord) : Prop :=
  ∃ mutation node, mutation ∈ mutations ∧ mutationType mutation = ChildList ∧
                   node ∈ addedNodes mutation ∧ AddsCard node.

(** The file is a canvas document. *)
Definition IsCanvas (file : TAbstractFile) : Prop :=
  ∃ f, file = File f ∧ extension f = str "canvas".

(** The state after a rescan was armed at the moment of [w], whatever
    number of times. *)
Definition RescanArmed (w w' : World) : Prop :=
  ∃ id next,
    w' = {| Plugin.canvasWithThumbnail := Plugin.canvasWithThumbnail w;
            updateTimeout := Some id;
            cardObserver := cardObserver w; dom := dom w; now := now w;
            timers := [{| timerId := id; due := now w + 1000;
                          callback := RunScanThenUpdate |}];
            nextTimerId := next;
            scansInFlight := scansInFlight w; console := console w |}.

End Arming.

Import Arming.

(** ** The mutation observers *)

Module Observers.

(** The observers the plugin has created, in the order of their creation,
    each by whether it is observing; the field [this.cardObserver], by the
    index of the observer it refers to; the setting [enableRealTimeUpdate];
    and whether the workspace has a container element. *)
Record Registry := {
  observers : list bool;
  cardObserver : option nat;
  enableRealTimeUpdate : bool;
  containerEl : bool;
}.

(** [if (this.cardObserver) this.cardObserver.disconnect()] *)
Definition disconnectCurrent (r : Registry) : Registry :=
  match cardObserver r with
  | Some i =>
      {| observers := <[i := false]> (observers r); cardObserver := cardObserver r;
         enableRealTimeUpdate := enableRealTimeUpdate r; containerEl := containerEl r |}
  | None => r
  end.

(** [setupCardObserver()]: the old observer is disconnected, a new one is
    created and stored, and it observes the container if there is one. *)
Definition setupCardObserver (r : Registry) : Registry :=
  let r := disconnectCurrent r in
  {| observers := observers r ++ [containerEl r];
     cardObserver := Some (length (observers r));
     enableRealTimeUpdate := enableRealTimeUpdate r; containerEl := containerEl r |}.

(** The places of the plugin that touch the observers. The handler of the
    toggle runs in two turns, before and after [await saveSettings()]. *)
Inductive Op :=
  | InitializeCardsContinues   (* [initializeCards] after its scan *)
  | ToggleChanged (value : bool)
  | ToggleSaved (value : bool)
  | Unload.

Definition step (r : Registry) (op : Op) : Registry :=
  match op with
  | InitializeCardsContinues =>
      if enableRealTimeUpdate r then setupCardObserver r else r
  | ToggleChanged value =>
      {| observers := observers r; cardObserver := cardObserver r;
         enableRealTimeUpdate := value; containerEl := containerEl r |}
  | ToggleSaved value =>
      if value then setupCardObserver r else disconnectCurrent r
  | Unload => disconnectCurrent r
  end.

(** The plugin once [loadSettings] has run. *)
Definition loaded (enabled container : bool) : Registry :=
  {| observers := []; cardObserver := None;
     enableRealTimeUpdate := enabled; containerEl := container |}.

Definition run (r : Registry) (ops : list Op) : Registry := foldl step r ops.

(** An observing observer is the one the field refers to, and the field
    refers to an observer that was created. *)
Definition CurrentOnly (r : Registry) : Prop :=
  (∀ i, observers r !! i = Some true → cardObserver r = Some i) ∧
  (∀ i, cardObserver r = Some i → i < length (observers r)).

End Observers.

(** ** More inputs to try the definitions on *)

Module Demo2.

(** Two canvases of the same file name in different folders: both lead to
    the card named Alpha. *)
Definition twoAlphas : JSMap.t :=
  [(str "Projects/Alpha.canvas", str "Projects/cover.png");
   (str "Archive/Alpha.canvas", str "Archive/old.png")].

(** A container (handle 0) with one card (handle 1, cover 2) whose
    file-name element (handle 3) displays the name of a file that starts
    with a space. *)
Definition spacedView : Document :=
  [ Demo.element 0 ["bases-cards-container"] [];
    Demo.element 1 ["bases-cards-item"] [];
    Demo.element 2 ["bases-cards-cover"] [];
    Demo.element 2 [] [("data-property", "file.name")];
    Demo.text 3 " Alpha" ]%string.

End Demo2.

(** * Properties *)

(** ** Strings *)

Section strings.

Implicit Types s t p : jsstring.

Lemma streq_true s t : streq s t = true ↔ s = t.
Proof. unfold streq. apply bool_decide_eq_true. Qed.

Lemma streq_refl s : streq s s = true.
Proof. by apply streq_true. Qed.

Lemma streq_false s t : streq s t = false ↔ s ≠ t.
Proof. unfold streq. apply bool_decide_eq_false. Qed.

Lemma streq_sym s t : streq s t = streq t s.
Proof. unfold streq. apply bool_decide_ext. split; congruence. Qed.

Lemma startsWith_spec p s : startsWith p s = true ↔ ∃ r, s = p ++ r.
Proof.
  revert s. induction p as [|a p IH]; intros s; simpl.
  - split; [intros _; by exists s | done].
  - destruct s as [|b s].
    + split; [done | intros [r Hr]; discriminate].
    + rewrite andb_true_iff, N.eqb_eq, IH. split.
      * intros [-> [r ->]]. by exists r.
      * intros [r Hr]. injection Hr as -> ->. eauto.
Qed.

Lemma includes_spec s t : includes s t = true ↔ ∃ pre post, s = pre ++ t ++ post.
Proof.
  induction s as [|c s IH].
  - cbn [includes]. rewrite orb_false_r, startsWith_spec. split.
    + intros [r Hr]. by exists [], r.
    + intros (pre & post & H). destruct pre; [by exists post|discriminate].
  - cbn [includes]. rewrite orb_true_iff, startsWith_spec, IH. split.
    + intros [[r Hr] | (pre & post & ->)].
      * by exists [], r.
      * by exists (c :: pre), post.
    + intros (pre & post & H). destruct pre as [|c' pre].
      * left. by exists post.
      * right. injection H as -> ->. by exists pre, post.
Qed.

Lemma includes_empty s : includes s [] = true.
Proof. apply includes_spec. by exists [], s. Qed.

End strings.

(** ** The comparison key *)

(** C5. [getFileNameFromPath] removes the first occurrence of [.canvas] in
    the final segment, which is the suffix only when the segment holds no
    earlier one: for [Projects/Alpha.canvas] the key is [Alpha], as the
    specification's wording gives, while for [my.canvases.canvas] the code
    returns [myes.canvas] where the final segment without its suffix is
    [my.canvases]. *)
Theorem getFileNameFromPath_first_occurrence :
  getFileNameFromPath (str "Projects/Alpha.canvas") = str "Alpha" ∧
  comparisonKey (str "Projects/Alpha.canvas") = str "Alpha" ∧
  getFileNameFromPath (str "my.canvases.canvas") = str "myes.canvas" ∧
  comparisonKey (str "my.canvases.canvas") = str "my.canvases".
Proof. repeat split; reflexivity. Qed.

(** ** Card lookup *)

Section trimming.

Local Open Scope N_scope.

Lemma isWhiteSpace_spec c : isWhiteSpace c = true ↔ WhiteSpace c.
Proof.
  unfold isWhiteSpace, WhiteSpace.
  by rewrite orb_true_iff, bool_decide_eq_true, andb_true_iff, !N.leb_le.
Qed.

Lemma isWhiteSpace_Forall s :
  Forall (λ c, isWhiteSpace c = true) s ↔ Forall WhiteSpace s.
Proof. apply Forall_proper; [|done]. intros c. apply isWhiteSpace_spec. Qed.

Lemma dropWhile_app_all {A} (f : A → bool) pre s :
  Forall (λ c, f c = true) pre → dropWhile f (pre ++ s) = dropWhile f s.
Proof. induction 1 as [|c pre Hc _ IH]; [done|]. cbn. by rewrite Hc. Qed.

Lemma dropWhile_all {A} (f : A → bool) s :
  Forall (λ c, f c = true) s → dropWhile f s = [].
Proof. induction 1 as [|c s Hc _ IH]; [done|]. cbn. by rewrite Hc. Qed.

Lemma dropWhile_head {A} (f : A → bool) s :
  (∀ c, head s = Some c → f c = false) → dropWhile f s = s.
Proof. destruct s as [|c s]; [done|]. intros H. cbn. by rewrite (H c). Qed.

Lemma dropWhile_split {A} (f : A → bool) s :
  ∃ pre, s = pre ++ dropWhile f s ∧ Forall (λ c, f c = true) pre ∧
         ∀ c, head (dropWhile f s) = Some c → f c = false.
Proof.
  induction s as [|c s (pre & Hs & Hpre & Hhead)].
  - exists []. by repeat split.
  - cbn [dropWhile]. destruct (f c) eqn:Hc.
    + exists (c :: pre). split; [cbn; by f_equal|]. split; [by constructor | done].
    + exists []. split; [done|]. split; [done|]. by intros c' [= <-].
Qed.

Lemma NoSpaceAtEnds_head s c : NoSpaceAtEnds s → head s = Some c → isWhiteSpace c = false.
Proof.
  intros [H _] Hc. apply not_true_is_false. rewrite isWhiteSpace_spec. by apply H.
Qed.

Lemma NoSpaceAtEnds_last s c : NoSpaceAtEnds s → last s = Some c → isWhiteSpace c = false.
Proof.
  intros [_ H] Hc. apply not_true_is_false. rewrite isWhiteSpace_spec. by apply H.
Qed.

(** [trim] gives the string without the white space at its ends, and
    nothing else does. *)
Lemma Trimmed_trim raw text : Trimmed raw text ↔ text = trim raw.
Proof.
  unfold trim. split.
  - intros (pre & post & -> & Hpre & Hpost & Hends).
    apply isWhiteSpace_Forall in Hpre, Hpost.
    rewrite dropWhile_app_all by done.
    destruct text as [|c text].
    + cbn [app]. by rewrite (dropWhile_all _ post) by done.
    + rewrite (dropWhile_head _ ((c :: text) ++ post))
        by (intros c' [= <-]; by apply (NoSpaceAtEnds_head (c :: text))).
      rewrite reverse_app, dropWhile_app_all by by apply Forall_reverse.
      rewrite dropWhile_head, reverse_involutive; [done|].
      intros c'. rewrite head_reverse. by apply NoSpaceAtEnds_last.
  - intros ->.
    destruct (dropWhile_split isWhiteSpace raw) as (pre & Hraw & Hpre & Hhead).
    destruct (dropWhile_split isWhiteSpace (reverse (dropWhile isWhiteSpace raw)))
      as (post & Hrev & Hpost & Hlast).
    set (inner := dropWhile isWhiteSpace (reverse (dropWhile isWhiteSpace raw))) in *.
    assert (dropWhile isWhiteSpace raw = reverse inner ++ reverse post) as Hmid
      by by rewrite <- reverse_app, <- Hrev, reverse_involutive.
    exists pre, (reverse post). split; [by rewrite <- Hmid|].
    split; [by apply isWhiteSpace_Forall|].
    split; [by apply isWhiteSpace_Forall, Forall_reverse|]. split.
    + intros c Hc Hw. apply isWhiteSpace_spec in Hw.
      rewrite (Hhead c) in Hw; [done|]. rewrite Hmid, head_app. by rewrite Hc.
    + intros c Hc Hw. apply isWhiteSpace_spec in Hw. rewrite last_reverse in Hc.
      by rewrite (Hlast c Hc) in Hw.
Qed.

Lemma Trimmed_length raw text :
  Trimmed raw text → ¬ NoSpaceAtEnds raw → (length text < length raw)%nat.
Proof.
  intros (pre & post & -> & _ & _ & Hends) Hraw. rewrite !length_app.
  destruct pre as [|c pre]; [|cbn; lia].
  destruct post as [|c post]; [|cbn; lia].
  destruct Hraw. by rewrite app_nil_r.
Qed.

Lemma white_prefix pre s a c r :
  pre ++ s = a ++ c :: r → Forall WhiteSpace pre → ¬ WhiteSpace c →
  ∃ a', a = pre ++ a' ∧ s = a' ++ c :: r.
Proof.
  intros Heq Hpre Hc.
  apply app_eq_inv in Heq as [(k & -> & Hk) | (k & -> & ->)]; [|by exists k].
  destruct k as [|c' k].
  - exists []. by rewrite !app_nil_r.
  - injection Hk as <- _. apply Forall_app in Hpre as [_ Hpre].
    by apply Forall_inv in Hpre.
Qed.

Lemma white_suffix post s x b z :
  s ++ post = x ++ b → last x = Some z → Forall WhiteSpace post → ¬ WhiteSpace z →
  ∃ b', b = b' ++ post ∧ s = x ++ b'.
Proof.
  intros Heq Hz Hpost Hnot.
  apply (f_equal reverse) in Heq. rewrite !reverse_app in Heq.
  rewrite <- head_reverse in Hz.
  destruct (reverse x) as [|z' r] eqn:Hx; [done|]. injection Hz as ->.
  apply white_prefix in Heq as (a' & Ha & Hs); [|by apply Forall_reverse|done].
  exists (reverse a'). split.
  - by rewrite <- (reverse_involutive b), Ha, reverse_app, reverse_involutive.
  - by rewrite <- (reverse_involutive s), Hs, <- Hx, reverse_app, reverse_involutive.
Qed.

(** A key without white space at its ends that occurs in a text occurs in
    the text without the white space at its ends. *)
Lemma Occurs_Trimmed raw text key :
  Trimmed raw text → NoSpaceAtEnds key → Occurs key raw → Occurs key text.
Proof.
  intros (pre & post & -> & Hpre & Hpost & _) [Hhead Hlast] (a & b & Hab).
  destruct key as [|c key]; [by exists [], text|].
  cbn [app] in Hab.
  apply white_prefix in Hab as (a' & -> & Hrest); [|done|by apply Hhead].
  destruct (last (c :: key)) as [z|] eqn:Hz; [|by apply last_None in Hz].
  change (a' ++ c :: key ++ b) with (a' ++ (c :: key) ++ b) in Hrest.
  rewrite app_assoc in Hrest.
  apply (white_suffix _ _ _ _ z) in Hrest as (b' & -> & ->); [| |done|by apply Hlast].
  - exists a', b'. by rewrite <- app_assoc.
  - rewrite last_app. by rewrite Hz.
Qed.

Lemma Occurs_raw raw text key : Trimmed raw text → Occurs key text → Occurs key raw.
Proof.
  intros (pre & post & -> & _) (a & b & ->). exists (pre ++ a), (b ++ post).
  by rewrite <- !app_assoc.
Qed.

Lemma Occurs_length key text : Occurs key text → (length key ≤ length text)%nat.
Proof. intros (a & b & ->). rewrite !length_app. lia. Qed.

End trimming.

Section displayText.

Implicit Types d : Document.

Lemma head_filter_Some {A} (P : A → Prop) `{!∀ x, Decision (P x)} (l : list A) x :
  head (filter P l) = Some x ↔
  ∃ pos, l !! pos = Some x ∧ P x ∧ ∀ q e, q < pos → l !! q = Some e → ¬ P e.
Proof.
  induction l as [|y l IH]; [split; [done | by intros (? & ? & _)]|].
  rewrite filter_cons. destruct (decide (P y)) as [Hy | Hy].
  - cbn [head]. split.
    + intros [= ->]. exists 0. split; [done|]. split; [done|]. intros q e Hq. lia.
    + intros ([|pos] & Hx & _ & Hfirst); [by injection Hx as ->|].
      by destruct (Hfirst 0 y ltac:(lia) eq_refl).
  - rewrite IH. split.
    + intros (pos & Hx & HP & Hfirst). exists (S pos). split; [done|]. split; [done|].
      intros [|q] e Hq He; [by injection He as <-|]. apply (Hfirst q); [lia | done].
    + intros ([|pos] & Hx & HP & Hfirst); [by injection Hx as ->|].
      exists pos. split; [done|]. split; [done|].
      intros q e Hq He. apply (Hfirst (S q)); [lia | done].
Qed.

Lemma matchesAt_name d el :
  matchesAt d (AttributeIs (str "data-property") (str "file.name")) el = true ↔
  IsNameElement d el.
Proof.
  unfold matchesAt, IsNameElement, matchesNode. destruct (d !! el) as [n|].
  - rewrite andb_true_iff. split.
    + intros [He Ha]. exists n. split; [done|]. split; [done|].
      destruct (attrGet _ _) as [w|]; [|done]. by apply streq_true in Ha as ->.
    + intros (n' & [= <-] & He & ->). split; [done | apply streq_refl].
  - split; [done | by intros (? & ? & _)].
Qed.

Lemma querySelector_NameElement d card el :
  querySelector d card (AttributeIs (str "data-property") (str "file.name")) = Some el ↔
  NameElement d card el.
Proof.
  unfold querySelector, querySelectorAll, NameElement. rewrite head_filter_Some.
  split; intros (pos & Hpos & Hel & Hfirst); exists pos; (split; [done|]).
  - split; [by apply matchesAt_name|]. intros q e Hq He Hn.
    by apply (Hfirst q e Hq He), matchesAt_name.
  - split; [by apply matchesAt_name|]. intros q e Hq He Hn.
    by apply (Hfirst q e Hq He), matchesAt_name.
Qed.

Lemma textContent_textNodes d el :
  textContent d el = concat (data <$> textNodesUnder d el).
Proof.
  unfold textContent, textNodesUnder.
  induction (descendants d el) as [|i l IH]; [done|].
  cbn [fmap list_fmap omap list_omap concat]. rewrite IH.
  destruct (d !! i) as [n|]; cbn [mbind option_bind]; [|done].
  by destruct (isElement n).
Qed.

(** The text [cardFileName] gives is the display text of the card without
    the white space at its ends. *)
Lemma cardFileName_spec d card name :
  cardFileName d card = Some name ↔
  ∃ raw, DisplayText d card raw ∧ Trimmed raw name.
Proof.
  unfold cardFileName, DisplayText.
  destruct (querySelector d card _) as [el|] eqn:Hq; cbn [mbind option_bind].
  - apply querySelector_NameElement in Hq as Hel. rewrite textContent_textNodes. split.
    + intros [= <-]. eexists. split; [by exists el|]. by apply Trimmed_trim.
    + intros (raw & (el' & Hel' & ->) & Htrim).
      apply querySelector_NameElement in Hel'. rewrite Hq in Hel'. injection Hel' as <-.
      by apply Trimmed_trim in Htrim as ->.
  - split; [done|]. intros (raw & (el & Hel & _) & _).
    apply querySelector_NameElement in Hel. congruence.
Qed.

Lemma cardMatches_CardShows d key card :
  cardMatches d key card = true ↔ CardShows d key card.
Proof.
  unfold cardMatches, CardShows.
  destruct (cardFileName d card) as [name|] eqn:Hname.
  - apply cardFileName_spec in Hname as (raw & Hraw & Htrim).
    rewrite orb_true_iff, streq_true, includes_spec. split.
    + intros H. by exists raw, name.
    + intros (raw' & text & Hraw' & Htrim' & H).
      assert (cardFileName d card = Some text) as Ht
        by (apply cardFileName_spec; by exists raw').
      assert (cardFileName d card = Some name) as Hn
        by (apply cardFileName_spec; by exists raw).
      assert (text = name) as -> by congruence. exact H.
  - split; [done|]. intros (raw & text & Hraw & Htrim & _).
    assert (cardFileName d card = Some text) as Ht
      by (apply cardFileName_spec; by exists raw).
    congruence.
Qed.

Lemma DisplayText_functional d card raw raw' :
  DisplayText d card raw → DisplayText d card raw' → raw = raw'.
Proof.
  intros (el & Hel & ->) (el' & Hel' & ->).
  apply querySelector_NameElement in Hel, Hel'. congruence.
Qed.

(** For a key without white space at its ends the two readings agree. *)
Lemma CardShows_CardDisplays d key card :
  NoSpaceAtEnds key → (CardShows d key card ↔ CardDisplays d key card).
Proof.
  intros Hkey. split.
  - intros (raw & text & Hraw & Htrim & H). exists raw. split; [done|]. right.
    destruct H as [-> | H]; [|by apply (Occurs_raw raw text)].
    apply (Occurs_raw raw key); [done|]. exists [], []. by rewrite app_nil_r.
  - intros (raw & Hraw & H). exists raw, (trim raw).
    assert (Trimmed raw (trim raw)) as Htrim by by apply Trimmed_trim.
    split; [done|]. split; [done|]. right. apply (Occurs_Trimmed raw); [done..|].
    destruct H as [-> | H]; [|done]. exists [], []. by rewrite app_nil_r.
Qed.

(** A card that displays exactly a key with white space at an end does not
    match it: the display text is trimmed and the key is not. *)
Lemma cardMatches_untrimmed_key d key card :
  DisplayText d card key → ¬ NoSpaceAtEnds key → cardMatches d key card = false.
Proof.
  intros Hraw Hkey. apply not_true_is_false. rewrite cardMatches_CardShows.
  intros (raw & text & Hraw' & Htrim & H).
  rewrite (DisplayText_functional _ _ _ _ Hraw' Hraw) in Htrim.
  pose proof (Trimmed_length _ _ Htrim Hkey) as Hlen.
  destruct H as [-> | H]; [lia|]. apply Occurs_length in H. lia.
Qed.

End displayText.

Lemma findCardLoop_Some d key cards card :
  findCardLoop d key cards = Some card ↔
  ∃ i, cards !! i = Some card ∧ cardMatches d key card = true ∧
       ∀ j c, j < i → cards !! j = Some c → cardMatches d key c = false.
Proof.
  induction cards as [|c0 cards IH]; simpl.
  - split; [done | intros (i & H & _); done].
  - destruct (cardMatches d key c0) eqn:Hc0.
    + split.
      * intros [= <-]. exists 0. repeat split; [done | lia].
      * intros (i & Hi & Hm & Hfirst). destruct i as [|i].
        -- by injection Hi as ->.
        -- specialize (Hfirst 0 c0 ltac:(lia) eq_refl). congruence.
    + rewrite IH. split.
      * intros (i & Hi & Hm & Hfirst). exists (S i). repeat split; [done..|].
        intros [|j] c Hj Hc; simpl in Hc.
        -- by injection Hc as <-.
        -- apply (Hfirst j); [lia | done].
      * intros (i & Hi & Hm & Hfirst). destruct i as [|i].
        -- injection Hi as ->. congruence.
        -- exists i. repeat split; [done..|].
           intros j c Hj Hc. apply (Hfirst (S j)); [lia | done].
Qed.

Lemma findCardLoop_None d key cards :
  findCardLoop d key cards = None ↔ ∀ c, c ∈ cards → cardMatches d key c = false.
Proof.
  induction cards as [|c0 cards IH]; simpl.
  - split; [intros _ c Hc; by apply elem_of_nil in Hc | done].
  - destruct (cardMatches d key c0) eqn:Hc0.
    + split; [done | intros H; specialize (H c0 ltac:(left)); congruence].
    + rewrite IH. split.
      * intros H c Hc. apply elem_of_cons in Hc as [-> | Hc]; [done | by apply H].
      * intros H c Hc. apply H. by right.
Qed.

(** C6. The lookup trims the display text of a card and compares it with
    the key as it is. So for a key with white space at an end, as the key
    of a canvas file whose name starts or ends with a space, the card whose
    file-name display text is exactly the key does not match: the lookup
    never returns that card, and returns [null] when it is the only card,
    although its display text equals the key. *)
Theorem findCardByFileName_misses_displayed_key d container key card :
  DisplayText d card key → ¬ NoSpaceAtEnds key →
  CardDisplays d key card ∧
  cardMatches d key card = false ∧
  findCardByFileName d container key ≠ Some card ∧
  (cardsOf d container = [card] → findCardByFileName d container key = None).
Proof.
  intros Hraw Hkey.
  pose proof (cardMatches_untrimmed_key d key card Hraw Hkey) as Hno.
  split; [exists key; split; [done | by left]|]. split; [exact Hno|]. split.
  - unfold findCardByFileName. intros Hfound.
    apply findCardLoop_Some in Hfound as (i & _ & Hm & _). congruence.
  - unfold findCardByFileName, cardsOf. intros ->. cbn [findCardLoop]. by rewrite Hno.
Qed.

Lemma findCardByFileName_misses_displayed_key_witness :
  getFileNameFromPath (str "Projects/ Alpha.canvas") = str " Alpha" ∧
  DisplayText Demo2.spacedView 1 (str " Alpha") ∧
  ¬ NoSpaceAtEnds (str " Alpha") ∧
  findCardByFileName Demo2.spacedView 0
    (getFileNameFromPath (str "Projects/ Alpha.canvas")) = None ∧
  addCardThumbnails Demo.desktop
    [(str "Projects/ Alpha.canvas", str "Projects/cover.png")] Demo2.spacedView
    = (Demo2.spacedView, [LogStart 1; LogNoCard (str " Alpha"); LogDone 0]).
Proof.
  assert (DisplayText Demo2.spacedView 1 (str " Alpha")) as Hraw.
  { exists 3. split; [|vm_compute; reflexivity].
    exists 1. split; [vm_compute; reflexivity|]. split.
    - eexists. repeat split; reflexivity.
    - intros [|q] e Hq He; [|lia]. vm_compute in He. injection He as <-.
      intros (n & Hn & _ & Ha). vm_compute in Hn. injection Hn as <-.
      vm_compute in Ha. discriminate. }
  assert (¬ NoSpaceAtEnds (str " Alpha")) as Hkey.
  { intros [H _]. apply (H 32%N); [reflexivity|]. left.
    apply (bool_decide_unpack _). vm_compute. exact I. }
  destruct (findCardByFileName_misses_displayed_key Demo2.spacedView 0 (str " Alpha") 1
              Hraw Hkey) as (_ & _ & _ & Hnone).
  split; [reflexivity|]. split; [exact Hraw|]. split; [exact Hkey|]. split.
  - apply Hnone. vm_compute. reflexivity.
  - vm_compute. reflexivity.
Defined.

(** X17. [findCardByFileName] returns a card exactly when it is the first
    card element of the container, in document order, whose file-name
    display text, without the white space at its ends, equals or contains
    the key; it returns [null] exactly when that holds of no card element.
    The display text is the text under the first element of the card that
    has the attribute [data-property] with the value [file.name]. For a
    key without white space at its ends this is the same as the display
    text, as the document holds it, equalling or containing the key. *)
Theorem findCardByFileName_first_match d container key :
  (∀ card,
     findCardByFileName d container key = Some card ↔
     ∃ i, cardsOf d container !! i = Some card ∧ CardShows d key card ∧
          ∀ j c, j < i → cardsOf d container !! j = Some c → ¬ CardShows d key c) ∧
  (findCardByFileName d container key = None ↔
   ∀ c, c ∈ cardsOf d container → ¬ CardShows d key c) ∧
  (NoSpaceAtEnds key → ∀ card, CardShows d key card ↔ CardDisplays d key card).
Proof.
  split; [|split; [|intros Hkey card; by apply CardShows_CardDisplays]];
    unfold findCardByFileName, cardsOf.
  - intros card. rewrite findCardLoop_Some. split.
    + intros (i & Hi & Hm & Hfirst). exists i. repeat split; [done | |].
      * by apply cardMatches_CardShows.
      * intros j c Hj Hc Hshow. apply cardMatches_CardShows in Hshow.
        rewrite (Hfirst j c Hj Hc) in Hshow. done.
    + intros (i & Hi & Hm & Hfirst). exists i. repeat split; [done | |].
      * by apply cardMatches_CardShows.
      * intros j c Hj Hc. apply not_true_is_false.
        rewrite cardMatches_CardShows. by apply (Hfirst j).
  - rewrite findCardLoop_None. split.
    + intros H c Hc Hshow. apply cardMatches_CardShows in Hshow.
      rewrite (H c Hc) in Hshow. done.
    + intros H c Hc. apply not_true_is_false.
      rewrite cardMatches_CardShows. by apply H.
Qed.

(** ** The DOM: attributes, and what a decoration leaves unchanged *)

Section attributes.

Implicit Types a : list (jsstring * jsstring).

Lemma attrGet_attrSet a k v k' :
  attrGet (attrSet a k v) k' = if streq k k' then Some v else attrGet a k'.
Proof.
  induction a as [|[k0 v0] a IH]; simpl.
  - done.
  - destruct (streq k0 k) eqn:E0; simpl.
    + apply streq_true in E0 as ->. by destruct (streq k k').
    + rewrite IH. destruct (streq k0 k') eqn:E1; [|done].
      apply streq_true in E1 as ->. by rewrite streq_sym, E0.
Qed.

Lemma attrGet_attrRemove a k k' :
  attrGet (attrRemove a k) k' = if streq k k' then None else attrGet a k'.
Proof.
  unfold attrRemove. induction a as [|[k0 v0] a IH]; simpl.
  - by destruct (streq k k').
  - rewrite filter_cons. simpl. destruct (decide (k0 ≠ k)) as [Hne|Heq]; simpl.
    + rewrite IH. destruct (streq k0 k') eqn:E1; [|done].
      apply streq_true in E1 as ->.
      destruct (streq k k') eqn:E2; [|done]. apply streq_true in E2. congruence.
    + apply dec_stable in Heq as ->. rewrite IH.
      by destruct (streq k k').
Qed.

End attributes.

Section frame.

Implicit Types d : Document.

Lemma sameNode_refl n : sameNode n n.
Proof. by repeat split. Qed.

Lemma sameNode_trans n1 n2 n3 : sameNode n1 n2 → sameNode n2 n3 → sameNode n1 n3.
Proof.
  intros (?&?&?&?&?) (?&?&?&?&?). repeat split; congruence.
Qed.

Lemma sameCards_refl d : sameCards d d.
Proof. apply Forall2_same_length_lookup. split; [done|]. intros i x y ? ?.
  simplify_eq. apply sameNode_refl. Qed.

Lemma sameCards_trans d1 d2 d3 : sameCards d1 d2 → sameCards d2 d3 → sameCards d1 d3.
Proof.
  intros H12 H23. eapply Forall2_trans; [|exact H12|exact H23].
  intros ???. apply sameNode_trans.
Qed.

Lemma sameCards_alter d el f :
  (∀ n, sameNode n (f n)) → sameCards d (alter f el d).
Proof.
  intros Hf. apply Forall2_same_length_lookup. split.
  - by rewrite length_alter.
  - intros i x y Hx Hy. destruct (decide (i = el)) as [->|Hne].
    + rewrite list_lookup_alter_eq, Hx in Hy. simpl in Hy. injection Hy as <-. apply Hf.
    + rewrite list_lookup_alter_ne, Hx in Hy by done. injection Hy as <-.
      apply sameNode_refl.
Qed.

Lemma sameCards_lookup d d' i :
  sameCards d d' → option_Forall2 sameNode (d !! i) (d' !! i).
Proof. intros H. by apply Forall2_lookup. Qed.

Lemma deeperRun_same dep (l l' : list Node) :
  Forall2 sameNode l l' → deeperRun dep l = deeperRun dep l'.
Proof.
  induction 1 as [|n n' l l' Hn _ IH]; simpl; [done|].
  destruct Hn as (-> & _). by rewrite IH.
Qed.

Lemma descendants_same d d' el :
  sameCards d d' → descendants d el = descendants d' el.
Proof.
  intros H. unfold descendants.
  destruct (sameCards_lookup d d' el H) as [n n' Hn|]; [|done].
  destruct Hn as (-> & _). f_equal.
  apply deeperRun_same. by apply Forall2_drop.
Qed.

Lemma matchesAt_same_class d d' c i :
  sameCards d d' → matchesAt d (ByClass c) i = matchesAt d' (ByClass c) i.
Proof.
  intros H. unfold matchesAt.
  destruct (sameCards_lookup d d' i H) as [n n' Hn|]; [|done].
  destruct Hn as (_ & He & Hc & _). unfold matchesNode. by rewrite He, Hc.
Qed.

Lemma matchesAt_same_property d d' v i :
  sameCards d d' →
  matchesAt d (AttributeIs (str "data-property") v) i =
  matchesAt d' (AttributeIs (str "data-property") v) i.
Proof.
  intros H. unfold matchesAt.
  destruct (sameCards_lookup d d' i H) as [n n' Hn|]; [|done].
  destruct Hn as (_ & He & _ & _ & Ha). unfold matchesNode. by rewrite He, Ha.
Qed.

Lemma querySelectorAll_same d d' el sel :
  sameCards d d' →
  (∀ i, matchesAt d sel i = matchesAt d' sel i) →
  querySelectorAll d el sel = querySelectorAll d' el sel.
Proof.
  intros H Hm. unfold querySelectorAll. rewrite (descendants_same d d' el H).
  apply list_filter_iff. intros i. by rewrite Hm.
Qed.

Lemma textContent_same d d' el :
  sameCards d d' → textContent d el = textContent d' el.
Proof.
  intros H. unfold textContent. rewrite (descendants_same d d' el H).
  f_equal. apply list_fmap_ext. intros _ i _.
  destruct (sameCards_lookup d d' i H) as [n n' Hn|]; [|done].
  destruct Hn as (_ & -> & _ & -> & _). done.
Qed.

Lemma cardFileName_same d d' card :
  sameCards d d' → cardFileName d card = cardFileName d' card.
Proof.
  intros H. unfold cardFileName, querySelector.
  rewrite (querySelectorAll_same d d' card _ H)
    by (intros; by apply matchesAt_same_property).
  destruct (head _); simpl; [|done]. by rewrite (textContent_same d d' _ H).
Qed.

Lemma findCardByFileName_same d d' container key :
  sameCards d d' →
  findCardByFileName d container key = findCardByFileName d' container key.
Proof.
  intros H. unfold findCardByFileName.
  rewrite (querySelectorAll_same d d' container _ H)
    by (intros; by apply matchesAt_same_class).
  induction (querySelectorAll d' container _) as [|c l IH]; simpl; [done|].
  unfold cardMatches. rewrite (cardFileName_same d d' c H). by rewrite IH.
Qed.

Lemma cover_same d d' card :
  sameCards d d' →
  querySelector d card (ByClass (str "bases-cards-cover")) =
  querySelector d' card (ByClass (str "bases-cards-cover")).
Proof.
  intros H. unfold querySelector.
  by rewrite (querySelectorAll_same d d' card _ H)
    by (intros; by apply matchesAt_same_class).
Qed.

Lemma container_same d d' :
  sameCards d d' →
  documentQuerySelector d (ByClass (str "bases-cards-container")) =
  documentQuerySelector d' (ByClass (str "bases-cards-container")).
Proof.
  intros H. unfold documentQuerySelector, documentQuerySelectorAll.
  rewrite (Forall2_length _ _ _ H). f_equal.
  apply list_filter_iff. intros i. by rewrite (matchesAt_same_class d d' _ i H).
Qed.

End frame.

(** ** Reconciliation *)

Section setters.

Implicit Types d : Document.

Lemma getAttribute_alter_style d el i name f :
  (∀ n, attributes (f n) = attributes n) →
  getAttribute (alter f el d) i name = getAttribute d i name.
Proof.
  intros Hf. unfold getAttribute. destruct (decide (el = i)) as [->|Hne].
  - rewrite list_lookup_alter_eq. destruct (d !! i); simpl; [|done]. by rewrite Hf.
  - by rewrite list_lookup_alter_ne.
Qed.

Lemma getAttribute_setAttribute d el k v i name :
  getAttribute (setAttribute el k v d) i name =
  if bool_decide (el = i) && streq k name then d !! i ≫= (λ _, Some v)
  else getAttribute d i name.
Proof.
  unfold getAttribute, setAttribute. destruct (decide (el = i)) as [->|Hne].
  - rewrite bool_decide_eq_true_2 by done. rewrite list_lookup_alter_eq.
    destruct (d !! i); simpl; [|by destruct (streq k name)].
    rewrite attrGet_attrSet. by destruct (streq k name).
  - rewrite bool_decide_eq_false_2 by done. by rewrite list_lookup_alter_ne.
Qed.

Lemma lookup_alter_is_Some d el i (f : Node → Node) :
  is_Some (alter f el d !! i) ↔ is_Some (d !! i).
Proof. by rewrite !lookup_lt_is_Some, length_alter. Qed.

Lemma setCardThumbnail_same adapter img el cp d :
  sameCards d (setCardThumbnail adapter img el cp d).1.
Proof.
  destruct adapter as [g|]; simpl; [|apply sameCards_refl].
  repeat (eapply sameCards_trans; [|apply sameCards_alter]);
    [apply sameCards_refl | intros n; repeat split; simpl ..].
  all: try done.
  all: rewrite attrGet_attrSet; done.
Qed.

Lemma setCardThumbnail_other adapter img el cp d i name :
  i ≠ el →
  getAttribute (setCardThumbnail adapter img el cp d).1 i name = getAttribute d i name.
Proof.
  intros Hne. destruct adapter as [g|]; simpl; [|done].
  rewrite !getAttribute_setAttribute.
  rewrite !bool_decide_eq_false_2 by done. simpl.
  unfold setBackgroundPosition, setBackgroundRepeat, setBackgroundSize, setBackgroundImage.
  by rewrite !getAttribute_alter_style.
Qed.

Lemma setStyle_is_Some d el i v :
  (is_Some (setBackgroundImage el v d !! i) ↔ is_Some (d !! i)) ∧
  (is_Some (setBackgroundSize el v d !! i) ↔ is_Some (d !! i)) ∧
  (is_Some (setBackgroundRepeat el v d !! i) ↔ is_Some (d !! i)) ∧
  (is_Some (setBackgroundPosition el v d !! i) ↔ is_Some (d !! i)).
Proof. repeat split; apply lookup_alter_is_Some. Qed.

Lemma setCardThumbnail_marker g img el cp d :
  is_Some (d !! el) →
  getAttribute (setCardThumbnail (FileSystemAdapter g) img el cp d).1 el markerAttribute
  = Some cp.
Proof.
  intros Hel. unfold setCardThumbnail. cbn [fst].
  rewrite !getAttribute_setAttribute.
  rewrite !bool_decide_eq_true_2 by done.
  change (streq imagePathAttribute markerAttribute) with false.
  rewrite streq_refl. cbn [andb].
  match goal with |- ?x ≫= _ = _ => assert (is_Some x) as [n ->]; [|done] end.
  apply setStyle_is_Some, setStyle_is_Some, setStyle_is_Some, setStyle_is_Some, Hel.
Qed.

Lemma querySelector_matches d el sel t :
  querySelector d el sel = Some t → matchesAt d sel t = true.
Proof.
  unfold querySelector, querySelectorAll. intros H.
  apply head_Some_elem_of in H. by apply list_elem_of_filter in H as [H _].
Qed.

Lemma matchesAt_is_Some d sel t : matchesAt d sel t = true → is_Some (d !! t).
Proof. unfold matchesAt. destruct (d !! t); [eauto | done]. Qed.

Lemma coverFor_is_Some d container cp t :
  coverFor d container cp = Some t → is_Some (d !! t).
Proof.
  unfold coverFor. destruct (findCardByFileName _ _ _); simpl; [|done].
  intros H. eapply matchesAt_is_Some, querySelector_matches, H.
Qed.

Lemma coverFor_same d d' container cp :
  sameCards d d' → coverFor d container cp = coverFor d' container cp.
Proof.
  intros H. unfold coverFor. rewrite (findCardByFileName_same d d' _ _ H).
  destruct (findCardByFileName d' _ _); simpl; [|done]. by apply cover_same.
Qed.

End setters.

Section forEach.

Variable adapter : DataAdapter.
Variable container : Handle.

Local Abbreviation step := (forEachEntry adapter container).

(** An entry whose cover carries a non-empty marker is skipped. *)
Lemma forEachEntry_marked st cp img t :
  coverFor (document st) container cp = Some t →
  marked (document st) t = true →
  step st (cp, img) = st.
Proof.
  unfold coverFor, marked, forEachEntry. intros Hc Hm.
  destruct (findCardByFileName _ _ _) as [card|]; simpl in Hc; [|done].
  rewrite Hc, Hm. done.
Qed.

(** An entry whose cover carries no marker, or an empty one, is decorated
    and counted. *)
Lemma forEachEntry_unmarked st cp img t :
  coverFor (document st) container cp = Some t →
  marked (document st) t = false →
  step st (cp, img) =
  {| document := (setCardThumbnail adapter img t cp (document st)).1;
     updatedCount := S (updatedCount st);
     output := output st ++ (setCardThumbnail adapter img t cp (document st)).2
                 ++ [LogCardSet (getFileNameFromPath cp) img] |}.
Proof.
  unfold coverFor, marked, forEachEntry. intros Hc Hm.
  destruct (findCardByFileName _ _ _) as [card|]; simpl in Hc; [|done].
  rewrite Hc, Hm. simpl. by destruct (setCardThumbnail _ _ _ _ _).
Qed.

(** An entry without a card, or whose card has no cover, changes neither
    the document nor the count. *)
Lemma forEachEntry_no_cover st cp img :
  coverFor (document st) container cp = None →
  document (step st (cp, img)) = document st ∧
  updatedCount (step st (cp, img)) = updatedCount st ∧
  (output (step st (cp, img)) = output st ∨
   output (step st (cp, img)) = output st ++ [LogNoCard (getFileNameFromPath cp)]).
Proof.
  unfold coverFor, forEachEntry. intros Hc.
  destruct (findCardByFileName _ _ _) as [card|]; simpl in Hc.
  - rewrite Hc. auto.
  - simpl. auto.
Qed.

Lemma forEachEntry_same st e :
  sameCards (document st) (document (step st e)).
Proof.
  destruct e as [cp img].
  destruct (coverFor (document st) container cp) as [t|] eqn:Hc.
  - destruct (marked (document st) t) eqn:Hm.
    + rewrite (forEachEntry_marked st cp img t Hc Hm). apply sameCards_refl.
    + rewrite (forEachEntry_unmarked st cp img t Hc Hm). cbn [document].
      apply setCardThumbnail_same.
  - destruct (forEachEntry_no_cover st cp img Hc) as (-> & _). apply sameCards_refl.
Qed.

Lemma foldl_forEachEntry_same data st :
  sameCards (document st) (document (foldl step st data)).
Proof.
  revert st. induction data as [|e data IH]; intros st; cbn [foldl flat_map].
  - apply sameCards_refl.
  - eapply sameCards_trans; [apply forEachEntry_same | apply IH].
Qed.

(** A pass over entries whose covers all carry a non-empty marker changes
    nothing and counts nothing; it only reports the cards it did not find. *)
Lemma foldl_forEachEntry_all_marked data st :
  (∀ cp img t, (cp, img) ∈ data →
     coverFor (document st) container cp = Some t → marked (document st) t = true) →
  document (foldl step st data) = document st ∧
  updatedCount (foldl step st data) = updatedCount st ∧
  ∃ extra, output (foldl step st data) = output st ++ extra ∧
           Forall (λ e, ∃ k, e = LogNoCard k) extra.
Proof.
  revert st. induction data as [|[cp img] data IH]; intros st Hall; cbn [foldl].
  - repeat split; [exists []; by rewrite app_nil_r].
  - assert (document (step st (cp, img)) = document st ∧
            updatedCount (step st (cp, img)) = updatedCount st ∧
            ∃ extra, output (step st (cp, img)) = output st ++ extra ∧
                     Forall (λ e, ∃ k, e = LogNoCard k) extra) as (Hd & Hn & x1 & Ho & Hx1).
    { destruct (coverFor (document st) container cp) as [t|] eqn:Hc.
      - rewrite (forEachEntry_marked st cp img t Hc); [|apply (Hall cp img t); [left|done]].
        repeat split. exists []. by rewrite app_nil_r.
      - destruct (forEachEntry_no_cover st cp img Hc) as (-> & -> & [-> | ->]).
        + repeat split. exists []. by rewrite app_nil_r.
        + repeat split. eexists. split; [done|]. repeat constructor. eauto. }
    destruct (IH (step st (cp, img))) as (Hd' & Hn' & x2 & Ho' & Hx2).
    { intros cp' img' t Hin. rewrite Hd. apply (Hall cp' img' t). by right. }
    rewrite Hd', Hn', Ho', Hd, Hn, Ho. repeat split.
    exists (x1 ++ x2). split; [by rewrite app_assoc | by apply Forall_app].
Qed.

End forEach.

Section forEachFileSystem.

Variable getResourcePath : jsstring → jsstring.
Variable container : Handle.

Local Abbreviation step := (forEachEntry (FileSystemAdapter getResourcePath) container).

Lemma forEachEntry_keeps_marked st cp img t :
  cp ≠ [] →
  marked (document st) t = true →
  marked (document (step st (cp, img))) t = true.
Proof.
  intros Hcp Ht.
  destruct (coverFor (document st) container cp) as [t'|] eqn:Hc.
  - destruct (marked (document st) t') eqn:Hm.
    + by rewrite (forEachEntry_marked _ _ st cp img t' Hc Hm).
    + rewrite (forEachEntry_unmarked _ _ st cp img t' Hc Hm). cbn [document].
      assert (t ≠ t') by congruence. unfold marked.
      rewrite setCardThumbnail_other by done. exact Ht.
  - by destruct (forEachEntry_no_cover (FileSystemAdapter getResourcePath) _ st cp img Hc) as (-> & _).
Qed.

Lemma forEachEntry_marks st cp img t :
  cp ≠ [] →
  coverFor (document st) container cp = Some t →
  marked (document (step st (cp, img))) t = true.
Proof.
  intros Hcp Hc. destruct (marked (document st) t) eqn:Hm.
  - by rewrite (forEachEntry_marked _ _ st cp img t Hc Hm).
  - rewrite (forEachEntry_unmarked _ _ st cp img t Hc Hm). cbn [document].
    unfold marked. rewrite setCardThumbnail_marker by (eapply coverFor_is_Some, Hc).
    by destruct cp.
Qed.

(** After a pass, the cover of every entry carries a non-empty marker. *)
Lemma foldl_forEachEntry_marks data st :
  Forall (λ e, e.1 ≠ []) data →
  (∀ t, marked (document st) t = true → marked (document (foldl step st data)) t = true) ∧
  (∀ cp img t, (cp, img) ∈ data →
     coverFor (document st) container cp = Some t →
     marked (document (foldl step st data)) t = true).
Proof.
  revert st. induction data as [|[cp img] data IH]; intros st Hne; cbn [foldl].
  - split; [done|]. intros ??? Hin. by apply elem_of_nil in Hin.
  - apply Forall_cons in Hne as [Hcp Hne]. simpl in Hcp.
    destruct (IH (step st (cp, img)) Hne) as [Hmono Hall]. split.
    + intros t Ht. by apply Hmono, forEachEntry_keeps_marked.
    + intros cp' img' t Hin Hc. apply elem_of_cons in Hin as [[= -> ->] | Hin].
      * by apply Hmono, forEachEntry_marks.
      * apply (Hall cp' img' t Hin).
        by rewrite <- (coverFor_same _ _ _ _ (forEachEntry_same _ _ st (cp, img))).
Qed.

End forEachFileSystem.

Section forEachOther.

Variable container : Handle.

Local Abbreviation step := (forEachEntry OtherAdapter container).

(** Without the file-system adapter an entry never changes the document,
    and never writes the message of a decoration. *)
Lemma forEachEntry_other st e :
  document (step st e) = document st ∧
  ∃ extra, output (step st e) = output st ++ extra ∧
           Forall (λ ev, isDecoration ev = false) extra ∧
           extra = output (step {| document := document st; updatedCount := 0;
                                   output := [] |} e).
Proof.
  destruct e as [cp img]. unfold forEachEntry. simpl.
  destruct (findCardByFileName _ _ _) as [card|]; simpl.
  - destruct (querySelector _ _ _) as [cover|]; simpl.
    + destruct (Utils.truthy _); simpl.
      * split; [done|]. exists []. by rewrite app_nil_r.
      * split; [done|]. eexists. split; [done|]. split; [|done].
        by repeat constructor.
    + split; [done|]. exists []. by rewrite app_nil_r.
  - split; [done|]. eexists. split; [done|]. split; [|done]. by repeat constructor.
Qed.

Lemma foldl_forEachEntry_other data st :
  document (foldl step st data) = document st ∧
  output (foldl step st data) =
    output st ++ flat_map (λ e, output (step {| document := document st;
                                                updatedCount := 0; output := [] |} e)) data ∧
  Forall (λ ev, isDecoration ev = false)
    (flat_map (λ e, output (step {| document := document st;
                                    updatedCount := 0; output := [] |} e)) data).
Proof.
  revert st. induction data as [|e data IH]; intros st; cbn [foldl flat_map].
  - by rewrite app_nil_r.
  - destruct (forEachEntry_other st e) as (Hd & x & Ho & Hx & Hxe).
    destruct (IH (step st e)) as (Hd' & Ho' & Hx').
    rewrite Hd', Ho', Hd, Ho. rewrite Hd in Hx'. rewrite <- Hxe.
    split; [done|]. split; [by rewrite app_assoc | by apply Forall_app].
Qed.

End forEachOther.

Section outputs.

Implicit Types out : list Event.

Lemma decorations_app out1 out2 :
  decorations (out1 ++ out2) = decorations out1 + decorations out2.
Proof. unfold decorations. by rewrite filter_app, length_app. Qed.

Lemma decorations_cons e out :
  decorations (e :: out) = (if isDecoration e then 1 else 0) + decorations out.
Proof.
  unfold decorations. rewrite filter_cons.
  destruct (isDecoration e); [by rewrite decide_True | by rewrite decide_False].
Qed.

Lemma decorations_none out :
  Forall (λ e, isDecoration e = false) out → decorations out = 0.
Proof.
  unfold decorations. induction 1 as [|e out He _ IH]; [done|].
  rewrite filter_cons. destruct (decide _) as [H|_]; [congruence | exact IH].
Qed.

Lemma LogNoCard_no_decoration out :
  Forall (λ e, ∃ k, e = LogNoCard k) out → Forall (λ e, isDecoration e = false) out.
Proof. intros H. eapply Forall_impl; [exact H|]. by intros e [k ->]. Qed.

Lemma reportedCount_done out n :
  reportedCount (out ++ [LogDone n]) = Some n.
Proof. unfold reportedCount. rewrite omap_app. simpl. apply last_snoc. Qed.

End outputs.

(** C2. The canvas paths of the map are paths of vault files, and so not
    empty, and the marker a decoration writes is the canvas path of its
    entry. An entry whose cover carries such a marker is skipped: the
    document, the count and the console are left as they were. So a second
    call of [addCardThumbnails] with the same map on the document the first
    call left changes nothing in it and performs no decoration, and with
    the file-system adapter the count it reports, if any, is zero. *)
Theorem addCardThumbnails_second_call adapter data d :
  Forall (λ entry, entry.1 ≠ []) data →
  (∀ container st cp img t p,
     coverFor (document st) container cp = Some t →
     getAttribute (document st) t markerAttribute = Some p → p ≠ [] →
     forEachEntry adapter container st (cp, img) = st) ∧
  (addCardThumbnails adapter data (addCardThumbnails adapter data d).1).1
    = (addCardThumbnails adapter data d).1 ∧
  decorations (addCardThumbnails adapter data (addCardThumbnails adapter data d).1).2 = 0 ∧
  (adapter ≠ OtherAdapter →
   ∀ n, reportedCount
          (addCardThumbnails adapter data (addCardThumbnails adapter data d).1).2 = Some n →
        n = 0).
Proof.
  intros Hne. split.
  { intros container st cp img t p Hc Hp Hnonempty.
    apply (forEachEntry_marked adapter container st cp img t Hc).
    unfold marked. rewrite Hp. by destruct p. }
  remember (addCardThumbnails adapter data d).1 as d1 eqn:Hd1.
  unfold addCardThumbnails in Hd1.
  destruct (documentQuerySelector d _) as [c|] eqn:Hcont; cbn [fst snd] in Hd1.
  2:{ subst d1. unfold addCardThumbnails. rewrite Hcont. cbn [fst snd].
      repeat split. intros _ n. by vm_compute. }
  set (st0 := {| document := d; updatedCount := 0;
                 output := [LogStart (JSMap.size data)] |}) in Hd1.
  assert (sameCards d d1) as Hsame
    by (subst d1; apply (foldl_forEachEntry_same adapter c data st0)).
  unfold addCardThumbnails.
  rewrite <- (container_same _ _ Hsame), Hcont. cbn [fst snd].
  set (st0' := {| document := d1; updatedCount := 0;
                  output := [LogStart (JSMap.size data)] |}).
  destruct adapter as [g|].
  - destruct (foldl_forEachEntry_all_marked (FileSystemAdapter g) c data st0')
      as (Hd & Hn & extra & Ho & Hextra).
    { intros cp img t Hin Hc. cbn [document st0'] in *.
      rewrite <- (coverFor_same _ _ _ _ Hsame) in Hc. subst d1.
      by apply (proj2 (foldl_forEachEntry_marks g c data st0 Hne) cp img t). }
    rewrite Hd, Hn, Ho. cbn [document updatedCount output st0'].
    repeat split.
    + rewrite !decorations_app. rewrite (decorations_none extra)
        by by apply LogNoCard_no_decoration. done.
    + intros _ n. rewrite reportedCount_done. congruence.
  - destruct (foldl_forEachEntry_other c data st0') as (Hd & Ho & Hx).
    rewrite Hd, Ho. repeat split; [|done].
    rewrite !decorations_app. by rewrite (decorations_none _ Hx).
Qed.

Lemma addCardThumbnails_second_call_witness :
  Forall (λ entry : jsstring * jsstring, entry.1 ≠ []) Demo.thumbnails ∧
  (addCardThumbnails Demo.desktop Demo.thumbnails
     (addCardThumbnails Demo.desktop Demo.thumbnails Demo.cardsView).1).1
    = (addCardThumbnails Demo.desktop Demo.thumbnails Demo.cardsView).1 ∧
  decorations (addCardThumbnails Demo.desktop Demo.thumbnails Demo.cardsView).2 = 1 ∧
  decorations (addCardThumbnails Demo.desktop Demo.thumbnails
     (addCardThumbnails Demo.desktop Demo.thumbnails Demo.cardsView).1).2 = 0.
Proof.
  assert (Forall (λ entry : jsstring * jsstring, entry.1 ≠ []) Demo.thumbnails) as H
    by (repeat constructor; discriminate).
  split; [exact H|].
  destruct (addCardThumbnails_second_call Demo.desktop Demo.thumbnails Demo.cardsView H)
    as (_ & Hd & Hz & _).
  split; [exact Hd|]. split; [vm_compute; reflexivity | exact Hz].
Defined.


(** C3. [updatedCount] counts the covers that were found without a
    non-empty marker, whether or not [setCardThumbnail] decorated them.
    With an adapter that is not the file-system adapter the call on the
    cards view reports one updated card, while it performed no decoration
    and left the document as it was. *)
Theorem addCardThumbnails_counts_undecorated_cover :
  addCardThumbnails OtherAdapter Demo.thumbnails Demo.cardsView =
    (Demo.cardsView,
     [LogStart 1; ErrNoAdapter; LogCardSet (str "Alpha") (str "Projects/cover.png");
      LogDone 1]) ∧
  reportedCount (addCardThumbnails OtherAdapter Demo.thumbnails Demo.cardsView).2 = Some 1 ∧
  decorations (addCardThumbnails OtherAdapter Demo.thumbnails Demo.cardsView).2 = 0.
Proof. repeat split; vm_compute; reflexivity. Qed.

(** C9. With an adapter that is not the file-system adapter,
    [setCardThumbnail] reports the error and returns the document as it
    received it; an entry whose cover is to be decorated changes nothing
    in the document; the whole call leaves the document unchanged; and
    every entry of the map is still handled, each writing to the console
    what it writes when handled alone. The functions are total: there is no
    exception to propagate. *)
Theorem addCardThumbnails_without_adapter :
  (∀ imagePath cover canvasPath d,
     setCardThumbnail OtherAdapter imagePath cover canvasPath d = (d, [ErrNoAdapter])) ∧
  (∀ container st canvasPath imagePath cover,
     coverFor (document st) container canvasPath = Some cover →
     marked (document st) cover = false →
     document (forEachEntry OtherAdapter container st (canvasPath, imagePath))
       = document st ∧
     output (forEachEntry OtherAdapter container st (canvasPath, imagePath))
       = output st ++ [ErrNoAdapter;
                       LogCardSet (getFileNameFromPath canvasPath) imagePath]) ∧
  (∀ data d, (addCardThumbnails OtherAdapter data d).1 = d) ∧
  (∀ data d container,
     documentQuerySelector d (ByClass (str "bases-cards-container")) = Some container →
     ∃ n, (addCardThumbnails OtherAdapter data d).2 =
          [LogStart (JSMap.size data)]
          ++ flat_map (λ entry,
               output (forEachEntry OtherAdapter container
                         {| document := d; updatedCount := 0; output := [] |} entry)) data
          ++ [LogDone n]).
Proof.
  split; [done|]. split; [|split].
  - intros container st cp img cover Hc Hm.
    by rewrite (forEachEntry_unmarked OtherAdapter container st cp img cover Hc Hm).
  - intros data d. unfold addCardThumbnails.
    destruct (documentQuerySelector d _) as [c|]; cbn [fst]; [|done].
    apply foldl_forEachEntry_other.
  - intros data d c Hc. unfold addCardThumbnails. rewrite Hc. cbn [snd].
    destruct (foldl_forEachEntry_other c data
                {| document := d; updatedCount := 0;
                   output := [LogStart (JSMap.size data)] |}) as (_ & Ho & _).
    rewrite Ho. cbn [document output]. eexists. by rewrite <- app_assoc.
Qed.

(** ** The empty key *)

Lemma cardMatches_empty d card :
  cardMatches d [] card = true ↔ hasNameElement d card.
Proof.
  unfold cardMatches, cardFileName, hasNameElement.
  destruct (querySelector d card _) as [nameElement|]; simpl.
  - rewrite includes_empty, orb_true_r. split; eauto.
  - split; [done | by intros [? ?]].
Qed.

Lemma findCardLoop_empty d cards :
  findCardLoop d [] cards = head (filter (hasNameElement d) cards).
Proof.
  induction cards as [|card cards IH]; [done|].
  cbn [findCardLoop]. rewrite filter_cons.
  destruct (cardMatches d [] card) eqn:Hm.
  - apply cardMatches_empty in Hm. by rewrite decide_True.
  - rewrite decide_False; [exact IH|].
    rewrite <- cardMatches_empty. congruence.
Qed.

(** C10. When the key derived from a canvas path is the empty string,
    card lookup returns the first card of the container that has a
    file-name display element, whatever that element displays; and when
    that card has a cover without a non-empty marker, the entry decorates
    it: the cover is marked with the canvas path and counted. *)
Theorem empty_key_decorates_first_named_card d container canvasPath :
  getFileNameFromPath canvasPath = [] →
  findCardByFileName d container (getFileNameFromPath canvasPath)
    = head (filter (hasNameElement d) (cardsOf d container)) ∧
  ∀ getResourcePath imagePath count out card cover,
    head (filter (hasNameElement d) (cardsOf d container)) = Some card →
    querySelector d card (ByClass (str "bases-cards-cover")) = Some cover →
    marked d cover = false →
    getAttribute
      (document (forEachEntry (FileSystemAdapter getResourcePath) container
                   {| document := d; updatedCount := count; output := out |}
                   (canvasPath, imagePath)))
      cover markerAttribute = Some canvasPath ∧
    updatedCount (forEachEntry (FileSystemAdapter getResourcePath) container
                    {| document := d; updatedCount := count; output := out |}
                    (canvasPath, imagePath)) = S count.
Proof.
  intros Hkey. rewrite Hkey.
  assert (findCardByFileName d container [] =
          head (filter (hasNameElement d) (cardsOf d container))) as Hfind
    by apply findCardLoop_empty.
  split; [exact Hfind|].
  intros g img count out card cover Hcard Hcover Hm.
  assert (coverFor d container canvasPath = Some cover) as Hc.
  { unfold coverFor. rewrite Hkey, Hfind, Hcard. exact Hcover. }
  rewrite (forEachEntry_unmarked (FileSystemAdapter g) container
             {| document := d; updatedCount := count; output := out |}
             canvasPath img cover Hc Hm).
  cbn [document updatedCount]. split; [|done].
  apply setCardThumbnail_marker. eapply coverFor_is_Some, Hc.
Qed.

Lemma empty_key_decorates_first_named_card_witness :
  getFileNameFromPath Demo.suffixOnly = [] ∧
  findCardByFileName Demo.cardsView 0 (getFileNameFromPath Demo.suffixOnly) = Some 1 ∧
  cardFileName Demo.cardsView 1 = Some (str "Alpha") ∧
  getAttribute
    (document (forEachEntry Demo.desktop 0
                 {| document := Demo.cardsView; updatedCount := 0; output := [] |}
                 (Demo.suffixOnly, str "Projects/cover.png")))
    2 markerAttribute = Some Demo.suffixOnly.
Proof.
  assert (getFileNameFromPath Demo.suffixOnly = []) as Hkey by reflexivity.
  destruct (empty_key_decorates_first_named_card Demo.cardsView 0 Demo.suffixOnly Hkey)
    as [Hfind Hdec].
  split; [exact Hkey|]. split; [|split].
  - rewrite Hfind. vm_compute. reflexivity.
  - vm_compute. reflexivity.
  - apply (Hdec Demo.resourcePath (str "Projects/cover.png") 0 [] 1 2).
    + vm_compute. reflexivity.
    + vm_compute. reflexivity.
    + vm_compute. reflexivity.
Defined.

(** ** Clearing *)

Section clearing.

Implicit Types d : Document.

Lemma foldl_ext {A B} (f g : A → B → A) (l : list B) (a : A) :
  (∀ a b, f a b = g a b) → foldl f a l = foldl g a l.
Proof.
  intros H. revert a. induction l as [|b l IH]; intros a; cbn [foldl]; [done|].
  by rewrite H, IH.
Qed.

Lemma alter_alter d el (f g : Node → Node) :
  alter f el (alter g el d) = alter (f ∘ g) el d.
Proof.
  apply list_eq. intros i. destruct (decide (el = i)) as [->|Hne].
  - rewrite !list_lookup_alter_eq. by destruct (d !! i).
  - by rewrite !list_lookup_alter_ne.
Qed.

Lemma clearElement_alter d el : clearElement d el = alter clearNode el d.
Proof.
  unfold clearElement, removeAttribute, setBackgroundImage.
  by rewrite !alter_alter.
Qed.

Lemma unloadElement_alter d el : unloadElement d el = alter unloadNode el d.
Proof.
  unfold unloadElement, removeAttribute, setBackgroundImage.
  by rewrite !alter_alter.
Qed.

Lemma foldl_alter_lookup (f : Node → Node) (l : list Handle) d i :
  NoDup l →
  foldl (λ d el, alter f el d) d l !! i =
  if decide (i ∈ l) then f <$> d !! i else d !! i.
Proof.
  revert d. induction l as [|el l IH]; intros d Hnd; cbn [foldl].
  - rewrite decide_False; [done | apply not_elem_of_nil].
  - apply NoDup_cons in Hnd as [Hel Hnd]. rewrite (IH _ Hnd).
    destruct (decide (i = el)) as [->|Hne].
    + rewrite (decide_False _ _ Hel), decide_True by left.
      apply list_lookup_alter_eq.
    + rewrite list_lookup_alter_ne by done.
      destruct (decide (i ∈ l)) as [Hin|Hnin].
      * by rewrite decide_True by by right.
      * rewrite decide_False; [done|]. rewrite elem_of_cons. tauto.
Qed.

Lemma decoratedElements_NoDup d sel : NoDup (documentQuerySelectorAll d sel).
Proof. apply NoDup_filter, NoDup_seq. Qed.

Lemma elem_of_documentQuerySelectorAll d sel i :
  i ∈ documentQuerySelectorAll d sel ↔ matchesAt d sel i = true.
Proof.
  unfold documentQuerySelectorAll. rewrite list_elem_of_filter, elem_of_seq.
  split; [tauto|]. intros H. split; [done|].
  apply matchesAt_is_Some, lookup_lt_is_Some in H. lia.
Qed.

(** [clearAllThumbnails] turns every element that carries the marker into
    its cleared form, without the marker, without the image path and with
    the background image reset, and leaves every other node as it is. *)
Lemma clearAllThumbnails_lookup d i :
  (clearAllThumbnails d).1 !! i =
  if matchesAt d (HasAttribute markerAttribute) i then clearNode <$> d !! i else d !! i.
Proof.
  unfold clearAllThumbnails. cbn [fst].
  rewrite (foldl_ext _ (λ d el, alter clearNode el d))
    by (intros; apply clearElement_alter).
  rewrite foldl_alter_lookup by apply decoratedElements_NoDup.
  destruct (matchesAt d _ i) eqn:Hm.
  - by rewrite decide_True by by apply elem_of_documentQuerySelectorAll.
  - rewrite decide_False; [done|].
    rewrite elem_of_documentQuerySelectorAll. congruence.
Qed.

(** The teardown of [onunload] does the same with [unloadNode]. *)
Lemma onunload_lookup w i :
  dom (onunload w) !! i =
  if matchesAt (dom w) (HasAttribute markerAttribute) i
  then unloadNode <$> dom w !! i else dom w !! i.
Proof.
  unfold onunload. cbn [dom setDom].
  set (w1 := write [LogUnload] w).
  set (w2 := match cardObserver w1 with Some _ => _ | None => _ end).
  set (w3 := match updateTimeout w2 with Some (S _) => _ | _ => _ end).
  assert (dom w3 = dom w) as ->.
  { subst w3. transitivity (dom w2).
    - destruct (updateTimeout w2) as [[|?]|]; done.
    - subst w2. by destruct (cardObserver w1). }
  rewrite (foldl_ext _ (λ d el, alter unloadNode el d))
    by (intros; apply unloadElement_alter).
  rewrite foldl_alter_lookup by apply decoratedElements_NoDup.
  destruct (matchesAt (dom w) _ i) eqn:Hm.
  - by rewrite decide_True by by apply elem_of_documentQuerySelectorAll.
  - rewrite decide_False; [done|].
    rewrite elem_of_documentQuerySelectorAll. congruence.
Qed.

Lemma clearNode_cleared n :
  attrGet (attributes (clearNode n)) markerAttribute = None ∧
  attrGet (attributes (clearNode n)) imagePathAttribute = None ∧
  backgroundImage (style (clearNode n)) = [].
Proof.
  unfold clearNode. cbn [attributes withAttributes style withStyle backgroundImage].
  rewrite !attrGet_attrRemove. rewrite !streq_refl.
  by change (streq imagePathAttribute markerAttribute) with false.
Qed.

Lemma unloadNode_cleared n :
  attrGet (attributes (unloadNode n)) markerAttribute = None ∧
  attrGet (attributes (unloadNode n)) imagePathAttribute
    = attrGet (attributes n) imagePathAttribute ∧
  backgroundImage (style (unloadNode n)) = [].
Proof.
  unfold unloadNode. cbn [attributes withAttributes style withStyle backgroundImage].
  rewrite !attrGet_attrRemove. rewrite !streq_refl.
  by change (streq markerAttribute imagePathAttribute) with false.
Qed.

End clearing.

(** X1. [clearAllThumbnails]: every element that carries the marker loses the
    marker and the image path and has its background image reset; every
    other node is left as it is; afterwards no element carries the marker;
    and on a document without decorated elements the call changes nothing. *)
Theorem clearAllThumbnails_clears d :
  (∀ el, matchesAt d (HasAttribute markerAttribute) el = true →
     getAttribute (clearAllThumbnails d).1 el markerAttribute = None ∧
     getAttribute (clearAllThumbnails d).1 el imagePathAttribute = None ∧
     backgroundImageOf (clearAllThumbnails d).1 el = Some []) ∧
  (∀ i, matchesAt d (HasAttribute markerAttribute) i = false →
     (clearAllThumbnails d).1 !! i = d !! i) ∧
  documentQuerySelectorAll (clearAllThumbnails d).1 (HasAttribute markerAttribute) = [] ∧
  (documentQuerySelectorAll d (HasAttribute markerAttribute) = [] →
   clearAllThumbnails d = (d, [LogCleared 0])).
Proof.
  split; [|split; [|split]].
  - intros el Hm. unfold getAttribute, backgroundImageOf.
    rewrite clearAllThumbnails_lookup, Hm.
    destruct (matchesAt_is_Some _ _ _ Hm) as [n ->].
    cbn [fmap option_fmap option_map mbind option_bind].
    destruct (clearNode_cleared n) as (-> & -> & ->). done.
  - intros i Hm. by rewrite clearAllThumbnails_lookup, Hm.
  - apply elem_of_nil_inv. intros i Hi.
    apply elem_of_documentQuerySelectorAll in Hi.
    unfold matchesAt in Hi. rewrite clearAllThumbnails_lookup in Hi.
    destruct (matchesAt d _ i) eqn:Hm.
    + destruct (d !! i) as [n|];
        cbn [fmap option_fmap option_map mbind option_bind] in Hi; [|done].
      unfold matchesNode in Hi. apply andb_true_iff in Hi as [_ Hi].
      apply bool_decide_eq_true in Hi.
      destruct (clearNode_cleared n) as (Hn & _). rewrite Hn in Hi.
      by destruct Hi.
    + unfold matchesAt in Hm. destruct (d !! i); congruence.
  - intros Hnone. unfold clearAllThumbnails. by rewrite Hnone.
Qed.

(** X2. The teardown of [onunload]: every element that carries the marker
    loses the marker and has its background image reset; every other node
    is left as it is; and on a document without decorated elements the
    document is left as it is. *)
Theorem onunload_clears_markers w :
  (∀ el, matchesAt (dom w) (HasAttribute markerAttribute) el = true →
     getAttribute (dom (onunload w)) el markerAttribute = None ∧
     backgroundImageOf (dom (onunload w)) el = Some []) ∧
  (∀ i, matchesAt (dom w) (HasAttribute markerAttribute) i = false →
     dom (onunload w) !! i = dom w !! i) ∧
  (documentQuerySelectorAll (dom w) (HasAttribute markerAttribute) = [] →
   dom (onunload w) = dom w).
Proof.
  split; [|split].
  - intros el Hm. unfold getAttribute, backgroundImageOf.
    rewrite onunload_lookup, Hm.
    destruct (matchesAt_is_Some _ _ _ Hm) as [n ->].
    cbn [fmap option_fmap option_map mbind option_bind].
    destruct (unloadNode_cleared n) as (-> & _ & ->). done.
  - intros i Hm. by rewrite onunload_lookup, Hm.
  - intros Hnone. apply list_eq. intros i. rewrite onunload_lookup.
    destruct (matchesAt (dom w) _ i) eqn:Hm; [|done].
    apply elem_of_documentQuerySelectorAll in Hm. rewrite Hnone in Hm.
    by apply elem_of_nil in Hm.
Qed.

(** C4. The teardown of [onunload] never removes the [data-image-path]
    attribute: every element keeps the value it had. On the decorated
    cards view the cover of the first card carries the marker and the image
    path; after [onunload] the marker is gone and the image path is still
    there, where [clearAllThumbnails] removes both. *)
Theorem onunload_keeps_image_path :
  (∀ w el, getAttribute (dom (onunload w)) el imagePathAttribute
           = getAttribute (dom w) el imagePathAttribute) ∧
  getAttribute Demo.decorated 2 markerAttribute = Some (str "Projects/Alpha.canvas") ∧
  getAttribute Demo.decorated 2 imagePathAttribute = Some (str "Projects/cover.png") ∧
  getAttribute (dom (onunload (initial Demo.decorated))) 2 markerAttribute = None ∧
  getAttribute (dom (onunload (initial Demo.decorated))) 2 imagePathAttribute
    = Some (str "Projects/cover.png") ∧
  getAttribute (clearAllThumbnails Demo.decorated).1 2 imagePathAttribute = None.
Proof.
  split.
  - intros w el. unfold getAttribute. rewrite onunload_lookup.
    destruct (matchesAt (dom w) _ el); [|done].
    destruct (dom w !! el) as [n|];
      cbn [fmap option_fmap option_map mbind option_bind]; [|done].
    by destruct (unloadNode_cleared n) as (_ & -> & _).
  - repeat split; vm_compute; reflexivity.
Qed.

(** ** The canvas scan *)

Section mapFacts.

Implicit Types m : JSMap.t.

Lemma get_set m k v k' :
  JSMap.get (JSMap.set m k v) k' = if streq k k' then Some v else JSMap.get m k'.
Proof.
  induction m as [|[k0 v0] m IH]; simpl.
  - done.
  - destruct (streq k0 k) eqn:E0; simpl.
    + apply streq_true in E0 as ->. by destruct (streq k k').
    + rewrite IH. destruct (streq k0 k') eqn:E1; [|done].
      apply streq_true in E1 as ->. by rewrite streq_sym, E0.
Qed.

End mapFacts.

Section scanFacts.

Variable JSON_parse : jsstring → option json.
Variable vault : Vault.

Lemma isString_true v s : isString v s = true ↔ v = Some (JString s).
Proof.
  unfold isString. destruct v as [[| | |t| |]|]; try (split; [done|intros [=]]).
  rewrite streq_true. split; [by intros -> | by intros [= ->]].
Qed.

Lemma arrayIncludes_true a s : arrayIncludes a s = true ↔ s ∈ a.
Proof. unfold arrayIncludes. apply bool_decide_eq_true. Qed.

Lemma ImageNode_functional node f g :
  ImageNode vault node f → ImageNode vault node g → f = g.
Proof.
  intros (fs & file & -> & _ & Hf & _ & Hr & _) (fs' & file' & [= <-] & _ & Hf' & _ & Hr' & _).
  congruence.
Qed.

(** What the loop does at one element of the node array. *)
Lemma nodesLoop_cons c node :
  (∃ f, ImageNode vault node f ∧
        ∀ rest st, nodesLoop vault c (node :: rest) st = Normal (found c f st)) ∨
  (ThrowingNode vault node ∧ (∀ g, ¬ ImageNode vault node g) ∧
   ∀ rest st, nodesLoop vault c (node :: rest) st = Throw) ∨
  ((∀ g, ¬ ImageNode vault node g) ∧ ¬ ThrowingNode vault node ∧
   ∀ rest st, nodesLoop vault c (node :: rest) st = nodesLoop vault c rest st).
Proof.
  destruct node as [| b | q | s | items | fields].
  1: { right; left. split; [by left|]. split; [|done].
       intros g (? & ? & ? & _). done. }
  1-4: right; right;
       (split; [intros g (? & ? & ? & _); done
               | split; [intros [?|(? & ? & ? & ? & _)]; done | done]]).
  destruct (isString (fieldGet fields (str "type")) (str "file")) eqn:Hty.
  2:{ right; right. split; [|split].
      - intros g (fs & file & [= <-] & Ht & _).
        apply isString_true in Ht. congruence.
      - intros [?|(fs & file & p & [= <-] & Ht & _)]; [done|].
        apply isString_true in Ht. congruence.
      - intros rest st. cbn [nodesLoop getProp]. by rewrite Hty. }
  destruct (Scan.truthy (fieldGet fields (str "file"))) eqn:Htr.
  2:{ right; right. split; [|split].
      - intros g (fs & file & [= <-] & _ & Hf & Ht & _). congruence.
      - intros [?|(fs & file & p & [= <-] & _ & Hf & Ht & _)]; [done|]. congruence.
      - intros rest st. cbn [nodesLoop getProp]. by rewrite Hty, Htr. }
  destruct (fieldGet fields (str "file")) as [file|] eqn:Hfile; [|done].
  apply isString_true in Hty as Hty'.
  destruct (getAbstractFileByPath vault file) as [[nf | p]|] eqn:Hres.
  - destruct (arrayIncludes pictureExtensions (toLowerCase (extension nf))) eqn:Hext.
    + left. exists nf. split.
      * exists fields, file. repeat split; try done. by apply arrayIncludes_true.
      * intros rest st. cbn [nodesLoop getProp]. rewrite Hty, Hfile, Htr.
        cbn [mbind option_bind]. by rewrite Hres, Hext.
    + right; right. split; [|split].
      * intros g (fs & file' & [= <-] & _ & Hf & _ & Hr & He).
        apply arrayIncludes_true in He. congruence.
      * intros [?|(fs & file' & p & [= <-] & _ & Hf & _ & Hr)]; [done|]. congruence.
      * intros rest st. cbn [nodesLoop getProp]. rewrite Hty, Hfile, Htr.
        cbn [mbind option_bind]. by rewrite Hres, Hext.
  - right; left. split; [|split].
    + right. exists fields, file, p. done.
    + intros g (fs & file' & [= <-] & _ & Hf & _ & Hr & _). congruence.
    + intros rest st. cbn [nodesLoop getProp]. rewrite Hty, Hfile, Htr.
      cbn [mbind option_bind]. by rewrite Hres.
  - right; right. split; [|split].
    + intros g (fs & file' & [= <-] & _ & Hf & _ & Hr & _). congruence.
    + intros [?|(fs & file' & p & [= <-] & _ & Hf & _ & Hr)]; [done|]. congruence.
    + intros rest st. cbn [nodesLoop getProp]. rewrite Hty, Hfile, Htr.
      cbn [mbind option_bind]. by rewrite Hres.
Qed.

End scanFacts.

Section scanLoopFacts.

Variable JSON_parse : jsstring → option json.
Variable vault : Vault.

Local Abbreviation mapOf := Scan.canvasWithThumbnail.

Lemma ReachedImage_functional nodes f g :
  ReachedImage vault nodes f → ReachedImage vault nodes g → f = g.
Proof.
  intros (i & n & Hi & Hn & Hfirst & _) (i' & n' & Hi' & Hn' & Hfirst' & _).
  destruct (lt_eq_lt_dec i i') as [[Hlt | ->] | Hlt].
  - destruct (Hfirst' i n Hlt Hi f Hn).
  - assert (n = n') as -> by congruence. by eapply ImageNode_functional.
  - destruct (Hfirst i' n' Hlt Hi' g Hn').
Qed.

Lemma nodesLoop_spec c nodes st :
  (∃ f, ReachedImage vault nodes f ∧
        nodesLoop vault c nodes st = Normal (found c f st)) ∨
  ((∀ f, ¬ ReachedImage vault nodes f) ∧
   (nodesLoop vault c nodes st = Normal st ∨ nodesLoop vault c nodes st = Throw)).
Proof.
  induction nodes as [|node rest IH].
  - right. split; [|by left]. intros f (i & n & Hi & _). done.
  - destruct (nodesLoop_cons vault c node)
      as [(f & Himg & Hloop) | [(Hthrow & Hnot & Hloop) | (Hnot & Hnothrow & Hloop)]].
    + left. exists f. split; [|apply Hloop].
      exists 0, node. repeat split; [done| |]; intros j e Hj; lia.
    + right. split; [|right; apply Hloop].
      intros f ([|i] & n & Hi & Hn & _ & Hno).
      * injection Hi as <-. by apply (Hnot f).
      * apply (Hno 0 node); [lia | done | done].
    + rewrite Hloop. destruct IH as [(f & Hreach & ->) | (Hnone & Hres)].
      * left. exists f. split; [|done].
        destruct Hreach as (i & n & Hi & Hn & Hfirst & Hno).
        exists (S i), n. repeat split; [done..| |].
        -- intros [|j] e Hj He; [injection He as <-; apply Hnot|].
           apply (Hfirst j); [lia | done].
        -- intros [|j] e Hj He; [by injection He as <-|].
           apply (Hno j); [lia | done].
      * right. split; [|done].
        intros f ([|i] & n & Hi & Hn & Hfirst & Hno).
        -- injection Hi as <-. by apply (Hnot f).
        -- apply (Hnone f). exists i, n. repeat split; [done..| |].
           ++ intros j e Hj He. apply (Hfirst (S j)); [lia | done].
           ++ intros j e Hj He. apply (Hno (S j)); [lia | done].
Qed.

Lemma HasNodes_functional c nodes nodes' :
  HasNodes JSON_parse vault c nodes → HasNodes JSON_parse vault c nodes' → nodes = nodes'.
Proof. intros (? & ? & ? & ? & ?) (? & ? & ? & ? & ?). congruence. Qed.

Lemma Thumbnail_functional c f g :
  Thumbnail JSON_parse vault c f → Thumbnail JSON_parse vault c g → f = g.
Proof.
  intros (nodes & Hn & Hr) (nodes' & Hn' & Hr').
  rewrite <- (HasNodes_functional _ _ _ Hn Hn') in Hr'.
  by eapply ReachedImage_functional.
Qed.

(** One turn of the outer loop: the thumbnail of the document is recorded,
    or the map is left as it is. *)
Lemma scanCanvasFile_spec st c :
  (∃ f, Thumbnail JSON_parse vault c f ∧
        scanCanvasFile JSON_parse vault st c = found c f st) ∨
  ((∀ f, ¬ Thumbnail JSON_parse vault c f) ∧
   (scanCanvasFile JSON_parse vault st c = st ∨
    scanCanvasFile JSON_parse vault st c = failed c st)).
Proof.
  unfold scanCanvasFile, tryCanvasFile.
  destruct (read vault c) as [content|] eqn:Hread.
  2:{ right. split; [|by right]. intros f (nodes & (? & ? & ? & _) & _). congruence. }
  destruct (JSON_parse content) as [canvasData|] eqn:Hparse.
  2:{ right. split; [|by right]. intros f (nodes & (? & ? & ? & ? & _) & _). congruence. }
  assert (∀ nodes, HasNodes JSON_parse vault c nodes →
            ∃ fields, canvasData = JObject fields ∧
                      fieldGet fields (str "nodes") = Some (JArray nodes)) as Hnodes.
  { intros nodes (content' & fields & Hr & Hp & Hf). exists fields.
    split; [congruence | done]. }
  destruct canvasData as [| b | q | s | items | fields]; cbn [getProp].
  1-5: right; (split; [|by (left + right)]);
       intros f (nodes & Hn & _); by destruct (Hnodes nodes Hn) as (? & ? & _).
  destruct (fieldGet fields (str "nodes")) as [[| b | q | s | nodes | fs]|] eqn:Hf.
  1-4,6-7: right; (split; [|by left]);
       intros f (nodes' & Hn & _); destruct (Hnodes nodes' Hn) as (? & [= <-] & ?);
       congruence.
  destruct (nodesLoop_spec c nodes st) as [(f & Hreach & ->) | (Hnone & [-> | ->])].
  - left. exists f. split; [|done]. exists nodes. split; [|done].
    exists content, fields. done.
  - right. split; [|by left].
    intros f (nodes' & Hn & Hr). destruct (Hnodes nodes' Hn) as (? & [= <-] & ?).
    apply (Hnone f). congruence.
  - right. split; [|by right].
    intros f (nodes' & Hn & Hr). destruct (Hnodes nodes' Hn) as (? & [= <-] & ?).
    apply (Hnone f). congruence.
Qed.

End scanLoopFacts.

Section scanMap.

Variable JSON_parse : jsstring → option json.
Variable vault : Vault.

Local Abbreviation mapOf := Scan.canvasWithThumbnail.
Local Abbreviation loop := (scanLoop JSON_parse vault).
Local Abbreviation Thumb := (Thumbnail JSON_parse vault).

Lemma scanLoop_cons c files st :
  loop (c :: files) st = loop files (scanCanvasFile JSON_parse vault st c).
Proof. done. Qed.

Lemma scanLoop_app before after st :
  loop (before ++ after) st = loop after (loop before st).
Proof. unfold scanLoop. apply foldl_app. Qed.

(** The map after the outer loop: a key is mapped to the thumbnail of the
    document of that path, and a key of no document with a thumbnail keeps
    the value it had. *)
Lemma scanLoop_get files st k v :
  NoDup (path <$> files) →
  JSMap.get (mapOf (loop files st)) k = Some v ↔
  (∃ c f, c ∈ files ∧ path c = k ∧ Thumb c f ∧ v = path f) ∨
  (JSMap.get (mapOf st) k = Some v ∧ ∀ c f, c ∈ files → path c = k → ¬ Thumb c f).
Proof.
  revert st. induction files as [|c rest IH]; intros st Hnd.
  - cbn. split.
    + intros H. right. split; [done|]. intros c f Hc. by apply elem_of_nil in Hc.
    + intros [(c & f & Hc & _) | [H _]]; [by apply elem_of_nil in Hc | done].
  - rewrite fmap_cons in Hnd. apply NoDup_cons in Hnd as [Hfresh Hnd].
    rewrite scanLoop_cons, (IH _ Hnd).
    assert (∀ c', c' ∈ rest → path c' ≠ path c) as Hother.
    { intros c' Hc' Heq. apply Hfresh. rewrite <- Heq. by apply list_elem_of_fmap_2. }
    destruct (scanCanvasFile_spec JSON_parse vault st c)
      as [(f & Hf & ->) | (Hnone & Hst)].
    + cbn [found mapOf]. rewrite get_set. split.
      * intros [(c' & f' & Hc' & Hk & Ht & ->) | [Hget Hrest]].
        -- left. exists c', f'. repeat split; [by right | done..].
        -- destruct (streq (path c) k) eqn:E.
           ++ apply streq_true in E. injection Hget as <-.
              left. exists c, f. repeat split; [by left | done..].
           ++ right. split; [done|]. intros c' f' Hc' Hk.
              apply elem_of_cons in Hc' as [-> | Hc']; [|by apply Hrest].
              apply streq_false in E. done.
      * intros [(c' & f' & Hc' & Hk & Ht & ->) | [Hget Hrest]].
        -- apply elem_of_cons in Hc' as [-> | Hc'].
           ++ right. rewrite <- Hk, streq_refl.
              rewrite (Thumbnail_functional _ _ _ _ _ Ht Hf). split; [done|].
              intros c' g Hc' Heq. by destruct (Hother c' Hc').
           ++ left. by exists c', f'.
        -- right. destruct (streq (path c) k) eqn:E.
           ++ apply streq_true in E. destruct (Hrest c f); [by left | done | done].
           ++ split; [done|]. intros c' g Hc'. apply Hrest. by right.
    + assert (mapOf (scanCanvasFile JSON_parse vault st c) = mapOf st) as ->
        by by destruct Hst as [-> | ->].
      split.
      * intros [(c' & f' & Hc' & Hk & Ht & ->) | [Hget Hrest]].
        -- left. exists c', f'. repeat split; [by right | done..].
        -- right. split; [done|]. intros c' f' Hc' Hk.
           apply elem_of_cons in Hc' as [-> | Hc']; [apply Hnone | by apply Hrest].
      * intros [(c' & f' & Hc' & Hk & Ht & ->) | [Hget Hrest]].
        -- apply elem_of_cons in Hc' as [-> | Hc']; [by destruct (Hnone f')|].
           left. by exists c', f'.
        -- right. split; [done|]. intros c' g Hc'. apply Hrest. by right.
Qed.

(** The map after the outer loop depends on the state it starts from only
    through the map. *)
Lemma scanCanvasFile_map_ext st st' c :
  mapOf st = mapOf st' →
  mapOf (scanCanvasFile JSON_parse vault st c) = mapOf (scanCanvasFile JSON_parse vault st' c).
Proof.
  intros Heq.
  destruct (scanCanvasFile_spec JSON_parse vault st c) as [(f & Hf & ->) | (Hnone & Hst)];
  destruct (scanCanvasFile_spec JSON_parse vault st' c) as [(f' & Hf' & ->) | (Hnone' & Hst')].
  - cbn [found mapOf]. by rewrite Heq, (Thumbnail_functional _ _ _ _ _ Hf Hf').
  - by destruct (Hnone' f).
  - by destruct (Hnone f').
  - destruct Hst as [-> | ->], Hst' as [-> | ->]; done.
Qed.

Lemma scanLoop_map_ext files st st' :
  mapOf st = mapOf st' → mapOf (loop files st) = mapOf (loop files st').
Proof.
  revert st st'. induction files as [|c rest IH]; intros st st' Heq; [done|].
  rewrite !scanLoop_cons. by apply IH, scanCanvasFile_map_ext.
Qed.

Lemma scanLoop_output files st :
  ∃ extra, scanOutput (loop files st) = scanOutput st ++ extra.
Proof.
  revert st. induction files as [|c rest IH]; intros st.
  - exists []. by rewrite app_nil_r.
  - rewrite scanLoop_cons. destruct (IH (scanCanvasFile JSON_parse vault st c)) as [x ->].
    destruct (scanCanvasFile_spec JSON_parse vault st c) as [(f & _ & ->) | (_ & [-> | ->])];
      cbn [found failed scanOutput].
    + eexists. by rewrite <- app_assoc.
    + by eexists.
    + eexists. by rewrite <- app_assoc.
Qed.

End scanMap.

(** The entries of the map a scan leaves. *)
Lemma scanCanvasFiles_get JSON_parse vault m :
  NoDup (path <$> canvasFiles vault) →
  (∀ c img, c ∈ canvasFiles vault →
     (JSMap.get (scanCanvasFiles JSON_parse vault m).1 (path c) = Some img ↔
      ∃ nodes f, HasNodes JSON_parse vault c nodes ∧ ReachedImage vault nodes f ∧
                 img = path f)) ∧
  (∀ k, is_Some (JSMap.get (scanCanvasFiles JSON_parse vault m).1 k) →
        ∃ c, c ∈ canvasFiles vault ∧ path c = k).
Proof.
  intros Hnd. unfold scanCanvasFiles. cbn [fst JSMap.clear].
  split.
  - intros c img Hc. rewrite (scanLoop_get _ _ _ _ _ _ Hnd). cbn. split.
    + intros [(c' & f & Hc' & Hk & (nodes & Hn & Hr) & ->) | [[=] _]].
      assert (c' = c) as ->.
      { apply list_elem_of_lookup in Hc as [i Hi], Hc' as [i' Hi'].
        assert (i' = i) as ->; [|congruence].
        eapply NoDup_lookup; [exact Hnd | |]; rewrite list_lookup_fmap.
        - by rewrite Hi'.
        - by rewrite Hi, Hk. }
      by exists nodes, f.
    + intros (nodes & f & Hn & Hr & ->). left. exists c, f.
      repeat split; [done..|]. by exists nodes.
  - intros k [v Hv]. apply (scanLoop_get _ _ _ _ _ _ Hnd) in Hv
      as [(c & f & Hc & Hk & _) | [[=] _]].
    by exists c.
Qed.

(** X16. When no two canvas documents share a path, the map a scan leaves
    holds [img] at the path of a canvas document exactly when the document
    reads and parses as JSON with a [nodes] array in which the first node
    of type [file] whose referenced file exists and has a picture extension
    is reached, no element before it making the scan throw, and [img] is
    the path of the file that node refers to; every key of the map is the
    path of a canvas document of the vault; and the map does not depend on
    the map the plugin held before the scan. *)
Theorem scanCanvasFiles_first_reached_image JSON_parse vault m :
  NoDup (path <$> canvasFiles vault) →
  (∀ c img, c ∈ canvasFiles vault →
     (JSMap.get (scanCanvasFiles JSON_parse vault m).1 (path c) = Some img ↔
      ∃ nodes f, HasNodes JSON_parse vault c nodes ∧ ReachedImage vault nodes f ∧
                 img = path f)) ∧
  (∀ k, is_Some (JSMap.get (scanCanvasFiles JSON_parse vault m).1 k) →
        ∃ c, c ∈ canvasFiles vault ∧ path c = k) ∧
  scanCanvasFiles JSON_parse vault m = scanCanvasFiles JSON_parse vault [].
Proof.
  intros Hnd. destruct (scanCanvasFiles_get JSON_parse vault m Hnd) as [Hget Hkeys].
  split; [exact Hget|]. split; [exact Hkeys|]. done.
Qed.

Lemma scanCanvasFiles_first_reached_image_witness :
  NoDup (path <$> canvasFiles Demo.vault) ∧
  (JSMap.get (scanCanvasFiles Demo.parse Demo.vault Demo.thumbnails).1
     (path Demo.alphaCanvas) = Some (path Demo.coverPng) ↔
   ∃ nodes f, HasNodes Demo.parse Demo.vault Demo.alphaCanvas nodes ∧
              ReachedImage Demo.vault nodes f ∧ path Demo.coverPng = path f) ∧
  (scanCanvasFiles Demo.parse Demo.vault Demo.thumbnails).1 =
    [(path Demo.alphaCanvas, path Demo.coverPng)].
Proof.
  assert (NoDup (path <$> canvasFiles Demo.vault)) as Hnd
    by (apply (bool_decide_unpack _); vm_compute; exact I).
  destruct (scanCanvasFiles_first_reached_image Demo.parse Demo.vault Demo.thumbnails Hnd)
    as (Hiff & _ & _).
  split; [exact Hnd|]. split.
  - apply Hiff. apply (bool_decide_unpack _). vm_compute. exact I.
  - vm_compute. reflexivity.
Defined.

(** An element at which the scan throws, standing before every image node
    of the array, ends the loop over the nodes with an exception. *)
Lemma nodesLoop_throws vault c nodes j node st :
  nodes !! j = Some node → ThrowingNode vault node →
  (∀ k earlier, k < j → nodes !! k = Some earlier → ∀ g, ¬ ImageNode vault earlier g) →
  nodesLoop vault c nodes st = Throw.
Proof.
  revert j. induction nodes as [|node0 rest IH]; intros j Hj Hthrow Hno; [done|].
  destruct (nodesLoop_cons vault c node0)
    as [(f & Himg & Hloop) | [(_ & _ & Hloop) | (_ & Hnothrow & Hloop)]].
  - destruct j as [|j].
    + injection Hj as ->.
      destruct (nodesLoop_cons vault c node)
        as [(f' & _ & Hloop') | [(_ & Hnot & _) | (_ & Hnothrow & _)]].
      * destruct Hthrow as [-> | (fs & file & p & -> & _ & Hf & _ & Hres)].
        -- by destruct Himg as (? & ? & ? & _).
        -- destruct Himg as (fs' & file' & [= <-] & _ & Hf' & _ & Hres' & _). congruence.
      * by destruct (Hnot f).
      * done.
    + by destruct (Hno 0 node0 ltac:(lia) eq_refl f).
  - apply Hloop.
  - rewrite Hloop. destruct j as [|j].
    + injection Hj as ->. done.
    + apply (IH j); [done|done|].
      intros k earlier Hk He. apply (Hno (S k)); [lia | done].
Qed.

(** C1. A node of type [file] whose reference resolves to a folder makes
    the scan of its document throw, at [nodeFile.extension.toLowerCase()],
    and the handler of the [try] block only logs. So a canvas document
    that has such a node before its first image node gets no entry in the
    map, although it has a node of type [file] whose referenced file
    exists and has a picture extension: the scan writes the error for the
    document to the console and goes on. *)
Theorem scanCanvasFiles_folder_reference_hides_image
    JSON_parse vault m c nodes f j node :
  NoDup (path <$> canvasFiles vault) →
  c ∈ canvasFiles vault →
  HasNodes JSON_parse vault c nodes →
  FirstImageNode vault nodes f →
  nodes !! j = Some node → FolderNode vault node →
  (∀ k earlier, k < j → nodes !! k = Some earlier → ∀ g, ¬ ImageNode vault earlier g) →
  (∀ st, scanCanvasFile JSON_parse vault st c = failed c st) ∧
  JSMap.get (scanCanvasFiles JSON_parse vault m).1 (path c) = None ∧
  ErrCanvas (path c) ∈ (scanCanvasFiles JSON_parse vault m).2.
Proof.
  intros Hnd Hc Hnodes _ Hj Hfolder Hno.
  assert (ThrowingNode vault node) as Hthrow by by right.
  assert (∀ st, scanCanvasFile JSON_parse vault st c = failed c st) as Hturn.
  { intros st. unfold scanCanvasFile, tryCanvasFile.
    destruct Hnodes as (content & fields & -> & -> & Hf). cbn [getProp]. rewrite Hf.
    by rewrite (nodesLoop_throws vault c nodes j node st Hj Hthrow Hno). }
  split; [exact Hturn|]. split.
  - destruct (JSMap.get _ _) as [img|] eqn:Hget; [|done].
    apply (proj1 (scanCanvasFiles_get JSON_parse vault m Hnd)) in Hget
      as (nodes' & f' & Hnodes' & (i & n & Hi & Himg & Hfirst & Hnothrow) & _); [|done].
    rewrite <- (HasNodes_functional _ _ _ _ _ Hnodes Hnodes') in *.
    destruct (decide (j < i)) as [Hlt | Hge].
    + by destruct (Hnothrow j node Hlt Hj).
    + destruct (decide (i = j)) as [-> | Hne].
      * rewrite Hj in Hi. injection Hi as <-.
        destruct Hfolder as (fs & file & p & -> & _ & Hf & _ & Hres).
        destruct Himg as (fs' & file' & [= <-] & _ & Hf' & _ & Hres' & _). congruence.
      * by destruct (Hno i n ltac:(lia) Hi f').
  - unfold scanCanvasFiles. cbn [snd].
    apply list_elem_of_split in Hc as (before & after & ->).
    rewrite scanLoop_app, scanLoop_cons, Hturn.
    destruct (scanLoop_output JSON_parse vault after
                (failed c (scanLoop JSON_parse vault before
                   {| Scan.canvasWithThumbnail := JSMap.clear m;
                      scanOutput := [LogScanStart] |}))) as [extra ->].
    cbn [failed scanOutput]. rewrite !elem_of_app, list_elem_of_singleton. tauto.
Qed.

Lemma scanCanvasFiles_folder_reference_hides_image_witness :
  HasNodes Demo.parse Demo.vault Demo.folderCanvas
    [Demo.fileNode "Projects"; Demo.fileNode "Projects/Photo.JPG"] ∧
  FirstImageNode Demo.vault
    [Demo.fileNode "Projects"; Demo.fileNode "Projects/Photo.JPG"] Demo.photoJpg ∧
  FolderNode Demo.vault (Demo.fileNode "Projects") ∧
  JSMap.get (scanCanvasFiles Demo.parse Demo.vault []).1 (path Demo.folderCanvas) = None ∧
  ErrCanvas (path Demo.folderCanvas) ∈ (scanCanvasFiles Demo.parse Demo.vault []).2.
Proof.
  assert (NoDup (path <$> canvasFiles Demo.vault)) as Hnd
    by (apply (bool_decide_unpack _); vm_compute; exact I).
  assert (Demo.folderCanvas ∈ canvasFiles Demo.vault) as Hc
    by (apply (bool_decide_unpack _); vm_compute; exact I).
  assert (HasNodes Demo.parse Demo.vault Demo.folderCanvas
            [Demo.fileNode "Projects"; Demo.fileNode "Projects/Photo.JPG"]) as Hnodes
    by (by eexists _, _).
  assert (FolderNode Demo.vault (Demo.fileNode "Projects")) as Hfolder
    by (eexists _, _, _; repeat split; reflexivity).
  assert (FirstImageNode Demo.vault
            [Demo.fileNode "Projects"; Demo.fileNode "Projects/Photo.JPG"] Demo.photoJpg)
    as Himage.
  { exists 1, (Demo.fileNode "Projects/Photo.JPG"). split; [done|]. split.
    - eexists _, _. repeat split; try reflexivity.
      apply (bool_decide_unpack _). vm_compute. exact I.
    - intros [|[|k]] e Hk He g; [|lia..].
      injection He as <-. intros (fs & file & [= <-] & _ & [= <-] & _ & Hr & _).
      vm_compute in Hr. discriminate. }
  destruct (scanCanvasFiles_folder_reference_hides_image Demo.parse Demo.vault []
              Demo.folderCanvas _ Demo.photoJpg 0 _ Hnd Hc Hnodes Himage eq_refl Hfolder)
    as (_ & Hnone & Herr); [intros k earlier Hk; lia|].
  split; [exact Hnodes|]. split; [exact Himage|]. split; [exact Hfolder|].
  split; [exact Hnone | exact Herr].
Defined.

(** C8. When reading a canvas document fails or its content does not
    parse, its turn of the loop leaves the map as it was and writes the
    error to the console; the loop goes on with the documents after it from
    that state; the map at the end is the one a scan of the other documents
    gives; and, when the document is one of the canvas documents of the
    vault and no two of them share a path, the map of the whole scan holds
    no entry for it and the console output of the scan holds its error. *)
Theorem scan_failure_isolated JSON_parse vault c :
  ReadOrParseFails JSON_parse vault c →
  (∀ st, scanCanvasFile JSON_parse vault st c = failed c st) ∧
  (∀ before after st,
     scanLoop JSON_parse vault (before ++ c :: after) st =
     scanLoop JSON_parse vault after (failed c (scanLoop JSON_parse vault before st))) ∧
  (∀ before after st,
     Scan.canvasWithThumbnail (scanLoop JSON_parse vault (before ++ c :: after) st) =
     Scan.canvasWithThumbnail (scanLoop JSON_parse vault (before ++ after) st)) ∧
  (∀ m, c ∈ canvasFiles vault →
     ErrCanvas (path c) ∈ (scanCanvasFiles JSON_parse vault m).2 ∧
     (NoDup (path <$> canvasFiles vault) →
      JSMap.get (scanCanvasFiles JSON_parse vault m).1 (path c) = None)).
Proof.
  intros Hfail.
  assert (∀ st, scanCanvasFile JSON_parse vault st c = failed c st) as Hturn.
  { intros st. unfold scanCanvasFile, tryCanvasFile.
    destruct Hfail as [-> | (content & -> & ->)]; done. }
  assert (∀ before after st,
     scanLoop JSON_parse vault (before ++ c :: after) st =
     scanLoop JSON_parse vault after (failed c (scanLoop JSON_parse vault before st)))
    as Hgo.
  { intros before after st. by rewrite scanLoop_app, scanLoop_cons, Hturn. }
  split; [exact Hturn|]. split; [exact Hgo|]. split.
  - intros before after st. rewrite Hgo, scanLoop_app.
    by apply scanLoop_map_ext.
  - intros m Hc. split.
    + unfold scanCanvasFiles. cbn [snd].
      apply list_elem_of_split in Hc as (before & after & ->).
      rewrite Hgo.
      destruct (scanLoop_output JSON_parse vault after
                  (failed c (scanLoop JSON_parse vault before
                     {| Scan.canvasWithThumbnail := JSMap.clear m;
                        scanOutput := [LogScanStart] |}))) as [extra ->].
      cbn [failed scanOutput]. rewrite !elem_of_app, list_elem_of_singleton. tauto.
    + intros Hnd.
      destruct (JSMap.get _ _) as [img|] eqn:Hget; [|done].
      apply (proj1 (scanCanvasFiles_get JSON_parse vault m Hnd)) in Hget
        as (nodes & f & (content & fields & Hr & Hp & _) & _); [|done].
      destruct Hfail as [Hr' | (content' & Hr' & Hp')]; congruence.
Qed.

Lemma scan_failure_isolated_witness :
  ReadOrParseFails Demo.parse Demo.vault Demo.brokenCanvas ∧
  (∀ st, scanCanvasFile Demo.parse Demo.vault st Demo.brokenCanvas
         = failed Demo.brokenCanvas st) ∧
  ErrCanvas (path Demo.brokenCanvas) ∈ (scanCanvasFiles Demo.parse Demo.vault []).2 ∧
  JSMap.get (scanCanvasFiles Demo.parse Demo.vault []).1 (path Demo.brokenCanvas) = None ∧
  JSMap.get (scanCanvasFiles Demo.parse Demo.vault []).1 (path Demo.alphaCanvas)
    = Some (path Demo.coverPng).
Proof.
  assert (ReadOrParseFails Demo.parse Demo.vault Demo.brokenCanvas) as Hfail
    by (right; exists (str "broken"); split; reflexivity).
  destruct (scan_failure_isolated Demo.parse Demo.vault Demo.brokenCanvas Hfail)
    as (Hturn & _ & _ & Hscan).
  assert (Demo.brokenCanvas ∈ canvasFiles Demo.vault) as Hin
    by (apply (bool_decide_unpack _); vm_compute; exact I).
  destruct (Hscan [] Hin) as [Herr Hnone].
  split; [exact Hfail|]. split; [exact Hturn|]. split; [exact Herr|]. split.
  - apply Hnone. apply (bool_decide_unpack _). vm_compute. exact I.
  - vm_compute. reflexivity.
Defined.

(** ** The timers *)

Lemma filter_none {A} (P : A → Prop) `{!∀ x, Decision (P x)} (l : list A) :
  Forall (λ x, ¬ P x) l → filter P l = [].
Proof.
  induction 1 as [|x l Hx _ IH]; [done|].
  by rewrite filter_cons, decide_False.
Qed.

Section timers.

Variable JSON_parse : jsstring → option json.
Variable vault : Vault.
Variable adapter : DataAdapter.

Local Abbreviation react' := (react JSON_parse vault adapter).
Local Abbreviation run' := (run JSON_parse vault adapter).
Local Abbreviation elapse' := (elapse adapter).
Local Abbreviation tick' := (tick adapter).

(** Arming replaces the pending timer by the new one. *)
Lemma rearm_spec cb delay w :
  PendingOk w →
  rearm cb delay w =
  {| Plugin.canvasWithThumbnail := Plugin.canvasWithThumbnail w;
     updateTimeout := Some (nextTimerId w);
     cardObserver := cardObserver w; dom := dom w; now := now w;
     timers := [{| timerId := nextTimerId w; due := now w + delay; callback := cb |}];
     nextTimerId := S (nextTimerId w);
     scansInFlight := scansInFlight w; console := console w |}.
Proof.
  unfold PendingOk, rearm. destruct w as [m u o d n ts nx sc co]. cbn.
  destruct ts as [|t [|t' ts]]; [|intros ->|done].
  - by destruct u.
  - cbn. by rewrite decide_False by (intros H; by apply H).
Qed.

Lemma rearm_PendingOk cb delay w : PendingOk w → PendingOk (rearm cb delay w).
Proof. intros H. by rewrite (rearm_spec cb delay w H). Qed.

Lemma runCallback_PendingOk cb w :
  PendingOk w → PendingOk (runCallback adapter cb w).
Proof.
  intros H. destruct cb; cbn [runCallback].
  - by apply rearm_PendingOk.
  - by destruct (addCardThumbnails _ _ _).
  - done.
Qed.

(** A tick at which no timer is due only moves the clock. *)
Lemma tick_idle w :
  Forall (λ t, S (now w) < due t) (timers w) → tick' w = setNow (S (now w)) w.
Proof.
  intros H. unfold tick. cbn [setNow now timers].
  rewrite filter_none; [done|].
  eapply Forall_impl; [exact H|]. cbn. intros t. lia.
Qed.

(** A tick at which the one pending timer is due removes it from the table
    and runs its callback. *)
Lemma tick_fire w t :
  timers w = [t] → due t = S (now w) →
  tick' w = runCallback adapter (callback t) (setTimers [] (nextTimerId w) (setNow (S (now w)) w)).
Proof.
  intros Ht Hd. unfold tick. cbn [setNow now timers]. rewrite Ht.
  rewrite filter_cons, decide_True by lia. rewrite filter_nil. cbn [foldl].
  unfold fire. cbn [timers nextTimerId setNow]. rewrite Ht.
  rewrite bool_decide_eq_true_2 by (cbn; left).
  by rewrite filter_cons, decide_False by (intros H; by apply H).
Qed.

Lemma tick_PendingOk w : PendingOk w → PendingOk (tick' w).
Proof.
  intros H. unfold PendingOk in H.
  destruct (timers w) as [|t [|t' ts]] eqn:Ht; [| |done].
  - rewrite tick_idle by (rewrite Ht; constructor).
    unfold PendingOk. cbn. by rewrite Ht.
  - destruct (decide (S (now w) < due t)) as [Hlt|Hge].
    + rewrite tick_idle by (rewrite Ht; by repeat constructor).
      unfold PendingOk. cbn. by rewrite Ht.
    + unfold tick. cbn [setNow now timers]. rewrite Ht.
      rewrite filter_cons, decide_True by lia. rewrite filter_nil. cbn [foldl].
      unfold fire. cbn [timers nextTimerId setNow]. rewrite Ht.
      rewrite bool_decide_eq_true_2 by (cbn; left).
      rewrite filter_cons, decide_False by (intros H'; by apply H').
      by apply runCallback_PendingOk.
Qed.

Lemma elapse_PendingOk ms w : PendingOk w → PendingOk (elapse' ms w).
Proof.
  revert w. induction ms as [|ms IH]; intros w H; [done|].
  cbn [elapse]. by apply IH, tick_PendingOk.
Qed.

Lemma onunload_PendingOk w : PendingOk w → PendingOk (onunload w).
Proof.
  unfold PendingOk, onunload. destruct w as [m u o d n ts nx sc co]. cbn.
  destruct ts as [|t [|t' ts]]; [| |done].
  - intros _. destruct o, u as [[|i]|]; done.
  - intros ->. destruct o, (timerId t) as [|i] eqn:Hid; cbn; rewrite ?Hid; try done.
    all: by rewrite decide_False by (intros H; by apply H).
Qed.

Lemma react_PendingOk w i : PendingOk w → PendingOk (react' w i).
Proof.
  intros H. destruct i; cbn [react].
  - by apply rearm_PendingOk.
  - by apply rearm_PendingOk.
  - done.
  - unfold completeScan. destruct (scansInFlight w); [done|].
    destruct (scanCanvasFiles _ _ _). by apply rearm_PendingOk.
  - by apply elapse_PendingOk.
  - by apply onunload_PendingOk.
Qed.

Lemma run_PendingOk inputs w : PendingOk w → PendingOk (run' w inputs).
Proof.
  revert w. induction inputs as [|i inputs IH]; intros w H; [done|].
  apply IH. by apply react_PendingOk.
Qed.

Lemma PendingOk_length w : PendingOk w → length (timers w) ≤ 1.
Proof.
  unfold PendingOk. destruct (timers w) as [|t [|t' ts]]; cbn; [lia | lia | done].
Qed.

Lemma elapse_add a b w : elapse' (a + b) w = elapse' b (elapse' a w).
Proof. revert w. induction a as [|a IH]; intros w; [done|]. cbn [Nat.add elapse]. apply IH. Qed.

(** While no timer comes due, time passing only moves the clock. *)
Lemma elapse_idle ms w :
  Forall (λ t, now w + ms < due t) (timers w) →
  elapse' ms w = setNow (now w + ms) w.
Proof.
  revert w. induction ms as [|ms IH]; intros w H.
  - cbn [elapse]. rewrite Nat.add_0_r. by destruct w.
  - cbn [elapse]. rewrite tick_idle
      by (eapply Forall_impl; [exact H|]; cbn; intros t; lia).
    rewrite IH.
    + destruct w. unfold setNow. cbn. f_equal. lia.
    + cbn [setNow now timers]. eapply Forall_impl; [exact H|]. cbn. intros t. lia.
Qed.

End timers.

Section debounce.

Variable JSON_parse : jsstring → option json.
Variable vault : Vault.
Variable adapter : DataAdapter.

Local Abbreviation run' := (run JSON_parse vault adapter).
Local Abbreviation elapse' := (elapse adapter).

(** Time passing until the one pending timer is due: the timer leaves the
    table and its callback runs at the time it was due. *)
Lemma elapse_until_due w t :
  timers w = [t] → now w < due t →
  elapse' (due t - now w) w =
  runCallback adapter (callback t) (setTimers [] (nextTimerId w) (setNow (due t) w)).
Proof.
  intros Ht Hlt.
  replace (due t - now w) with ((due t - now w - 1) + 1) by lia.
  rewrite elapse_add, (elapse_idle adapter (due t - now w - 1) w)
    by (rewrite Ht; repeat constructor; lia).
  cbn [elapse]. rewrite (tick_fire adapter _ t).
  - destruct w. unfold setTimers, setNow. cbn. cbn in Hlt. do 2 f_equal. lia.
  - by destruct w.
  - destruct w. cbn. cbn in Hlt. lia.
Qed.

(** Each entry writes no opening message of a pass. *)
Lemma forEachEntry_output container st e :
  ∃ extra, output (forEachEntry adapter container st e) = output st ++ extra ∧
           Forall (λ ev, ∀ n, ev ≠ LogStart n) extra.
Proof.
  destruct e as [cp img]. unfold forEachEntry.
  destruct (findCardByFileName _ _ _) as [card|].
  - destruct (querySelector _ _ _) as [cover|].
    + destruct (negb _).
      * destruct adapter as [g|]; cbn; eexists; (split; [done|]);
          by repeat constructor.
      * exists []. by rewrite app_nil_r.
    + exists []. by rewrite app_nil_r.
  - cbn. eexists. split; [done|]. by repeat constructor.
Qed.

Lemma foldl_forEachEntry_output container data st :
  ∃ extra, output (foldl (forEachEntry adapter container) st data) = output st ++ extra ∧
           Forall (λ ev, ∀ n, ev ≠ LogStart n) extra.
Proof.
  revert st. induction data as [|e data IH]; intros st; cbn [foldl].
  - exists []. by rewrite app_nil_r.
  - destruct (IH (forEachEntry adapter container st e)) as (x2 & -> & H2).
    destruct (forEachEntry_output container st e) as (x1 & -> & H1).
    exists (x1 ++ x2). split; [by rewrite app_assoc | by apply Forall_app].
Qed.

(** A call of [addCardThumbnails] writes its opening message once. *)
Lemma addCardThumbnails_one_pass data d time :
  omap (λ te : nat * Event, match te.2 with LogStart _ => Some te.1 | _ => None end)
    ((λ e, (time, e)) <$> (addCardThumbnails adapter data d).2) = [time].
Proof.
  assert (∀ extra, Forall (λ ev, ∀ n, ev ≠ LogStart n) extra →
            omap (λ te : nat * Event,
                    match te.2 with LogStart _ => Some te.1 | _ => None end)
              ((λ e, (time, e)) <$> extra) = []) as Hnone.
  { induction 1 as [|ev extra Hev _ IH]; [done|].
    cbn. rewrite IH. destruct ev; try done. by destruct (Hev size). }
  unfold addCardThumbnails. destruct (documentQuerySelector d _) as [c|]; cbn [snd].
  - destruct (foldl_forEachEntry_output c data
                {| document := d; updatedCount := 0;
                   output := [LogStart (JSMap.size data)] |}) as (extra & -> & Hx).
    cbn [output]. rewrite !fmap_app, !omap_app. cbn.
    by rewrite (Hnone extra Hx).
  - done.
Qed.

(** After the last call of a burst the plugin holds one timer, armed by
    that call; nothing else has changed but the clock. *)
Lemma burst_state gaps w :
  PendingOk w → Forall (λ gap, gap < 500) gaps →
  ∃ id next,
    run' w (burst gaps) =
    {| Plugin.canvasWithThumbnail := Plugin.canvasWithThumbnail w;
       updateTimeout := Some id;
       cardObserver := cardObserver w; dom := dom w;
       now := now w + sum_list gaps;
       timers := [{| timerId := id; due := now w + sum_list gaps + 500;
                     callback := RunUpdateCardThumbnails |}];
       nextTimerId := next;
       scansInFlight := scansInFlight w; console := console w |}.
Proof.
  intros Hok Hgaps. revert w Hok.
  induction Hgaps as [|gap gaps Hgap _ IH]; intros w Hok.
  - cbn [burst run foldl react]. unfold scheduleUpdate.
    rewrite (rearm_spec _ _ w Hok). cbn [sum_list sum_list_with].
    rewrite !Nat.add_0_r. by eexists _, _.
  - cbn [burst]. unfold run. cbn [foldl react]. unfold scheduleUpdate.
    rewrite (rearm_spec _ _ w Hok).
    rewrite elapse_idle by (cbn; repeat constructor; cbn; lia).
    match goal with |- context [foldl _ ?w1 _] =>
      destruct (IH w1) as (id & next & Heq); [done|] end.
    unfold run in Heq. rewrite Heq. cbn. exists id, next.
    f_equal; [lia|]. do 2 f_equal. lia.
Qed.

End debounce.

Section settle.

Variable JSON_parse : jsstring → option json.
Variable vault : Vault.
Variable adapter : DataAdapter.

Local Abbreviation run' := (run JSON_parse vault adapter).
Local Abbreviation elapse' := (elapse adapter).

(** From a state whose one timer was armed by [scheduleUpdate] at the
    present time: after 500 ms the timer arms the timer of
    [updateCardThumbnails], after 200 ms more this one runs
    [addCardThumbnails], and nothing happens afterwards. *)
Lemma settle w t rest :
  timers w = [t] → callback t = RunUpdateCardThumbnails → due t = now w + 500 →
  700 ≤ rest →
  console (elapse' rest w) =
    console w ++ ((λ e, (now w + 700, e)) <$>
                    (addCardThumbnails adapter (Plugin.canvasWithThumbnail w) (dom w)).2) ∧
  timers (elapse' rest w) = [] ∧
  dom (elapse' rest w) = (addCardThumbnails adapter (Plugin.canvasWithThumbnail w) (dom w)).1.
Proof.
  intros Ht Hcb Hdue Hrest.
  replace rest with ((due t - now w) + (200 + (rest - 700))) by lia.
  rewrite elapse_add, (elapse_until_due adapter w t Ht) by lia.
  rewrite Hcb. cbn [runCallback]. unfold updateCardThumbnails.
  rewrite rearm_spec by (by destruct w).
  rewrite elapse_add.
  cbn [Plugin.canvasWithThumbnail cardObserver dom now nextTimerId scansInFlight
       console timers updateTimeout setTimers setNow].
  match goal with |- context [elapse' 200 ?w2] =>
    pose proof (elapse_until_due adapter w2
                  {| timerId := nextTimerId w; due := due t + 200;
                     callback := RunAddCardThumbnails |}) as Hfire end.
  cbn [timers now due callback nextTimerId] in Hfire.
  replace (due t + 200 - due t) with 200 in Hfire by lia.
  rewrite Hfire by (done || lia). clear Hfire.
  cbn [runCallback Plugin.canvasWithThumbnail dom setTimers setNow].
  destruct (addCardThumbnails adapter (Plugin.canvasWithThumbnail w) (dom w))
    as [d' out] eqn:Hadd.
  rewrite elapse_idle by (cbn; constructor).
  cbn. rewrite Hdue. repeat split. do 3 f_equal. lia.
Qed.

End settle.

(** C7. From a state in which at most one timer is pending, recorded in
    [updateTimeout]: after calls of [scheduleUpdate()] that each come less
    than 500 ms after the one before, with no other input in between, and
    then at least 700 ms without input, exactly one pass of
    [addCardThumbnails] has been added to those that ran before, it ran
    700 ms after the last call (500 ms to the timer of [scheduleUpdate],
    200 ms to the timer of [updateCardThumbnails]) on the map and document
    of that moment, and no timer is left; and after any inputs at all, at
    most one timer is pending. The plugin starts in such a state. *)
Theorem scheduleUpdate_debounced JSON_parse vault adapter w gaps rest :
  PendingOk w → Forall (λ gap, gap < 500) gaps → 700 ≤ rest →
  decoratePasses (run JSON_parse vault adapter w (burst gaps ++ [Elapse rest]))
    = decoratePasses w ++ [now w + sum_list gaps + 700] ∧
  dom (run JSON_parse vault adapter w (burst gaps ++ [Elapse rest]))
    = (addCardThumbnails adapter (Plugin.canvasWithThumbnail w) (dom w)).1 ∧
  timers (run JSON_parse vault adapter w (burst gaps ++ [Elapse rest])) = [] ∧
  (∀ inputs, length (timers (run JSON_parse vault adapter w inputs)) ≤ 1) ∧
  (∀ d, PendingOk (initial d)).
Proof.
  intros Hok Hgaps Hrest.
  assert (∀ inputs, length (timers (run JSON_parse vault adapter w inputs)) ≤ 1) as Hone
    by (intros inputs; by apply PendingOk_length, run_PendingOk).
  destruct (burst_state JSON_parse vault adapter gaps w Hok Hgaps) as (id & next & Hburst).
  unfold run in *. rewrite foldl_app, Hburst. cbn [foldl react].
  match goal with |- context [elapse adapter rest ?w1] =>
    destruct (settle adapter w1
                {| timerId := id; due := now w + sum_list gaps + 500;
                   callback := RunUpdateCardThumbnails |} rest)
      as (Hconsole & Htimers & Hdom); [done..|] end.
  cbn [console now dom Plugin.canvasWithThumbnail] in Hconsole, Hdom.
  split; [|split; [exact Hdom|split; [exact Htimers|split; [exact Hone|done]]]].
  unfold decoratePasses. rewrite Hconsole, omap_app. f_equal.
  apply addCardThumbnails_one_pass.
Qed.

Lemma scheduleUpdate_debounced_witness :
  PendingOk (initial Demo.cardsView) ∧ Forall (λ gap, gap < 500) [100; 499] ∧ 700 ≤ 700 ∧
  decoratePasses (run Demo.parse Demo.vault Demo.desktop (initial Demo.cardsView)
                    (burst [100; 499] ++ [Elapse 700])) = [1299] ∧
  timers (run Demo.parse Demo.vault Demo.desktop (initial Demo.cardsView)
            (burst [100; 499] ++ [Elapse 700])) = [].
Proof.
  assert (PendingOk (initial Demo.cardsView)) as Hok by exact I.
  assert (Forall (λ gap, gap < 500) [100; 499]) as Hgaps by (repeat constructor; lia).
  assert (700 ≤ 700) as Hrest by lia.
  destruct (scheduleUpdate_debounced Demo.parse Demo.vault Demo.desktop
              (initial Demo.cardsView) [100; 499] 700 Hok Hgaps Hrest)
    as (Hpass & _ & Htimers & _).
  split; [exact Hok|]. split; [exact Hgaps|]. split; [exact Hrest|].
  split; [exact Hpass | exact Htimers].
Defined.

(** ** The reported count with the file-system adapter *)

Section counting.

Variable getResourcePath : jsstring → jsstring.
Variable container : Handle.

Local Abbreviation step := (forEachEntry (FileSystemAdapter getResourcePath) container).

Lemma forEachEntry_counts st e :
  updatedCount (step st e) + decorations (output st)
  = updatedCount st + decorations (output (step st e)).
Proof.
  destruct e as [cp img].
  destruct (coverFor (document st) container cp) as [t|] eqn:Hc.
  - destruct (marked (document st) t) eqn:Hm.
    + by rewrite (forEachEntry_marked _ _ st cp img t Hc Hm).
    + rewrite (forEachEntry_unmarked _ _ st cp img t Hc Hm).
      cbn [updatedCount output setCardThumbnail snd].
      rewrite !decorations_app, !decorations_cons. cbn. lia.
  - destruct (forEachEntry_no_cover (FileSystemAdapter getResourcePath) container
                st cp img Hc) as (_ & -> & [-> | ->]); [done|].
    rewrite decorations_app, !decorations_cons. cbn. lia.
Qed.

Lemma foldl_forEachEntry_counts data st :
  updatedCount (foldl step st data) + decorations (output st)
  = updatedCount st + decorations (output (foldl step st data)).
Proof.
  revert st. induction data as [|e data IH]; intros st; cbn [foldl]; [done|].
  pose proof (IH (step st e)). pose proof (forEachEntry_counts st e). lia.
Qed.

End counting.

(** ** The key of a file name without a dot *)

Section plainNames.

Local Open Scope N_scope.

Lemma split_nonempty sep s : split sep s ≠ [].
Proof.
  destruct s as [|c s]; cbn; [done|].
  destruct (c =? sep); [done|]. by destruct (split sep s).
Qed.

Lemma split_app sep a b : split sep (a ++ sep :: b) = split sep a ++ split sep b.
Proof.
  induction a as [|c a IH]; cbn.
  - by rewrite N.eqb_refl.
  - destruct (c =? sep); [by rewrite IH|].
    rewrite IH. pose proof (split_nonempty sep a). by destruct (split sep a).
Qed.

Lemma split_plain sep s : sep ∉ s → split sep s = [s].
Proof.
  induction s as [|c s IH]; intros Hs; cbn; [done|].
  apply not_elem_of_cons in Hs as [Hc Hs].
  destruct (N.eqb_spec c sep) as [->|_]; [done|]. by rewrite IH.
Qed.

Lemma replace_suffix_plain base :
  46 ∉ base → replace (str ".canvas") [] (base ++ str ".canvas") = base.
Proof.
  induction base as [|c base IH]; intros Hb; [done|].
  apply not_elem_of_cons in Hb as [Hc Hb].
  cbn [app replace].
  destruct (startsWith (str ".canvas") (c :: base ++ str ".canvas")) eqn:E.
  - apply startsWith_spec in E as [r Hr].
    change (str ".canvas" ++ r) with (46 :: str "canvas" ++ r) in Hr.
    injection Hr as -> _. by destruct Hc.
  - by rewrite IH.
Qed.

End plainNames.

(** X4. For a canvas path whose file name holds no dot before the suffix,
    the key is the file name without the suffix, with or without a folder
    before it. *)
Theorem getFileNameFromPath_plain_name dir base :
  46%N ∉ base → slash ∉ base →
  getFileNameFromPath (base ++ str ".canvas") = base ∧
  getFileNameFromPath (dir ++ slash :: base ++ str ".canvas") = base ∧
  comparisonKey (dir ++ slash :: base ++ str ".canvas") = base.
Proof.
  intros Hdot Hslash.
  assert (slash ∉ base ++ str ".canvas") as Hseg.
  { rewrite not_elem_of_app. split; [done|]. by apply (bool_decide_unpack _). }
  assert (orElse (Some (replace (str ".canvas") [] (base ++ str ".canvas"))) [] = base)
    as Hkey by (rewrite replace_suffix_plain by done; by destruct base).
  unfold getFileNameFromPath, comparisonKey, finalSegment, pop.
  rewrite split_app, (split_plain _ _ Hseg), last_snoc. cbn [last fmap option_fmap option_map default].
  repeat split; [exact Hkey..|].
  unfold stripSuffix, id. rewrite reverse_app.
  rewrite (proj2 (startsWith_spec _ _)) by by eexists.
  rewrite length_app, Nat.add_sub. by rewrite take_app_length.
Qed.

Lemma getFileNameFromPath_plain_name_witness :
  (46%N ∉ str "Alpha") ∧ (slash ∉ str "Alpha") ∧
  getFileNameFromPath (str "Projects" ++ slash :: str "Alpha" ++ str ".canvas") = str "Alpha".
Proof.
  assert (46%N ∉ str "Alpha") as Hdot by by apply (bool_decide_unpack _).
  assert (slash ∉ str "Alpha") as Hslash by by apply (bool_decide_unpack _).
  destruct (getFileNameFromPath_plain_name (str "Projects") (str "Alpha") Hdot Hslash)
    as (_ & H & _).
  split; [exact Hdot|]. split; [exact Hslash | exact H].
Defined.

(** * Further properties *)

(** ** What a reconciliation leaves alone *)

Section frameOfPass.

Variable adapter : DataAdapter.
Variable container : Handle.

Local Abbreviation step := (forEachEntry adapter container).

Lemma setCardThumbnail_lookup_other img el cp (d : Document) i :
  i ≠ el → (setCardThumbnail adapter img el cp d).1 !! i = d !! i.
Proof.
  intros Hne. destruct adapter as [g|]; cbn [setCardThumbnail fst]; [|done].
  unfold setAttribute, setBackgroundPosition, setBackgroundRepeat, setBackgroundSize,
    setBackgroundImage.
  by rewrite !list_lookup_alter_ne by done.
Qed.

Lemma marked_lookup (d d' : Document) el :
  d' !! el = d !! el → marked d' el = marked d el.
Proof. unfold marked, getAttribute. by intros ->. Qed.

Lemma unmarkedCover_lookup (d d' : Document) el :
  d' !! el = d !! el → unmarkedCover d' el = unmarkedCover d el.
Proof.
  intros H. unfold unmarkedCover, matchesAt. rewrite (marked_lookup d d' el H).
  by rewrite H.
Qed.

Lemma coverFor_cover (d : Document) cp t :
  coverFor d container cp = Some t →
  matchesAt d (ByClass (str "bases-cards-cover")) t = true.
Proof.
  unfold coverFor. destruct (findCardByFileName _ _ _); cbn; [|done].
  apply querySelector_matches.
Qed.

(** One entry changes at most the cover it leads to, and only when that
    cover is unmarked. *)
Lemma forEachEntry_lookup st cp img i :
  coverFor (document st) container cp ≠ Some i ∨ marked (document st) i = true →
  document (step st (cp, img)) !! i = document st !! i.
Proof.
  intros Hi.
  destruct (coverFor (document st) container cp) as [t|] eqn:Hc.
  - destruct (marked (document st) t) eqn:Hm.
    + by rewrite (forEachEntry_marked _ _ st cp img t Hc Hm).
    + rewrite (forEachEntry_unmarked _ _ st cp img t Hc Hm). cbn [document].
      apply setCardThumbnail_lookup_other. intros ->.
      destruct Hi as [Hi | Hi]; [by destruct Hi | congruence].
  - by destruct (forEachEntry_no_cover adapter container st cp img Hc) as (-> & _).
Qed.

Lemma forEachEntry_lookup_not_unmarkedCover st e i :
  unmarkedCover (document st) i = false →
  document (step st e) !! i = document st !! i.
Proof.
  intros Hi. destruct e as [cp img]. apply forEachEntry_lookup.
  destruct (marked (document st) i) eqn:Hm; [by right|]. left. intros Hc.
  apply coverFor_cover in Hc. unfold unmarkedCover in Hi. by rewrite Hc, Hm in Hi.
Qed.

Lemma foldl_forEachEntry_lookup data st i :
  unmarkedCover (document st) i = false →
  document (foldl step st data) !! i = document st !! i.
Proof.
  revert st. induction data as [|e data IH]; intros st Hi; cbn [foldl]; [done|].
  pose proof (forEachEntry_lookup_not_unmarkedCover st e i Hi) as Hstep.
  rewrite IH; [done|]. by rewrite (unmarkedCover_lookup _ _ _ Hstep).
Qed.

End frameOfPass.

(** X5. Whatever the map and the adapter, [addCardThumbnails] changes no
    node other than a cover element without a non-empty marker: every other
    node, and in particular every cover that is already marked, whatever
    the map now says about its canvas, is after the call what it was
    before. The call keeps the number of nodes, their nesting, their
    classes, their texts and their [data-property] attributes. *)
Theorem addCardThumbnails_changes_unmarked_covers_only adapter data d :
  (∀ i, unmarkedCover d i = false →
        (addCardThumbnails adapter data d).1 !! i = d !! i) ∧
  length (addCardThumbnails adapter data d).1 = length d ∧
  sameCards d (addCardThumbnails adapter data d).1.
Proof.
  unfold addCardThumbnails.
  destruct (documentQuerySelector d _) as [c|]; cbn [fst].
  - assert (sameCards d (document (foldl (forEachEntry adapter c)
              {| document := d; updatedCount := 0;
                 output := [LogStart (JSMap.size data)] |} data))) as Hsame
      by apply (foldl_forEachEntry_same adapter c data
                  {| document := d; updatedCount := 0;
                     output := [LogStart (JSMap.size data)] |}).
    split; [|split; [symmetry; by eapply Forall2_length | done]].
    intros i Hi. by apply foldl_forEachEntry_lookup.
  - split; [done|]. split; [done | apply sameCards_refl].
Qed.

(** ** What a reconciliation writes, and for which entry *)

Section firstEntryWins.

Variable getResourcePath : jsstring → jsstring.
Variable container : Handle.

Local Abbreviation step := (forEachEntry (FileSystemAdapter getResourcePath) container).

(** An assignment of a text that ends in a priority is ignored. *)
Lemma assigned_priority value old :
  assigned (value ++ str "!important") old = old.
Proof.
  unfold assigned.
  assert (includes (value ++ str "!important") (str "!important") = true) as ->
    by (apply includes_spec; exists value, []; by rewrite app_nil_r).
  by destruct value.
Qed.

Lemma setCardThumbnail_lookup_self img el cp (d : Document) :
  (setCardThumbnail (FileSystemAdapter getResourcePath) img el cp d).1 !! el
  = decoratedNode img cp <$> d !! el.
Proof.
  cbn [setCardThumbnail fst].
  unfold setAttribute, setBackgroundPosition, setBackgroundRepeat, setBackgroundSize,
    setBackgroundImage.
  rewrite !alter_alter, list_lookup_alter_eq.
  destruct (d !! el) as [n|]; [|done].
  cbn [fmap option_fmap option_map]. f_equal. unfold decoratedNode, compose.
  cbn [attributes withAttributes style withStyle backgroundImage backgroundSize
       backgroundRepeat backgroundPosition].
  change (str "contain !important") with (str "contain " ++ str "!important").
  change (str "no-repeat !important") with (str "no-repeat " ++ str "!important").
  change (str "center !important") with (str "center " ++ str "!important").
  change (str "url('" ++ getResourcePath img ++ str "') !important")
    with (str "url('" ++ getResourcePath img ++ str "') " ++ str "!important").
  rewrite !app_assoc, !assigned_priority.
  by destruct n as [? ? ? ? [? ? ? ?] ?].
Qed.

Lemma foldl_forEachEntry_untargeted data st t :
  (∀ cp img, (cp, img) ∈ data → coverFor (document st) container cp ≠ Some t) →
  document (foldl step st data) !! t = document st !! t.
Proof.
  revert st. induction data as [|[cp img] data IH]; intros st Hno; cbn [foldl]; [done|].
  rewrite IH.
  - apply forEachEntry_lookup. left. apply (Hno cp img). by left.
  - intros cp' img' Hin.
    rewrite <- (coverFor_same _ _ _ _ (forEachEntry_same _ _ st (cp, img))).
    apply (Hno cp' img'). by right.
Qed.

End firstEntryWins.

(** X6. With the file-system adapter, the first entry of the map, in the
    order of [forEach], that leads to an unmarked cover decorates it, and
    no later entry changes it: after the call the marker of the cover holds
    the canvas path of that entry and the image path attribute its image
    path. Entries that come later and lead to the same cover are skipped
    without a message. The inline style of the cover is what it was: each
    of the four assignments of [setCardThumbnail] is one of a text with a
    priority, which the style declaration ignores, so that the cover is
    the element it was with the two attributes set (for a resource URL
    without a quote, a backslash or a line break, which the text of the
    background image holds as one string). *)
Theorem addCardThumbnails_first_entry_wins
    getResourcePath data d container i canvasPath imagePath cover :
  documentQuerySelector d (ByClass (str "bases-cards-container")) = Some container →
  data !! i = Some (canvasPath, imagePath) →
  canvasPath ≠ [] →
  coverFor d container canvasPath = Some cover →
  marked d cover = false →
  (∀ j cp img, j < i → data !! j = Some (cp, img) →
               coverFor d container cp ≠ Some cover) →
  getAttribute (addCardThumbnails (FileSystemAdapter getResourcePath) data d).1
    cover markerAttribute = Some canvasPath ∧
  getAttribute (addCardThumbnails (FileSystemAdapter getResourcePath) data d).1
    cover imagePathAttribute = Some imagePath ∧
  (PlainUrl (getResourcePath imagePath) →
   styleOf (addCardThumbnails (FileSystemAdapter getResourcePath) data d).1 cover
     = styleOf d cover ∧
   (addCardThumbnails (FileSystemAdapter getResourcePath) data d).1 !! cover
     = decoratedNode imagePath canvasPath <$> d !! cover).
Proof.
  intros Hcont Hi Hcp Hcover Hm Hfirst.
  assert ((addCardThumbnails (FileSystemAdapter getResourcePath) data d).1 !! cover
          = decoratedNode imagePath canvasPath <$> d !! cover)
    as Hnode.
  { unfold addCardThumbnails. rewrite Hcont. cbn [fst].
    set (st0 := {| document := d; updatedCount := 0;
                   output := [LogStart (JSMap.size data)] |}).
    rewrite <- (take_drop_middle data i _ Hi), foldl_app. cbn [foldl].
    set (st1 := foldl (forEachEntry (FileSystemAdapter getResourcePath) container)
                  st0 (take i data)).
    assert (sameCards d (document st1)) as Hsame
      by apply (foldl_forEachEntry_same _ container (take i data) st0).
    assert (document st1 !! cover = d !! cover) as Hsame1.
    { apply (foldl_forEachEntry_untargeted getResourcePath container (take i data) st0).
      intros cp img Hin. apply list_elem_of_lookup in Hin as [j Hj].
      apply lookup_take_Some in Hj as [Hj Hlt]. by apply (Hfirst j cp img). }
    assert (coverFor (document st1) container canvasPath = Some cover) as Hcover1
      by by rewrite <- (coverFor_same _ _ _ _ Hsame).
    assert (marked (document st1) cover = false) as Hm1
      by by rewrite (marked_lookup _ _ _ Hsame1).
    rewrite foldl_forEachEntry_lookup.
    - rewrite (forEachEntry_unmarked _ _ st1 canvasPath imagePath cover Hcover1 Hm1).
      cbn [document]. by rewrite setCardThumbnail_lookup_self, Hsame1.
    - unfold unmarkedCover.
      rewrite (forEachEntry_marks getResourcePath container st1 canvasPath imagePath
                 cover Hcp Hcover1).
      by rewrite andb_false_r. }
  unfold getAttribute, styleOf. rewrite Hnode.
  destruct (coverFor_is_Some _ _ _ _ Hcover) as [n ->].
  cbn [fmap option_fmap option_map mbind option_bind].
  unfold decoratedNode. cbn [attributes withAttributes style].
  rewrite !attrGet_attrSet, !streq_refl.
  change (streq imagePathAttribute markerAttribute) with false.
  done.
Qed.

Lemma addCardThumbnails_first_entry_wins_witness :
  documentQuerySelector Demo.cardsView (ByClass (str "bases-cards-container")) = Some 0 ∧
  Demo2.twoAlphas !! 0 = Some (str "Projects/Alpha.canvas", str "Projects/cover.png") ∧
  coverFor Demo.cardsView 0 (str "Archive/Alpha.canvas") = Some 2 ∧
  getAttribute (addCardThumbnails Demo.desktop Demo2.twoAlphas Demo.cardsView).1
    2 markerAttribute = Some (str "Projects/Alpha.canvas") ∧
  getAttribute (addCardThumbnails Demo.desktop Demo2.twoAlphas Demo.cardsView).1
    2 imagePathAttribute = Some (str "Projects/cover.png") ∧
  PlainUrl (Demo.resourcePath (str "Projects/cover.png")) ∧
  styleOf (addCardThumbnails Demo.desktop Demo2.twoAlphas Demo.cardsView).1 2
    = Some Demo.noStyle.
Proof.
  assert (documentQuerySelector Demo.cardsView (ByClass (str "bases-cards-container"))
          = Some 0) as Hcont by (vm_compute; reflexivity).
  assert (Demo2.twoAlphas !! 0
          = Some (str "Projects/Alpha.canvas", str "Projects/cover.png")) as Hi
    by reflexivity.
  assert (str "Projects/Alpha.canvas" ≠ []) as Hcp by discriminate.
  assert (coverFor Demo.cardsView 0 (str "Projects/Alpha.canvas") = Some 2) as Hcover
    by (vm_compute; reflexivity).
  assert (marked Demo.cardsView 2 = false) as Hm by (vm_compute; reflexivity).
  assert (∀ j cp img, j < 0 → Demo2.twoAlphas !! j = Some (cp, img) →
                      coverFor Demo.cardsView 0 cp ≠ Some 2) as Hfirst
    by (intros j cp img Hj; lia).
  destruct (addCardThumbnails_first_entry_wins Demo.resourcePath Demo2.twoAlphas
              Demo.cardsView 0 0 _ _ 2 Hcont Hi Hcp Hcover Hm Hfirst)
    as (Hmarker & Himage & Hstyle).
  assert (PlainUrl (Demo.resourcePath (str "Projects/cover.png"))) as Hplain
    by (apply (bool_decide_unpack _); vm_compute; exact I).
  split; [exact Hcont|]. split; [exact Hi|]. split; [vm_compute; reflexivity|].
  split; [exact Hmarker|]. split; [exact Himage|]. split; [exact Hplain|].
  exact (proj1 (Hstyle Hplain)).
Defined.

(** ** The statistics *)

Lemma length_omap_le {A B} (f : A → option B) (l : list A) :
  length (omap f l) ≤ length l.
Proof.
  induction l as [|x l IH]; [done|]. cbn [omap list_omap].
  destruct (f x); cbn [length]; lia.
Qed.

Lemma length_omap_all {A B} (f : A → option B) (l : list A) :
  Forall (λ x, is_Some (f x)) l → length (omap f l) = length l.
Proof.
  induction 1 as [|x l [y Hy] _ IH]; [done|]. cbn [omap list_omap].
  rewrite Hy. cbn [length]. by rewrite IH.
Qed.

Section statistics.

Implicit Types d : Document.

Lemma getThumbnailStats_paths_total d :
  length (paths (getThumbnailStats d)) ≤ total (getThumbnailStats d).
Proof. apply length_omap_le. Qed.

Lemma matchesAt_marker d el :
  matchesAt d (HasAttribute markerAttribute) el = true ↔
  ∃ n, d !! el = Some n ∧ isElement n = true ∧
       is_Some (attrGet (attributes n) markerAttribute).
Proof.
  unfold matchesAt. destruct (d !! el) as [n|].
  - unfold matchesNode. rewrite andb_true_iff, bool_decide_eq_true. split.
    + intros [? ?]. by exists n.
    + intros (n' & [= <-] & ? & ?). done.
  - split; [done | by intros (n & ? & _)].
Qed.

Lemma elem_of_paths d p :
  p ∈ paths (getThumbnailStats d) ↔ p ≠ [] ∧ ∃ el, carries d el p.
Proof.
  unfold getThumbnailStats, carries. cbn [paths]. rewrite list_elem_of_omap. split.
  - intros (el & Hel & Hp). apply elem_of_documentQuerySelectorAll in Hel.
    destruct (getAttribute d el markerAttribute) as [[|c q]|] eqn:Ha; try done.
    injection Hp as <-. split; [done|]. by exists el.
  - intros (Hp & el & Hm & Ha). exists el. split.
    + by apply elem_of_documentQuerySelectorAll.
    + rewrite Ha. by destruct p.
Qed.

Lemma WellMarked_paths_total d :
  WellMarked d → length (paths (getThumbnailStats d)) = total (getThumbnailStats d).
Proof.
  intros Hwm. apply length_omap_all, Forall_forall. intros el Hel.
  apply elem_of_documentQuerySelectorAll, Hwm in Hel.
  unfold marked, Utils.truthy in Hel.
  by destruct (getAttribute d el markerAttribute) as [[|c p]|].
Qed.

Lemma documentQuerySelectorAll_clear d :
  documentQuerySelectorAll (clearAllThumbnails d).1 (HasAttribute markerAttribute) = [].
Proof.
  apply elem_of_nil_inv. intros i Hi.
  apply elem_of_documentQuerySelectorAll in Hi.
  unfold matchesAt in Hi. rewrite clearAllThumbnails_lookup in Hi.
  destruct (matchesAt d _ i) eqn:Hm.
  - destruct (d !! i) as [n|];
      cbn [fmap option_fmap option_map] in Hi; [|done].
    unfold matchesNode in Hi. apply andb_true_iff in Hi as [_ Hi].
    apply bool_decide_eq_true in Hi.
    destruct (clearNode_cleared n) as (Hn & _). rewrite Hn in Hi. by destruct Hi.
  - unfold matchesAt in Hm. destruct (d !! i); congruence.
Qed.

Lemma documentQuerySelectorAll_onunload w :
  documentQuerySelectorAll (dom (onunload w)) (HasAttribute markerAttribute) = [].
Proof.
  apply elem_of_nil_inv. intros i Hi.
  apply elem_of_documentQuerySelectorAll in Hi.
  unfold matchesAt in Hi. rewrite onunload_lookup in Hi.
  destruct (matchesAt (dom w) _ i) eqn:Hm.
  - destruct (dom w !! i) as [n|];
      cbn [fmap option_fmap option_map] in Hi; [|done].
    unfold matchesNode in Hi. apply andb_true_iff in Hi as [_ Hi].
    apply bool_decide_eq_true in Hi.
    destruct (unloadNode_cleared n) as (Hn & _). rewrite Hn in Hi. by destruct Hi.
  - unfold matchesAt in Hm. destruct (dom w !! i); congruence.
Qed.

End statistics.

(** X7. After [clearAllThumbnails], and after the teardown of [onunload],
    [getThumbnailStats] reports no thumbnail at all; the number
    [clearAllThumbnails] writes to the console is the total the statistics
    gave before the call; and the statistics never list more paths than
    they count elements. *)
Theorem getThumbnailStats_after_clearing :
  (∀ d, getThumbnailStats (clearAllThumbnails d).1 = {| total := 0; paths := [] |}) ∧
  (∀ w, getThumbnailStats (dom (onunload w)) = {| total := 0; paths := [] |}) ∧
  (∀ d, (clearAllThumbnails d).2 = [LogCleared (total (getThumbnailStats d))]) ∧
  (∀ d, length (paths (getThumbnailStats d)) ≤ total (getThumbnailStats d)).
Proof.
  split; [|split; [|split]].
  - intros d. unfold getThumbnailStats. by rewrite documentQuerySelectorAll_clear.
  - intros w. unfold getThumbnailStats. by rewrite documentQuerySelectorAll_onunload.
  - done.
  - apply getThumbnailStats_paths_total.
Qed.

Lemma filter_ext_in {A} (P Q : A → Prop)
    `{!∀ x, Decision (P x)} `{!∀ x, Decision (Q x)} (l : list A) :
  (∀ x, x ∈ l → (P x ↔ Q x)) → filter P l = filter Q l.
Proof.
  induction l as [|x l IH]; intros Hext; [done|]. rewrite !filter_cons.
  rewrite IH by (intros y Hy; apply Hext; by right).
  destruct (decide (P x)) as [HP | HP].
  - by rewrite decide_True by (apply Hext; [by left | done]).
  - by rewrite decide_False by (intros HQ; apply HP, Hext; [by left | done]).
Qed.

Lemma filter_length_flip {A} (P Q : A → Prop)
    `{!∀ x, Decision (P x)} `{!∀ x, Decision (Q x)} (l : list A) (t : A) :
  NoDup l → t ∈ l → ¬ P t → Q t → (∀ x, x ≠ t → (P x ↔ Q x)) →
  length (filter Q l) = S (length (filter P l)).
Proof.
  intros Hnd Ht HP HQ Hother. induction l as [|x l IH]; [by apply elem_of_nil in Ht|].
  apply NoDup_cons in Hnd as [Hx Hnd]. rewrite !filter_cons.
  apply elem_of_cons in Ht as [<- | Ht].
  - rewrite decide_True, decide_False by done. cbn [length]. f_equal. f_equal.
    apply filter_ext_in. intros y Hy. symmetry. apply Hother. by intros ->.
  - assert (x ≠ t) as Hxt by by intros ->.
    destruct (decide (P x)) as [HPx | HPx].
    + rewrite decide_True by by apply Hother. cbn [length]. by rewrite IH.
    + rewrite decide_False by (intros HQx; by apply HPx, Hother). by apply IH.
Qed.

Section statsOfPass.

Variable getResourcePath : jsstring → jsstring.
Variable container : Handle.

Local Abbreviation adapter := (FileSystemAdapter getResourcePath).
Local Abbreviation step := (forEachEntry (FileSystemAdapter getResourcePath) container).
Local Abbreviation markerSel := (HasAttribute markerAttribute).

Lemma decorate_matches_other img t cp (d : Document) sel i :
  i ≠ t → matchesAt (setCardThumbnail adapter img t cp d).1 sel i = matchesAt d sel i.
Proof. intros H. unfold matchesAt. by rewrite setCardThumbnail_lookup_other. Qed.

Lemma decorate_matches_self img t cp (d : Document) :
  matchesAt d (ByClass (str "bases-cards-cover")) t = true →
  matchesAt (setCardThumbnail adapter img t cp d).1 markerSel t = true.
Proof.
  unfold matchesAt. rewrite setCardThumbnail_lookup_self.
  destruct (d !! t) as [n|]; [|done]. cbn [fmap option_fmap option_map].
  unfold matchesNode. intros [He _]%andb_true_iff.
  cbn [isElement decoratedNode withAttributes withStyle attributes]. rewrite He.
  cbn [andb]. apply bool_decide_eq_true.
  rewrite attrGet_attrSet.
  change (streq imagePathAttribute markerAttribute) with false.
  rewrite attrGet_attrSet, streq_refl. by eexists.
Qed.

Lemma decorate_total img t cp (d : Document) :
  matchesAt d (ByClass (str "bases-cards-cover")) t = true →
  matchesAt d markerSel t = false →
  total (getThumbnailStats (setCardThumbnail adapter img t cp d).1)
  = S (total (getThumbnailStats d)).
Proof.
  intros Hcover Hno. unfold getThumbnailStats, documentQuerySelectorAll. cbn [total].
  assert (length (setCardThumbnail adapter img t cp d).1 = length d) as ->
    by (symmetry; eapply Forall2_length, setCardThumbnail_same).
  apply (filter_length_flip _ _ _ t).
  - apply NoDup_seq.
  - apply elem_of_seq. apply matchesAt_is_Some, lookup_lt_is_Some in Hcover. lia.
  - congruence.
  - by apply decorate_matches_self.
  - intros i Hi. by rewrite decorate_matches_other.
Qed.

(** One entry keeps the markers non-empty, adds one to the total exactly
    when it is counted, and writes no marker but its own canvas path. *)
Lemma forEachEntry_stats st cp img :
  cp ≠ [] → WellMarked (document st) →
  WellMarked (document (step st (cp, img))) ∧
  total (getThumbnailStats (document (step st (cp, img)))) + updatedCount st
  = total (getThumbnailStats (document st)) + updatedCount (step st (cp, img)) ∧
  (∀ el p, carries (document (step st (cp, img))) el p →
           carries (document st) el p ∨ p = cp).
Proof.
  intros Hcp Hwm.
  destruct (coverFor (document st) container cp) as [t|] eqn:Hc.
  - destruct (marked (document st) t) eqn:Hm.
    + rewrite (forEachEntry_marked _ _ st cp img t Hc Hm). auto.
    + rewrite (forEachEntry_unmarked _ _ st cp img t Hc Hm).
      cbn [document updatedCount].
      pose proof (coverFor_cover container _ _ _ Hc) as Hcover.
      assert (matchesAt (document st) markerSel t = false) as Hno.
      { destruct (matchesAt (document st) markerSel t) eqn:E; [|done].
        apply Hwm in E. congruence. }
      split; [|split].
      * intros el Hel. destruct (decide (el = t)) as [-> | Hne].
        -- unfold marked.
           rewrite setCardThumbnail_marker by (eapply coverFor_is_Some, Hc).
           by destruct cp.
        -- rewrite decorate_matches_other in Hel by done.
           unfold marked. rewrite setCardThumbnail_other by done. by apply Hwm.
      * rewrite (decorate_total img t cp _ Hcover Hno). lia.
      * intros el p [Hel Hp]. destruct (decide (el = t)) as [-> | Hne].
        -- right. rewrite setCardThumbnail_marker in Hp
             by (eapply coverFor_is_Some, Hc). congruence.
        -- left. rewrite decorate_matches_other in Hel by done.
           rewrite setCardThumbnail_other in Hp by done. done.
  - destruct (forEachEntry_no_cover adapter container st cp img Hc) as (-> & -> & _).
    auto.
Qed.

Lemma foldl_forEachEntry_stats data st :
  Forall (λ e, e.1 ≠ []) data → WellMarked (document st) →
  WellMarked (document (foldl step st data)) ∧
  total (getThumbnailStats (document (foldl step st data))) + updatedCount st
  = total (getThumbnailStats (document st)) + updatedCount (foldl step st data) ∧
  (∀ el p, carries (document (foldl step st data)) el p →
           carries (document st) el p ∨ p ∈ keys data).
Proof.
  intros Hne. revert st. induction Hne as [|[cp img] data Hcp _ IH]; intros st Hwm;
    cbn [foldl].
  - split; [done|]. split; [done | auto].
  - destruct (forEachEntry_stats st cp img Hcp Hwm) as (Hwm1 & Hn1 & Hp1).
    destruct (IH _ Hwm1) as (Hwm2 & Hn2 & Hp2).
    split; [done|]. split; [lia|].
    intros el p Hc. unfold keys. rewrite fmap_cons, elem_of_cons.
    destruct (Hp2 el p Hc) as [Hc1 | Hin]; [|by right; right].
    destruct (Hp1 el p Hc1) as [Hc0 | ->]; [by left | by right; left].
Qed.

End statsOfPass.

(** X8. On a document in which no element carries an empty marker, a call
    of [addCardThumbnails] with the file-system adapter and a map whose
    canvas paths are not empty raises the total of [getThumbnailStats] by
    the number of decorations it performed, so no cover is ever counted
    twice; afterwards the statistics list one path for each element they
    count, every listed path was listed before the call or is a canvas path
    of the map, and still no element carries an empty marker. *)
Theorem getThumbnailStats_after_addCardThumbnails getResourcePath data d :
  WellMarked d → Forall (λ entry, entry.1 ≠ []) data →
  total (getThumbnailStats (addCardThumbnails (FileSystemAdapter getResourcePath) data d).1)
    = total (getThumbnailStats d)
      + decorations (addCardThumbnails (FileSystemAdapter getResourcePath) data d).2 ∧
  length (paths (getThumbnailStats
                   (addCardThumbnails (FileSystemAdapter getResourcePath) data d).1))
    = total (getThumbnailStats
               (addCardThumbnails (FileSystemAdapter getResourcePath) data d).1) ∧
  (∀ p, p ∈ paths (getThumbnailStats
                     (addCardThumbnails (FileSystemAdapter getResourcePath) data d).1) →
        p ∈ paths (getThumbnailStats d) ∨ p ∈ keys data) ∧
  WellMarked (addCardThumbnails (FileSystemAdapter getResourcePath) data d).1.
Proof.
  intros Hwm Hne. unfold addCardThumbnails.
  destruct (documentQuerySelector d _) as [c|]; cbn [fst snd].
  2:{ split; [|split; [by apply WellMarked_paths_total | by auto]].
      change (decorations _) with 0. lia. }
  set (st0 := {| document := d; updatedCount := 0;
                 output := [LogStart (JSMap.size data)] |}).
  destruct (foldl_forEachEntry_stats getResourcePath c data st0 Hne Hwm)
    as (Hwm' & Hn & Hp).
  pose proof (foldl_forEachEntry_counts getResourcePath c data st0) as Hcount.
  cbn [document updatedCount output st0] in Hn, Hcount, Hp.
  rewrite decorations_cons in Hcount. cbn [isDecoration] in Hcount.
  change (decorations []) with 0 in Hcount.
  split; [|split; [by apply WellMarked_paths_total | split; [|done]]].
  - rewrite decorations_app, (decorations_cons (LogDone _)). cbn [isDecoration].
    change (decorations []) with 0. lia.
  - intros p [Hne' (el & Hel)]%elem_of_paths.
    destruct (Hp el p Hel) as [Hold | Hkey]; [|by right].
    left. apply elem_of_paths. split; [done | by exists el].
Qed.

Lemma getThumbnailStats_after_addCardThumbnails_witness :
  WellMarked Demo.cardsView ∧
  Forall (λ entry : jsstring * jsstring, entry.1 ≠ []) Demo2.twoAlphas ∧
  getThumbnailStats (addCardThumbnails Demo.desktop Demo2.twoAlphas Demo.cardsView).1
    = {| total := 1; paths := [str "Projects/Alpha.canvas"] |} ∧
  total (getThumbnailStats
           (addCardThumbnails Demo.desktop Demo2.twoAlphas Demo.cardsView).1)
    = total (getThumbnailStats Demo.cardsView)
      + decorations (addCardThumbnails Demo.desktop Demo2.twoAlphas Demo.cardsView).2.
Proof.
  assert (WellMarked Demo.cardsView) as Hwm.
  { intros el Hel. apply elem_of_documentQuerySelectorAll in Hel.
    vm_compute in Hel. by apply elem_of_nil in Hel. }
  assert (Forall (λ entry : jsstring * jsstring, entry.1 ≠ []) Demo2.twoAlphas) as Hne
    by (repeat constructor; discriminate).
  destruct (getThumbnailStats_after_addCardThumbnails Demo.resourcePath Demo2.twoAlphas
              Demo.cardsView Hwm Hne) as (Htotal & _).
  split; [exact Hwm|]. split; [exact Hne|]. split; [vm_compute; reflexivity | exact Htotal].
Defined.

(** ** The law of the comparison key *)

Section keyLaw.

Local Open Scope N_scope.

Implicit Types s p pre post : jsstring.

Lemma startsWith_app_long p l1 l2 :
  (length p ≤ length l1)%nat → startsWith p (l1 ++ l2) = startsWith p l1.
Proof.
  revert l1. induction p as [|a p IH]; intros l1 Hlen; [done|].
  destruct l1 as [|b l1]; cbn in Hlen; [lia|].
  cbn [app startsWith]. rewrite IH by lia. done.
Qed.

Lemma replace_absent pat s : includes s pat = false → replace pat [] s = s.
Proof.
  induction s as [|c s IH]; cbn [includes replace]; intros H.
  - by destruct (startsWith pat []).
  - apply orb_false_iff in H as [-> H]. by rewrite IH.
Qed.

Lemma replace_first a x pre post :
  includes (pre ++ a) (a ++ [x]) = false →
  replace (a ++ [x]) [] (pre ++ (a ++ [x]) ++ post) = pre ++ post.
Proof.
  induction pre as [|c pre IH]; intros H.
  - cbn [app]. destruct (a ++ [x]) as [|y pat] eqn:Hpat.
    + by destruct a.
    + rewrite <- Hpat. cbn [replace].
      assert (startsWith (a ++ [x]) ((a ++ [x]) ++ post) = true) as Hs
        by (apply startsWith_spec; by eexists).
      rewrite Hpat in Hs |- *. cbn [app] in Hs |- *. cbn [replace]. rewrite Hs.
      cbn [app]. change (y :: pat ++ post) with ((y :: pat) ++ post).
      apply drop_app_length.
  - cbn [app includes] in H. apply orb_false_iff in H as [Hs H].
    cbn [app replace].
    replace (c :: pre ++ (a ++ [x]) ++ post)
      with ((c :: pre ++ a) ++ ([x] ++ post))
      by (cbn [app]; by rewrite <- !app_assoc).
    rewrite startsWith_app_long
      by (cbn [length]; rewrite !length_app; cbn [length]; lia).
    rewrite Hs. cbn [app]. rewrite <- !app_assoc. cbn [app].
    f_equal. rewrite <- (IH H). by rewrite <- !app_assoc.
Qed.

Lemma split_segments sep s : Forall (λ seg, sep ∉ seg) (split sep s).
Proof.
  induction s as [|c s IH]; cbn [split].
  - repeat constructor. apply not_elem_of_nil.
  - destruct (N.eqb_spec c sep) as [-> | Hne].
    + constructor; [apply not_elem_of_nil | done].
    + destruct (split sep s) as [|seg segs]; [repeat constructor|].
      * rewrite elem_of_cons, elem_of_nil. intros [-> | []]. done.
      * apply Forall_cons in IH as [Hseg Hsegs]. constructor; [|done].
        rewrite elem_of_cons. intros [-> | ?]; done.
Qed.

Lemma pop_split sep s : pop (split sep s) = Some (default [] (last (split sep s))).
Proof.
  unfold pop. pose proof (split_nonempty sep s) as H.
  apply last_is_Some in H as [seg ->]. done.
Qed.

Lemma elem_of_replace x pat s : x ∈ replace pat [] s → x ∈ s.
Proof.
  induction s as [|c s IH]; cbn [replace].
  - by destruct (startsWith pat []); cbn; rewrite ?drop_nil.
  - destruct (startsWith pat (c :: s)).
    + cbn [app]. intros H. apply list_elem_of_lookup in H as [i Hi].
      rewrite lookup_drop in Hi. by eapply list_elem_of_lookup_2.
    + rewrite !elem_of_cons. intros [-> | H]; [by left | right; by apply IH].
Qed.

End keyLaw.

(** X9. The comparison key in general. The final segment of a path is
    what follows its last slash, or the whole path when it has none. When
    [.canvas] does not occur in the final segment the key is the segment
    as it is; otherwise the key is the segment without the first
    occurrence of [.canvas], wherever in the segment that is. The key
    never contains a slash. *)
Theorem getFileNameFromPath_law :
  (∀ filePath, slash ∉ filePath → finalSegment filePath = filePath) ∧
  (∀ folder name, slash ∉ name → finalSegment (folder ++ slash :: name) = name) ∧
  (∀ filePath, ¬ Occurs (str ".canvas") (finalSegment filePath) →
     getFileNameFromPath filePath = finalSegment filePath) ∧
  (∀ filePath pre post,
     finalSegment filePath = pre ++ str ".canvas" ++ post →
     ¬ Occurs (str ".canvas") (pre ++ str ".canva") →
     getFileNameFromPath filePath = pre ++ post) ∧
  (∀ filePath, slash ∉ getFileNameFromPath filePath).
Proof.
  assert (∀ key, orElse (Some key) [] = key) as HorElse by (by intros [|c key]).
  split; [|split; [|split; [|split]]].
  - intros p Hp. unfold finalSegment. by rewrite split_plain.
  - intros folder name Hn. unfold finalSegment.
    by rewrite split_app, (split_plain _ _ Hn), last_snoc.
  - intros p Hno. unfold getFileNameFromPath. rewrite pop_split.
    cbn [fmap option_fmap option_map]. rewrite HorElse.
    apply replace_absent. apply not_true_is_false. by rewrite includes_spec.
  - intros p pre post Hseg Hfirst. unfold getFileNameFromPath. rewrite pop_split.
    cbn [fmap option_fmap option_map]. rewrite HorElse.
    fold (finalSegment p). rewrite Hseg.
    apply (replace_first (str ".canva") 115%N).
    apply not_true_is_false. by rewrite includes_spec.
  - intros p. unfold getFileNameFromPath. rewrite pop_split.
    cbn [fmap option_fmap option_map]. rewrite HorElse.
    intros Hin. apply elem_of_replace in Hin.
    pose proof (split_segments slash p) as Hall.
    pose proof (split_nonempty slash p) as Hne.
    apply last_is_Some in Hne as [seg Hlast]. rewrite Hlast in Hin. cbn in Hin.
    apply last_Some_elem_of in Hlast.
    by apply (proj1 (Forall_forall _ _) Hall seg Hlast).
Qed.

(** ** Bursts of layout changes and canvas modifications *)

Section arming.

Variable JSON_parse : jsstring → option json.
Variable vault : Vault.
Variable adapter : DataAdapter.

Local Abbreviation run' := (run JSON_parse vault adapter).
Local Abbreviation react' := (react JSON_parse vault adapter).
Local Abbreviation elapse' := (elapse adapter).
Local Abbreviation mapOf := Plugin.canvasWithThumbnail.

Lemma react_inputOf a w : react' w (inputOf a) = rearm (callbackOf a) (delayOf a) w.
Proof. by destruct a. Qed.

(** After the last event of a burst the plugin holds one timer, the one
    that event armed; nothing else has changed but the clock. *)
Lemma mixedBurst_state earlier last w :
  PendingOk w → Forall (λ ag, ag.2 < delayOf ag.1) earlier →
  ∃ id next,
    run' w (mixedBurst earlier last) =
    {| Plugin.canvasWithThumbnail := mapOf w;
       updateTimeout := Some id;
       cardObserver := cardObserver w; dom := dom w;
       now := now w + sum_list (earlier.*2);
       timers := [{| timerId := id; due := now w + sum_list (earlier.*2) + delayOf last;
                     callback := callbackOf last |}];
       nextTimerId := next;
       scansInFlight := scansInFlight w; console := console w |}.
Proof.
  intros Hok Hgaps. revert w Hok.
  induction Hgaps as [|[a gap] earlier Hgap _ IH]; intros w Hok.
  - unfold run. cbn [mixedBurst foldl]. rewrite react_inputOf.
    rewrite (rearm_spec _ _ w Hok). cbn [fmap list_fmap sum_list sum_list_with].
    rewrite !Nat.add_0_r. by eexists _, _.
  - cbn [mixedBurst]. unfold run. cbn [foldl]. rewrite react_inputOf.
    rewrite (rearm_spec _ _ w Hok). cbn [react].
    cbn [snd fst] in Hgap.
    rewrite elapse_idle by (cbn; repeat constructor; cbn; lia).
    match goal with |- context [foldl _ ?w1 _] =>
      destruct (IH w1) as (id & next & Heq); [done|] end.
    unfold run in Heq. rewrite Heq. cbn. exists id, next.
    f_equal; [lia|]. do 2 f_equal. lia.
Qed.

(** The timer of [updateCardThumbnails] comes due: [addCardThumbnails]
    runs once, at that time, and nothing happens afterwards. *)
Lemma elapse_decorate w t rest :
  timers w = [t] → callback t = RunAddCardThumbnails → now w < due t →
  due t ≤ now w + rest →
  elapse' rest w =
  {| Plugin.canvasWithThumbnail := mapOf w;
     updateTimeout := updateTimeout w;
     cardObserver := cardObserver w;
     dom := (addCardThumbnails adapter (mapOf w) (dom w)).1;
     now := now w + rest;
     timers := [];
     nextTimerId := nextTimerId w;
     scansInFlight := scansInFlight w;
     console := console w ++ ((λ e, (due t, e)) <$>
                               (addCardThumbnails adapter (mapOf w) (dom w)).2) |}.
Proof.
  intros Ht Hcb Hlt Hrest.
  replace rest with ((due t - now w) + (rest - (due t - now w))) at 1 by lia.
  rewrite elapse_add, (elapse_until_due adapter w t Ht Hlt), Hcb.
  cbn [runCallback Plugin.canvasWithThumbnail dom setTimers setNow].
  destruct (addCardThumbnails adapter (mapOf w) (dom w)) as [d' out].
  rewrite elapse_idle by (cbn; constructor).
  destruct w. unfold setNow, write, setDom, setTimers, setScansInFlight. cbn in *.
  f_equal. lia.
Qed.

(** The timer of [scheduleUpdate] comes due, then the timer it arms. *)
Lemma elapse_update w t rest :
  timers w = [t] → callback t = RunUpdateCardThumbnails → now w < due t →
  due t + 200 ≤ now w + rest →
  elapse' rest w =
  {| Plugin.canvasWithThumbnail := mapOf w;
     updateTimeout := Some (nextTimerId w);
     cardObserver := cardObserver w;
     dom := (addCardThumbnails adapter (mapOf w) (dom w)).1;
     now := now w + rest;
     timers := [];
     nextTimerId := S (nextTimerId w);
     scansInFlight := scansInFlight w;
     console := console w ++ ((λ e, (due t + 200, e)) <$>
                               (addCardThumbnails adapter (mapOf w) (dom w)).2) |}.
Proof.
  intros Ht Hcb Hlt Hrest.
  replace rest with ((due t - now w) + (rest - (due t - now w))) at 1 by lia.
  rewrite elapse_add, (elapse_until_due adapter w t Ht Hlt), Hcb.
  cbn [runCallback]. unfold updateCardThumbnails.
  rewrite rearm_spec by (by destruct w).
  cbn [Plugin.canvasWithThumbnail cardObserver dom now nextTimerId scansInFlight
       console timers updateTimeout setTimers setNow].
  rewrite (elapse_decorate _ {| timerId := nextTimerId w; due := due t + 200;
                                callback := RunAddCardThumbnails |});
    cbn [timers callback now due]; [|done|done|lia|lia].
  cbn [Plugin.canvasWithThumbnail cardObserver dom now nextTimerId scansInFlight
       console timers updateTimeout].
  f_equal. lia.
Qed.

(** The timer of [scheduleCanvasUpdate] comes due: a scan starts. *)
Lemma elapse_canvas w t rest :
  timers w = [t] → callback t = RunScanThenUpdate → now w < due t →
  due t ≤ now w + rest →
  elapse' rest w =
  {| Plugin.canvasWithThumbnail := JSMap.clear (mapOf w);
     updateTimeout := updateTimeout w;
     cardObserver := cardObserver w; dom := dom w;
     now := now w + rest;
     timers := [];
     nextTimerId := nextTimerId w;
     scansInFlight := S (scansInFlight w);
     console := console w ++ [(due t, LogScanStart)] |}.
Proof.
  intros Ht Hcb Hlt Hrest.
  replace rest with ((due t - now w) + (rest - (due t - now w))) at 1 by lia.
  rewrite elapse_add, (elapse_until_due adapter w t Ht Hlt), Hcb.
  cbn [runCallback]. unfold startScan.
  rewrite elapse_idle by (cbn; constructor).
  destruct w. unfold setNow, write, setDom, setTimers, setScansInFlight, setMap.
  cbn in *. f_equal. lia.
Qed.

End arming.

(** X10. The three arming methods share one timer slot, so in a burst
    of layout changes and canvas modifications that begins while no scan
    is in flight, each event arriving before the timer pending at that
    moment is due, only the last event takes effect. When the last event is
    a layout change, one pass of [addCardThumbnails] runs 700 ms after it
    on the map as it was, and no scan is started: the rescans that earlier
    canvas modifications of the burst had asked for are cancelled. When the
    last event is a canvas modification, one scan is started 1000 ms after
    it, and no pass has run and the document is as it was. *)
Theorem last_arming_event_wins JSON_parse vault adapter w earlier rest :
  PendingOk w → scansInFlight w = 0 → Forall (λ ag, ag.2 < delayOf ag.1) earlier →
  (700 ≤ rest →
   decoratePasses (run JSON_parse vault adapter w (mixedBurst earlier ArmUpdate ++ [Elapse rest]))
     = decoratePasses w ++ [now w + sum_list (earlier.*2) + 700] ∧
   dom (run JSON_parse vault adapter w (mixedBurst earlier ArmUpdate ++ [Elapse rest]))
     = (addCardThumbnails adapter (Plugin.canvasWithThumbnail w) (dom w)).1 ∧
   scansInFlight (run JSON_parse vault adapter w (mixedBurst earlier ArmUpdate ++ [Elapse rest]))
     = 0 ∧
   Plugin.canvasWithThumbnail
     (run JSON_parse vault adapter w (mixedBurst earlier ArmUpdate ++ [Elapse rest]))
     = Plugin.canvasWithThumbnail w ∧
   timers (run JSON_parse vault adapter w (mixedBurst earlier ArmUpdate ++ [Elapse rest]))
     = []) ∧
  (1000 ≤ rest →
   scansInFlight (run JSON_parse vault adapter w (mixedBurst earlier ArmCanvas ++ [Elapse rest]))
     = 1 ∧
   decoratePasses (run JSON_parse vault adapter w (mixedBurst earlier ArmCanvas ++ [Elapse rest]))
     = decoratePasses w ∧
   dom (run JSON_parse vault adapter w (mixedBurst earlier ArmCanvas ++ [Elapse rest]))
     = dom w ∧
   timers (run JSON_parse vault adapter w (mixedBurst earlier ArmCanvas ++ [Elapse rest]))
     = []).
Proof.
  intros Hok Hidle Hgaps. split; intros Hrest.
  - destruct (mixedBurst_state JSON_parse vault adapter earlier ArmUpdate w Hok Hgaps)
      as (id & next & Hburst).
    unfold run in *. rewrite foldl_app, Hburst. cbn [foldl react].
    rewrite (elapse_update adapter _
               {| timerId := id; due := now w + sum_list (earlier.*2) + 500;
                  callback := RunUpdateCardThumbnails |});
      cbn [timers callback now due delayOf]; [|done|done|lia|lia].
    cbn [console dom scansInFlight Plugin.canvasWithThumbnail timers].
    repeat split; [|done].
    unfold decoratePasses. cbn [console]. rewrite omap_app. f_equal.
    replace (now w + sum_list earlier.*2 + 500 + 200)
      with (now w + sum_list earlier.*2 + 700) by lia.
    apply addCardThumbnails_one_pass.
  - destruct (mixedBurst_state JSON_parse vault adapter earlier ArmCanvas w Hok Hgaps)
      as (id & next & Hburst).
    unfold run in *. rewrite foldl_app, Hburst. cbn [foldl react].
    rewrite (elapse_canvas adapter _
               {| timerId := id; due := now w + sum_list (earlier.*2) + 1000;
                  callback := RunScanThenUpdate |});
      cbn [timers callback now due delayOf]; [|done|done|lia|lia].
    cbn [scansInFlight dom timers]. rewrite Hidle. repeat split.
    unfold decoratePasses. cbn [console]. rewrite omap_app. apply app_nil_r.
Qed.

Lemma last_arming_event_wins_witness :
  PendingOk (initial Demo.cardsView) ∧
  Forall (λ ag : Arm * nat, ag.2 < delayOf ag.1) [(ArmCanvas, 900); (ArmUpdate, 400)] ∧
  scansInFlight (run Demo.parse Demo.vault Demo.desktop (initial Demo.cardsView)
                   (mixedBurst [(ArmCanvas, 900); (ArmUpdate, 400)] ArmUpdate
                    ++ [Elapse 700])) = 0 ∧
  decoratePasses (run Demo.parse Demo.vault Demo.desktop (initial Demo.cardsView)
                    (mixedBurst [(ArmCanvas, 900); (ArmUpdate, 400)] ArmUpdate
                     ++ [Elapse 700])) = [2000].
Proof.
  assert (PendingOk (initial Demo.cardsView)) as Hok by exact I.
  assert (Forall (λ ag : Arm * nat, ag.2 < delayOf ag.1)
            [(ArmCanvas, 900); (ArmUpdate, 400)]) as Hgaps
    by (repeat constructor; cbn; lia).
  destruct (last_arming_event_wins Demo.parse Demo.vault Demo.desktop
              (initial Demo.cardsView) [(ArmCanvas, 900); (ArmUpdate, 400)] 700
              Hok eq_refl Hgaps) as [Hupdate _].
  destruct (Hupdate ltac:(lia)) as (Hpass & _ & Hscans & _).
  split; [exact Hok|]. split; [exact Hgaps|]. split; [exact Hscans | exact Hpass].
Defined.

(** ** The completion of a scan *)

Section completion.

Variable JSON_parse : jsstring → option json.
Variable vault : Vault.
Variable adapter : DataAdapter.

(** A scan writes no opening message of a decorate pass. *)
Lemma scanLoop_no_pass files st :
  Forall (λ ev, ∀ n, ev ≠ LogStart n) (scanOutput st) →
  Forall (λ ev, ∀ n, ev ≠ LogStart n) (scanOutput (scanLoop JSON_parse vault files st)).
Proof.
  revert st. induction files as [|c files IH]; intros st Hst; [done|].
  rewrite scanLoop_cons. apply IH.
  destruct (scanCanvasFile_spec JSON_parse vault st c) as [(f & _ & ->) | (_ & [-> | ->])];
    cbn [found failed scanOutput]; [|done|]; apply Forall_app; by repeat constructor.
Qed.

Lemma scanCanvasFiles_no_pass m time :
  omap (λ te : nat * Event, match te.2 with LogStart _ => Some te.1 | _ => None end)
    ((λ e, (time, e)) <$> (scanCanvasFiles JSON_parse vault m).2) = [].
Proof.
  assert (Forall (λ ev, ∀ n, ev ≠ LogStart n) (scanCanvasFiles JSON_parse vault m).2)
    as Hall.
  { unfold scanCanvasFiles. cbn [snd]. apply Forall_app. split.
    - apply scanLoop_no_pass. by repeat constructor.
    - by repeat constructor. }
  induction Hall as [|ev out Hev _ IH]; [done|].
  cbn. rewrite IH. destruct ev; try done. by destruct (Hev size).
Qed.

Lemma scanCanvasFiles_tail_no_pass m time :
  omap (λ te : nat * Event, match te.2 with LogStart _ => Some te.1 | _ => None end)
    ((λ e, (time, e)) <$> tail (scanCanvasFiles JSON_parse vault m).2) = [].
Proof.
  pose proof (scanCanvasFiles_no_pass m time) as Hall.
  destruct (scanCanvasFiles JSON_parse vault m).2 as [|ev out]; [done|].
  cbn [tail]. cbn in Hall. by destruct ev.
Qed.

(** The plugin once a scan has completed and the timer it armed has
    fired. *)
Lemma completeScan_elapse w n rest :
  PendingOk w → scansInFlight w = S n → 200 ≤ rest →
  Plugin.canvasWithThumbnail (elapse adapter rest (completeScan JSON_parse vault w))
    = (scanCanvasFiles JSON_parse vault (Plugin.canvasWithThumbnail w)).1 ∧
  dom (elapse adapter rest (completeScan JSON_parse vault w))
    = (addCardThumbnails adapter
         (scanCanvasFiles JSON_parse vault (Plugin.canvasWithThumbnail w)).1 (dom w)).1 ∧
  decoratePasses (elapse adapter rest (completeScan JSON_parse vault w))
    = decoratePasses w ++ [now w + 200] ∧
  timers (elapse adapter rest (completeScan JSON_parse vault w)) = [] ∧
  scansInFlight (elapse adapter rest (completeScan JSON_parse vault w)) = n.
Proof.
  intros Hok Hscan Hrest. unfold completeScan.
  rewrite Hscan.
  pose proof (scanCanvasFiles_tail_no_pass (Plugin.canvasWithThumbnail w) (now w))
    as Hnone.
  destruct (scanCanvasFiles JSON_parse vault (Plugin.canvasWithThumbnail w))
    as [m out] eqn:Hm.
  cbn [fst snd] in *. unfold updateCardThumbnails.
  rewrite rearm_spec by (by destruct w).
  cbn [Plugin.canvasWithThumbnail cardObserver dom now nextTimerId scansInFlight
       console timers updateTimeout write setMap setScansInFlight].
  rewrite (elapse_decorate adapter _
             {| timerId := nextTimerId w; due := now w + 200;
                callback := RunAddCardThumbnails |});
    cbn [timers callback now due]; [|done|done|lia|lia].
  cbn [Plugin.canvasWithThumbnail dom console timers scansInFlight].
  repeat split.
  unfold decoratePasses. cbn [console]. rewrite !omap_app, Hnone, app_nil_r.
  f_equal. apply addCardThumbnails_one_pass.
Qed.

End completion.

(** X11. When the one scan in flight completes (the one
    [initializeCards] started, the one of the refresh button or the one of
    the rescan timer), the plugin holds the freshly scanned map, whatever
    map it held, cancels whatever timer was pending, a pending rescan
    included, and 200 ms later runs one pass of [addCardThumbnails] with
    the new map on the document of that moment; no timer is left
    afterwards. *)
Theorem scan_completion_decorates JSON_parse vault adapter w rest :
  PendingOk w → scansInFlight w = 1 → 200 ≤ rest →
  Plugin.canvasWithThumbnail (run JSON_parse vault adapter w [ScanCompletes; Elapse rest])
    = (scanCanvasFiles JSON_parse vault (Plugin.canvasWithThumbnail w)).1 ∧
  dom (run JSON_parse vault adapter w [ScanCompletes; Elapse rest])
    = (addCardThumbnails adapter
         (scanCanvasFiles JSON_parse vault (Plugin.canvasWithThumbnail w)).1 (dom w)).1 ∧
  decoratePasses (run JSON_parse vault adapter w [ScanCompletes; Elapse rest])
    = decoratePasses w ++ [now w + 200] ∧
  timers (run JSON_parse vault adapter w [ScanCompletes; Elapse rest]) = [] ∧
  scansInFlight (run JSON_parse vault adapter w [ScanCompletes; Elapse rest]) = 0.
Proof.
  intros Hok Hscan Hrest. unfold run. cbn [foldl react].
  by apply completeScan_elapse.
Qed.

Lemma scan_completion_decorates_witness :
  PendingOk (startScan (initial Demo.cardsView)) ∧
  scansInFlight (startScan (initial Demo.cardsView)) = 1 ∧ 200 ≤ 200 ∧
  Plugin.canvasWithThumbnail
    (run Demo.parse Demo.vault Demo.desktop (startScan (initial Demo.cardsView))
       [ScanCompletes; Elapse 200])
    = [(path Demo.alphaCanvas, path Demo.coverPng)] ∧
  getAttribute
    (dom (run Demo.parse Demo.vault Demo.desktop (startScan (initial Demo.cardsView))
            [ScanCompletes; Elapse 200]))
    2 imagePathAttribute = Some (path Demo.coverPng).
Proof.
  assert (PendingOk (startScan (initial Demo.cardsView))) as Hok by exact I.
  assert (scansInFlight (startScan (initial Demo.cardsView)) = 1) as Hscan by reflexivity.
  assert (200 ≤ 200) as Hrest by lia.
  destruct (scan_completion_decorates Demo.parse Demo.vault Demo.desktop
              (startScan (initial Demo.cardsView)) 200 Hok Hscan Hrest)
    as (Hmap & Hdom & _).
  split; [exact Hok|]. split; [exact Hscan|]. split; [exact Hrest|]. split.
  - rewrite Hmap. vm_compute. reflexivity.
  - rewrite Hdom. vm_compute. reflexivity.
Defined.

(** ** The handlers that arm the timers *)

Lemma querySelector_is_Some d el sel :
  is_Some (querySelector d el sel) ↔
  ∃ i, i ∈ descendants d el ∧ matchesAt d sel i = true.
Proof.
  unfold querySelector, querySelectorAll. split.
  - intros [i Hi]. exists i. apply head_Some_elem_of in Hi.
    by apply list_elem_of_filter in Hi as [? ?].
  - intros (i & Hin & Hi).
    assert (i ∈ filter (λ i, matchesAt d sel i = true) (descendants d el)) as Hfi
      by (by apply list_elem_of_filter).
    destruct (filter _ _) as [|j l]; [by apply elem_of_nil in Hfi|by eexists].
Qed.

Lemma visitAddedNode_true needsUpdate node :
  visitAddedNode needsUpdate node = true ↔ needsUpdate = true ∨ AddsCard node.
Proof.
  unfold visitAddedNode, AddsCard. destruct (node !! 0) as [element|] eqn:Hel.
  - destruct (isElement element) eqn:Helem; cbn [andb].
    + destruct (bool_decide (str "bases-cards-item" ∈ classList element)) eqn:Hcls;
        cbn [orb].
      * apply bool_decide_eq_true in Hcls. split; [|done].
        intros _. right. exists element. auto.
      * apply bool_decide_eq_false in Hcls.
        destruct (bool_decide (is_Some (querySelector node 0
                                          (ByClass (str "bases-cards-item"))))) eqn:Hq.
        -- apply bool_decide_eq_true, querySelector_is_Some in Hq. split; [|done].
           intros _. right. exists element. auto.
        -- apply bool_decide_eq_false in Hq. rewrite querySelector_is_Some in Hq.
           split; [by left|]. intros [Hb | (element' & [= <-] & _ & [Hc | Hd])]; done.
    + split; [by left|]. intros [Hb | (element' & [= <-] & He & _)]; [done|].
      congruence.
  - split; [by left|]. by intros [Hb | (element' & [=] & _)].
Qed.

Lemma foldl_visitAddedNode_true needsUpdate nodes :
  foldl visitAddedNode needsUpdate nodes = true ↔
  needsUpdate = true ∨ ∃ node, node ∈ nodes ∧ AddsCard node.
Proof.
  revert needsUpdate. induction nodes as [|node nodes IH]; intros b; cbn [foldl].
  - split; [by left|]. intros [Hb | (node & Hin & _)]; [done|].
    by apply elem_of_nil in Hin.
  - rewrite IH, visitAddedNode_true. split.
    + intros [[Hb | Hnode] | (node' & Hin & Hnode)]; [by left| |].
      * right. exists node. split; [apply elem_of_cons; by left|done].
      * right. exists node'. split; [apply elem_of_cons; by right|done].
    + intros [Hb | (node' & Hin & Hnode)]; [by left; left|].
      apply elem_of_cons in Hin as [-> | Hin]; [by left; right|].
      right. by exists node'.
Qed.

Lemma foldl_visitMutation_true needsUpdate mutations :
  foldl visitMutation needsUpdate mutations = true ↔
  needsUpdate = true ∨ BatchAddsCard mutations.
Proof.
  unfold BatchAddsCard.
  revert needsUpdate. induction mutations as [|mutation mutations IH]; intros b;
    cbn [foldl].
  - split; [by left|]. intros [Hb | (mutation & node & Hin & _)]; [done|].
    by apply elem_of_nil in Hin.
  - rewrite IH. split.
    + intros [Hv | (mutation' & node & Hin & Hty & Hnode & Hadds)].
      * unfold visitMutation in Hv.
        destruct (mutationType mutation) eqn:Hty; [|by left|by left].
        apply foldl_visitAddedNode_true in Hv as [Hb | (node & Hin & Hnode)];
          [by left|].
        right. exists mutation, node. split; [apply elem_of_cons; by left|done].
      * right. exists mutation', node. split; [apply elem_of_cons; by right|done].
    + intros [Hb | (mutation' & node & Hin & Hty & Hnode & Hadds)].
      * left. unfold visitMutation. destruct (mutationType mutation); [|done|done].
        apply foldl_visitAddedNode_true. by left.
      * apply elem_of_cons in Hin as [-> | Hin].
        -- left. unfold visitMutation. rewrite Hty.
           apply foldl_visitAddedNode_true. right. by exists node.
        -- right. by exists mutation', node.
Qed.

(** X12. The callback of the mutation observer calls [scheduleUpdate]
    once for a batch of records, however many cards the batch added, and
    it does so exactly when some child-list record of the batch added an
    element that is a card or has a card among its descendants. Added text
    nodes, removed nodes and records of other types never arm the timer. *)
Theorem observerCallback_schedules_once w mutations :
  (BatchAddsCard mutations → observerCallback w mutations = scheduleUpdate w) ∧
  (¬ BatchAddsCard mutations → observerCallback w mutations = w).
Proof.
  unfold observerCallback.
  pose proof (foldl_visitMutation_true false mutations) as Hflag.
  destruct (foldl visitMutation false mutations).
  - split; [done|]. intros Hno. destruct (proj1 Hflag eq_refl) as [Hb | Hadds]; done.
  - split; [|done]. intros Hadds. discriminate (proj2 Hflag (or_intror Hadds)).
Qed.

Lemma onModify_canvas w file : IsCanvas file → onModify w file = scheduleCanvasUpdate w.
Proof. intros (f & -> & Hext). unfold onModify. by rewrite bool_decide_eq_true_2. Qed.

Lemma onModify_other w file : ¬ IsCanvas file → onModify w file = w.
Proof.
  intros Hno. destruct file as [f|p]; [|done]. unfold onModify.
  rewrite bool_decide_eq_false_2; [done|]. intros Hext. apply Hno. by exists f.
Qed.

Lemma IsCanvas_dec file : IsCanvas file ∨ ¬ IsCanvas file.
Proof.
  destruct file as [f|p].
  - destruct (decide (extension f = str "canvas")) as [Hext | Hext].
    + left. by exists f.
    + right. by intros (f' & [= <-] & Hext').
  - right. by intros (f' & [=] & _).
Qed.

Lemma RescanArmed_scheduleCanvasUpdate w : PendingOk w → RescanArmed w (scheduleCanvasUpdate w).
Proof.
  intros Hok. unfold scheduleCanvasUpdate. rewrite (rearm_spec _ _ w Hok).
  by eexists _, _.
Qed.

Lemma RescanArmed_onModify w w' file :
  RescanArmed w w' → RescanArmed w (onModify w' file).
Proof.
  intros (id & next & ->). destruct (IsCanvas_dec file) as [Hc | Hc].
  - rewrite (onModify_canvas _ _ Hc). unfold scheduleCanvasUpdate.
    rewrite rearm_spec by done. by eexists _, _.
  - rewrite (onModify_other _ _ Hc). by eexists _, _.
Qed.

Lemma RescanArmed_foldl w w' files :
  RescanArmed w w' → RescanArmed w (foldl onModify w' files).
Proof.
  revert w'. induction files as [|file files IH]; intros w' Harmed; [done|].
  cbn [foldl]. by apply IH, RescanArmed_onModify.
Qed.

Lemma foldl_onModify_armed w files :
  PendingOk w → Exists IsCanvas files → RescanArmed w (foldl onModify w files).
Proof.
  intros Hok Hex. induction files as [|file files IH]; [by apply Exists_nil in Hex|].
  cbn [foldl]. destruct (IsCanvas_dec file) as [Hc | Hc].
  - rewrite (onModify_canvas _ _ Hc).
    by apply RescanArmed_foldl, RescanArmed_scheduleCanvasUpdate.
  - rewrite (onModify_other _ _ Hc). apply IH.
    by apply Exists_cons in Hex as [Hc' | Hex].
Qed.

(** X13. The handler of the vault's [modify] event looks at nothing but
    the kind and the extension of the modified file. Modifications of
    folders and of files of another extension leave the plugin as it is.
    Modifications arriving together, one canvas document at least among
    them, leave one pending rescan; 1000 ms later one scan starts, whatever
    the number of canvases modified, and no pass over the cards has run by
    then. *)
Theorem modifications_start_one_scan adapter w files rest :
  PendingOk w → 1000 ≤ rest →
  (Forall (λ file, ¬ IsCanvas file) files → foldl onModify w files = w) ∧
  (Exists IsCanvas files →
     (∃ id, timers (foldl onModify w files)
            = [{| timerId := id; due := now w + 1000; callback := RunScanThenUpdate |}]) ∧
     scansInFlight (elapse adapter rest (foldl onModify w files)) = S (scansInFlight w) ∧
     timers (elapse adapter rest (foldl onModify w files)) = [] ∧
     dom (elapse adapter rest (foldl onModify w files)) = dom w ∧
     decoratePasses (elapse adapter rest (foldl onModify w files)) = decoratePasses w).
Proof.
  intros Hok Hrest. split.
  - intros Hall. induction Hall as [|file files Hc _ IH]; [done|].
    cbn [foldl]. by rewrite (onModify_other _ _ Hc).
  - intros Hex. destruct (foldl_onModify_armed w files Hok Hex) as (id & next & ->).
    split; [by exists id|].
    rewrite (elapse_canvas adapter _
               {| timerId := id; due := now w + 1000; callback := RunScanThenUpdate |});
      cbn [timers callback now due]; [|done|done|lia|lia].
    cbn [scansInFlight timers dom]. repeat split.
    unfold decoratePasses. cbn [console]. rewrite omap_app. apply app_nil_r.
Qed.

Lemma modifications_start_one_scan_witness :
  scansInFlight
    (elapse Demo.desktop 1000
       (foldl onModify (initial Demo.cardsView)
          [File Demo.alphaCanvas; Folder (str "Projects"); File Demo.coverPng;
           File Demo.alphaCanvas])) = 1.
Proof.
  assert (PendingOk (initial Demo.cardsView)) as Hok by exact I.
  assert (1000 ≤ 1000) as Hrest by lia.
  assert (Exists IsCanvas
            [File Demo.alphaCanvas; Folder (str "Projects"); File Demo.coverPng;
             File Demo.alphaCanvas]) as Hex.
  { apply Exists_cons_hd. by exists Demo.alphaCanvas. }
  destruct (modifications_start_one_scan Demo.desktop (initial Demo.cardsView)
              [File Demo.alphaCanvas; Folder (str "Projects"); File Demo.coverPng;
               File Demo.alphaCanvas] 1000 Hok Hrest) as [_ Hsome].
  destruct (Hsome Hex) as (_ & Hscan & _). exact Hscan.
Defined.

(** ** Unloading with work pending *)

Lemma onunload_timers w :
  PendingOk w → Forall (λ t, timerId t ≠ 0) (timers w) → timers (onunload w) = [].
Proof.
  unfold PendingOk, onunload. destruct w as [m u o d n ts nx sc co]. cbn.
  destruct ts as [|t [|t' ts]]; [| |done].
  - intros _ _. destruct o, u as [[|i]|]; done.
  - intros -> Hid. apply Forall_inv in Hid.
    destruct o, (timerId t) as [|i] eqn:Hi; try done; cbn; rewrite Hi.
    all: by rewrite decide_False by (intros H; by apply H).
Qed.

Lemma onunload_fields w :
  Plugin.canvasWithThumbnail (onunload w) = Plugin.canvasWithThumbnail w ∧
  now (onunload w) = now w ∧ scansInFlight (onunload w) = scansInFlight w ∧
  console (onunload w) = console w ++ [(now w, LogUnload)].
Proof.
  unfold onunload. destruct w as [m u o d n ts nx sc co]. cbn.
  destruct o, u as [[|i]|]; done.
Qed.

Lemma decoratePasses_onunload w : decoratePasses (onunload w) = decoratePasses w.
Proof.
  unfold decoratePasses. destruct (onunload_fields w) as (_ & _ & _ & ->).
  rewrite omap_app. cbn. apply app_nil_r.
Qed.

(** X14. [onunload] cancels the pending timer, so that no pass over the
    cards follows however long one waits; it does not stop a scan that is
    in flight. When that scan completes after the teardown, the plugin
    arms a timer again and 200 ms later decorates the cards that the
    teardown has just cleared. (Timer identifiers are positive, as the
    hosts of the plugin hand them out; the guard of [onunload] would take
    an identifier 0 for no timer.) *)
Theorem onunload_cancels_timer_not_scan JSON_parse vault adapter w :
  PendingOk w → Forall (λ t, timerId t ≠ 0) (timers w) →
  timers (onunload w) = [] ∧
  (∀ rest, dom (elapse adapter rest (onunload w)) = dom (onunload w) ∧
           decoratePasses (elapse adapter rest (onunload w)) = decoratePasses w) ∧
  (∀ rest, scansInFlight w = 1 → 200 ≤ rest →
     dom (run JSON_parse vault adapter w [Unload; ScanCompletes; Elapse rest])
       = (addCardThumbnails adapter
            (scanCanvasFiles JSON_parse vault (Plugin.canvasWithThumbnail w)).1
            (dom (onunload w))).1 ∧
     decoratePasses (run JSON_parse vault adapter w [Unload; ScanCompletes; Elapse rest])
       = decoratePasses w ++ [now w + 200]).
Proof.
  intros Hok Hids. pose proof (onunload_timers w Hok Hids) as Htimers.
  destruct (onunload_fields w) as (Hmap & Hnow & Hscans & _).
  split; [done|]. split.
  - intros rest. rewrite elapse_idle by (rewrite Htimers; constructor).
    split; [done|]. unfold decoratePasses. cbn [console setNow].
    apply decoratePasses_onunload.
  - intros rest Hscan Hrest. unfold run. cbn [foldl react].
    destruct (completeScan_elapse JSON_parse vault adapter (onunload w) 0 rest)
      as (_ & Hdom & Hpasses & _);
      [by apply onunload_PendingOk|by rewrite Hscans|done|].
    rewrite Hdom, Hpasses, Hmap, Hnow, decoratePasses_onunload. done.
Qed.

Lemma onunload_cancels_timer_not_scan_witness :
  timers (onunload (scheduleUpdate (startScan (initial Demo.decorated)))) = [] ∧
  getAttribute
    (dom (onunload (scheduleUpdate (startScan (initial Demo.decorated)))))
    2 markerAttribute = None ∧
  getAttribute
    (dom (run Demo.parse Demo.vault Demo.desktop
            (scheduleUpdate (startScan (initial Demo.decorated)))
            [Unload; ScanCompletes; Elapse 200]))
    2 markerAttribute = Some (path Demo.alphaCanvas).
Proof.
  assert (PendingOk (scheduleUpdate (startScan (initial Demo.decorated)))) as Hok
    by reflexivity.
  assert (Forall (λ t, timerId t ≠ 0)
            (timers (scheduleUpdate (startScan (initial Demo.decorated))))) as Hids
    by (repeat constructor; cbn; lia).
  destruct (onunload_cancels_timer_not_scan Demo.parse Demo.vault Demo.desktop
              (scheduleUpdate (startScan (initial Demo.decorated))) Hok Hids)
    as (Htimers & _ & Hscan).
  split; [exact Htimers|]. split; [vm_compute; reflexivity|].
  destruct (Hscan 200 eq_refl ltac:(lia)) as [Hdom _].
  rewrite Hdom. vm_compute. reflexivity.
Defined.

(** ** The mutation observers *)

Lemma disconnectCurrent_none r :
  Observers.CurrentOnly r →
  Forall (λ observing, observing = false) (Observers.observers (Observers.disconnectCurrent r)) ∧
  Observers.cardObserver (Observers.disconnectCurrent r) = Observers.cardObserver r ∧
  length (Observers.observers (Observers.disconnectCurrent r))
    = length (Observers.observers r).
Proof.
  intros [Hcur Hlen]. unfold Observers.disconnectCurrent.
  destruct (Observers.cardObserver r) as [i|] eqn:Hi; cbn.
  - split; [|by rewrite length_insert]. apply Forall_lookup. intros j b Hj.
    apply list_lookup_insert_Some in Hj as [(_ & <- & _) | (Hne & Hj)]; [done|].
    destruct b; [|done]. apply Hcur in Hj. congruence.
  - split; [|done]. apply Forall_lookup. intros j b Hj.
    destruct b; [|done]. apply Hcur in Hj. congruence.
Qed.

Lemma disconnectCurrent_CurrentOnly r :
  Observers.CurrentOnly r → Observers.CurrentOnly (Observers.disconnectCurrent r).
Proof.
  intros Hinv. destruct (disconnectCurrent_none r Hinv) as (Hnone & Hcur & Hlen).
  split.
  - intros i Hi. by apply (proj1 (Forall_lookup _ _) Hnone) in Hi.
  - intros i Hi. rewrite Hlen. apply Hinv. by rewrite <- Hcur.
Qed.

Lemma setupCardObserver_CurrentOnly r :
  Observers.CurrentOnly r → Observers.CurrentOnly (Observers.setupCardObserver r).
Proof.
  intros Hinv. destruct (disconnectCurrent_none r Hinv) as (Hnone & _ & _).
  unfold Observers.setupCardObserver. split; cbn.
  - intros i Hi. apply lookup_snoc_Some in Hi as [[_ Hi] | [-> _]]; [|done].
    by apply (proj1 (Forall_lookup _ _) Hnone) in Hi.
  - intros i [= <-]. rewrite length_app. cbn. lia.
Qed.

Lemma step_CurrentOnly r op :
  Observers.CurrentOnly r → Observers.CurrentOnly (Observers.step r op).
Proof.
  intros Hinv. destruct op as [|value|[|]|]; cbn.
  - destruct (Observers.enableRealTimeUpdate r); [|done].
    by apply setupCardObserver_CurrentOnly.
  - done.
  - by apply setupCardObserver_CurrentOnly.
  - by apply disconnectCurrent_CurrentOnly.
  - by apply disconnectCurrent_CurrentOnly.
Qed.

Lemma run_CurrentOnly r ops :
  Observers.CurrentOnly r → Observers.CurrentOnly (Observers.run r ops).
Proof.
  revert r. induction ops as [|op ops IH]; intros r Hinv; [done|].
  apply IH. by apply step_CurrentOnly.
Qed.

Lemma loaded_CurrentOnly enabled container :
  Observers.CurrentOnly (Observers.loaded enabled container).
Proof. split; intros i Hi; cbn in Hi; done. Qed.

(** X15. Whatever the order in which the continuation of
    [initializeCards], the two turns of the settings toggle and [onunload]
    run, and however often, at most one of the observers the plugin has
    created is observing, and it is the one in [this.cardObserver]. Right
    after [onunload], or after the toggle was switched off and saved, none
    is observing. A call of [setupCardObserver] leaves the new observer
    observing exactly when the workspace has a container. [onunload]
    does not keep the continuation of [initializeCards] from running after
    it: with the setting on and a container present, an observer is
    observing again once that continuation has run. *)
Theorem at_most_one_observer enabled container ops :
  (∀ i j, Observers.observers (Observers.run (Observers.loaded enabled container) ops) !! i
            = Some true →
          Observers.observers (Observers.run (Observers.loaded enabled container) ops) !! j
            = Some true →
          i = j ∧
          Observers.cardObserver (Observers.run (Observers.loaded enabled container) ops)
            = Some i) ∧
  (∀ op, op = Observers.Unload ∨ op = Observers.ToggleSaved false →
     Forall (λ observing, observing = false)
       (Observers.observers
          (Observers.run (Observers.loaded enabled container) (ops ++ [op])))) ∧
  (∀ i, Observers.observers
          (Observers.run (Observers.loaded enabled container)
             (ops ++ [Observers.ToggleSaved true])) !! i = Some true ↔
        container = true ∧
        i = length (Observers.observers
                      (Observers.run (Observers.loaded enabled container) ops))) ∧
  (Observers.enableRealTimeUpdate (Observers.run (Observers.loaded enabled container) ops)
     = true →
   container = true →
   ∃ i, Observers.observers
          (Observers.run (Observers.loaded enabled container)
             (ops ++ [Observers.Unload; Observers.InitializeCardsContinues])) !! i
        = Some true).
Proof.
  pose proof (run_CurrentOnly _ ops (loaded_CurrentOnly enabled container)) as Hinv.
  assert (∀ r, Observers.containerEl (Observers.disconnectCurrent r)
               = Observers.containerEl r ∧
               Observers.enableRealTimeUpdate (Observers.disconnectCurrent r)
               = Observers.enableRealTimeUpdate r) as Hsame.
  { intros r. unfold Observers.disconnectCurrent.
    by destruct (Observers.cardObserver r). }
  assert (∀ r op, Observers.containerEl (Observers.step r op) = Observers.containerEl r)
    as Hstep.
  { intros r op. destruct op as [|value|[|]|]; cbn; try done.
    - destruct (Observers.enableRealTimeUpdate r); [|done]. cbn. apply Hsame.
    - apply Hsame.
    - apply Hsame.
    - apply Hsame. }
  assert (∀ ops' r, Observers.containerEl (Observers.run r ops') = Observers.containerEl r)
    as Hrun.
  { induction ops' as [|op ops' IH]; intros r; [done|].
    unfold Observers.run. cbn [foldl]. fold (Observers.run (Observers.step r op) ops').
    by rewrite IH, Hstep. }
  unfold Observers.run in *. 
  set (r := foldl Observers.step (Observers.loaded enabled container) ops) in *.
  assert (Observers.containerEl r = container) as Hcont by (subst r; apply Hrun).
  split; [|split; [|split]].
  - intros i j Hi Hj. pose proof (proj1 Hinv i Hi) as Hci.
    pose proof (proj1 Hinv j Hj) as Hcj. split; [congruence|done].
  - intros op Hop. rewrite foldl_app. cbn [foldl]. fold r.
    destruct Hop as [-> | ->]; cbn; by apply disconnectCurrent_none.
  - intros i. rewrite foldl_app. cbn [foldl]. fold r. cbn.
    destruct (disconnectCurrent_none r Hinv) as (Hnone & _ & Hlen).
    rewrite lookup_snoc_Some, Hlen, (proj1 (Hsame r)), Hcont. split.
    + intros [[_ Hi] | [-> Hc]]; [|done].
      by apply (proj1 (Forall_lookup _ _) Hnone) in Hi.
    + intros [-> ->]. by right.
  - intros Hen Hc. rewrite foldl_app. cbn [foldl]. fold r. cbn.
    rewrite (proj2 (Hsame r)), Hen. cbn.
    exists (length (Observers.observers
                      (Observers.disconnectCurrent (Observers.disconnectCurrent r)))).
    apply lookup_snoc_Some. right. split; [done|].
    by rewrite !(proj1 (Hsame _)), Hcont.
Qed.

(** ** The reported count and the document *)

Section reported.

Variable getResourcePath : jsstring → jsstring.
Variable container : Handle.
Variable d0 : Document.

Local Abbreviation step := (forEachEntry (FileSystemAdapter getResourcePath) container).
Local Abbreviation Counted := (Counted d0).

Lemma forEachEntry_Counted count0 st cp img :
  cp ≠ [] → Counted count0 st → Counted count0 (step st (cp, img)).
Proof.
  intros Hcp (Hlen & Hcount & Hchanged).
  destruct (coverFor (document st) container cp) as [t|] eqn:Hc.
  2:{ destruct (forEachEntry_no_cover (FileSystemAdapter getResourcePath) container
                  st cp img Hc) as (Hd & Hn & _).
      unfold Counted. by rewrite Hd, Hn. }
  destruct (marked (document st) t) eqn:Hm.
  { by rewrite (forEachEntry_marked _ _ st cp img t Hc Hm). }
  rewrite (forEachEntry_unmarked _ _ st cp img t Hc Hm).
  pose proof (coverFor_is_Some _ _ _ _ Hc) as Ht.
  assert (getAttribute
            (setCardThumbnail (FileSystemAdapter getResourcePath) img t cp (document st)).1
            t markerAttribute = Some cp) as Hnew by by apply setCardThumbnail_marker.
  assert (¬ markerChanged d0 (document st) t) as Hold.
  { intros H. apply Hchanged in H. congruence. }
  assert (markerChanged d0
            (setCardThumbnail (FileSystemAdapter getResourcePath) img t cp (document st)).1 t)
    as Hflip.
  { unfold markerChanged. rewrite Hnew. intros Heq.
    apply Hold. unfold markerChanged. intros Heq'. unfold marked in Hm.
    rewrite Heq', <- Heq in Hm. by destruct cp. }
  assert (∀ i, i ≠ t →
            (markerChanged d0 (document st) i ↔
             markerChanged d0
               (setCardThumbnail (FileSystemAdapter getResourcePath) img t cp
                  (document st)).1 i)) as Hother.
  { intros i Hi. unfold markerChanged. by rewrite setCardThumbnail_other. }
  split; [|split]; cbn [document updatedCount].
  - rewrite <- Hlen. symmetry. eapply Forall2_length, setCardThumbnail_same.
  - rewrite Hcount. unfold newlyMarked.
    rewrite (filter_length_flip (markerChanged d0 (document st))
               (markerChanged d0
                  (setCardThumbnail (FileSystemAdapter getResourcePath) img t cp
                     (document st)).1) _ t);
      [lia | apply NoDup_seq | | done | done | done].
    apply elem_of_seq. apply lookup_lt_is_Some in Ht. lia.
  - intros el Hel. destruct (decide (el = t)) as [-> | Hne].
    + unfold marked. rewrite Hnew. by destruct cp.
    + unfold marked. rewrite setCardThumbnail_other by done.
      apply Hchanged. by apply Hother.
Qed.

Lemma foldl_forEachEntry_Counted count0 data st :
  Forall (λ entry, entry.1 ≠ []) data → Counted count0 st →
  Counted count0 (foldl step st data).
Proof.
  intros Hne. revert st. induction Hne as [|[cp img] data Hcp _ IH]; intros st Hst;
    cbn [foldl]; [done|].
  by apply IH, forEachEntry_Counted.
Qed.

End reported.

(** X3. With the file-system adapter and a map whose canvas paths are not
    empty, the count a call reports is the number of elements of the
    document whose marker attribute the call changed; each of them was a
    cover without a non-empty marker before the call and carries a
    non-empty marker after it. A call that finds no container reports no
    count and leaves the document as it was. *)
Theorem addCardThumbnails_count_with_adapter getResourcePath data d :
  Forall (λ entry, entry.1 ≠ []) data →
  match documentQuerySelector d (ByClass (str "bases-cards-container")) with
  | Some _ =>
      reportedCount (addCardThumbnails (FileSystemAdapter getResourcePath) data d).2
      = Some (length (newlyMarked d
                        (addCardThumbnails (FileSystemAdapter getResourcePath) data d).1)) ∧
      ∀ el, el ∈ newlyMarked d
                   (addCardThumbnails (FileSystemAdapter getResourcePath) data d).1 →
            unmarkedCover d el = true ∧
            marked (addCardThumbnails (FileSystemAdapter getResourcePath) data d).1 el
              = true
  | None =>
      reportedCount (addCardThumbnails (FileSystemAdapter getResourcePath) data d).2 = None ∧
      (addCardThumbnails (FileSystemAdapter getResourcePath) data d).1 = d
  end.
Proof.
  intros Hne. unfold addCardThumbnails.
  destruct (documentQuerySelector d _) as [c|]; cbn [fst snd]; [|done].
  set (st0 := {| document := d; updatedCount := 0;
                 output := [LogStart (JSMap.size data)] |}).
  destruct (foldl_forEachEntry_Counted getResourcePath c d 0 data st0 Hne)
    as (Hlen & Hcount & Hchanged).
  { split; [done|]. split.
    - unfold newlyMarked. cbn [document updatedCount st0].
      rewrite (filter_none (markerChanged d d)); [done|].
      apply Forall_forall. intros el _ H. by apply H.
    - intros el H. by destruct H. }
  split.
  - by rewrite reportedCount_done, Hcount.
  - intros el Hel. apply list_elem_of_filter in Hel as [Hel _].
    split; [|by apply Hchanged].
    destruct (unmarkedCover d el) eqn:Hu; [done|]. destruct Hel.
    unfold getAttribute.
    by rewrite (foldl_forEachEntry_lookup (FileSystemAdapter getResourcePath) c data st0 el Hu).
Qed.

Lemma addCardThumbnails_count_with_adapter_witness :
  Forall (λ entry : jsstring * jsstring, entry.1 ≠ []) Demo2.twoAlphas ∧
  reportedCount (addCardThumbnails Demo.desktop Demo2.twoAlphas Demo.cardsView).2 = Some 1 ∧
  newlyMarked Demo.cardsView
    (addCardThumbnails Demo.desktop Demo2.twoAlphas Demo.cardsView).1 = [2].
Proof.
  assert (Forall (λ entry : jsstring * jsstring, entry.1 ≠ []) Demo2.twoAlphas) as Hne
    by (repeat constructor; discriminate).
  pose proof (addCardThumbnails_count_with_adapter Demo.resourcePath Demo2.twoAlphas
                Demo.cardsView Hne) as Hcount.
  assert (newlyMarked Demo.cardsView
            (addCardThumbnails Demo.desktop Demo2.twoAlphas Demo.cardsView).1 = [2])
    as Hnew by (vm_compute; reflexivity).
  change (documentQuerySelector Demo.cardsView (ByClass (str "bases-cards-container")))
    with (Some 0) in Hcount.
  destruct Hcount as [Hcount _].
  split; [exact Hne|]. split; [|exact Hnew].
  unfold Demo.desktop. rewrite Hcount. unfold Demo.desktop in Hnew. by rewrite Hnew.
Defined.
